(** * CodeCompass C++ parser plugin: [cppparser.cpp]

    A shallow embedding of [cc::parser::CppParser]: the command-line
    analysis ([isSourceFile], [extractInputOutputs]), the build-action
    ledger ([addBuildAction], [addCompileCommand], [worker]), the
    orchestration ([initBuildActions], [parseByJson], [parse]) and the
    incremental invalidation ([markAsModified], [collectNodeSet],
    [incrementalParse]).

    [std::string] is [string], [std::set] and [std::unordered_set] are
    [gset], [std::map] and [std::unordered_map] are [gmap], database tables
    are lists of rows in the order a query yields them. *)

From Stdlib Require Import Ascii String.
From stdpp Require Import gmap strings list fin_maps fin_sets relations pretty
  sorting.

Local Open Scope string_scope.

#[local] Set Warnings "-clear-no-such-hyp".
#[local] Set Default Proof Using "Type".

(** ** Strings and paths *)

Module Str.

(** [::tolower] in the C locale. *)
Definition tolower (c : ascii) : ascii :=
  let n := N_of_ascii c in
  if ((65 <=? n) && (n <=? 90))%N then ascii_of_N (n + 32) else c.

(** [std::transform(s.begin(), s.end(), s.begin(), ::tolower)]. *)
Fixpoint lower (s : string) : string :=
  match s with
  | EmptyString => EmptyString
  | String c r => String (tolower c) (lower r)
  end.

(** Does [s] contain the character [c]? *)
Fixpoint has (c : ascii) (s : string) : bool :=
  match s with
  | EmptyString => false
  | String d r => if Ascii.eqb c d then true else has c r
  end.

(** The suffix of [s] that follows the last [c]; [s] when there is none. *)
Fixpoint after_last (c : ascii) (s : string) : string :=
  match s with
  | EmptyString => EmptyString
  | String d r =>
      if has c r then after_last c r
      else if Ascii.eqb c d then r else s
  end.

(** The suffix of [s] that starts at the last [c] ([s.substr(s.rfind(c))]);
    [None] when [c] does not occur. *)
Fixpoint from_last (c : ascii) (s : string) : option string :=
  match s with
  | EmptyString => None
  | String d r =>
      match from_last c r with
      | Some t => Some t
      | None => if Ascii.eqb c d then Some s else None
      end
  end.

(** The last character. *)
Fixpoint back (s : string) : option ascii :=
  match s with
  | EmptyString => None
  | String c EmptyString => Some c
  | String _ r => back r
  end.

(** [s.find(p) == 0]. *)
Definition starts_with (p s : string) : bool := String.prefix p s.

(** [s.substr(0, n)] for a [size_t] count [n], given as the integer the
    source computes before it wraps to 64 bits. *)
Definition substr0 (s : string) (n : Z) : string :=
  let n64 := (n mod 2 ^ 64)%Z in
  if (Z.of_nat (String.length s) <=? n64)%Z then s
  else String.substring 0 (Z.to_nat n64) s.

(** [boost::algorithm::join(l, sep)]. *)
Fixpoint join (sep : string) (l : list string) : string :=
  match l with
  | [] => ""
  | [x] => x
  | x :: r => x ++ sep ++ join sep r
  end.

End Str.

Module Fs.

Definition slash : ascii := "/"%char.
Definition dot : ascii := "."%char.

(** [path::filename()] as far as [extension] needs it: the part after
    the last directory separator. *)
Definition filename (p : string) : string := Str.after_last slash p.

(** [boost::filesystem::extension(p)]: empty for the names [.] and [..],
    otherwise the suffix of the file name from its last dot on, dot
    included, and empty when the name has no dot. *)
Definition extension (p : string) : string :=
  let name := filename p in
  if String.eqb name "." || String.eqb name ".." then ""
  else default "" (Str.from_last dot name).

(** [path::is_absolute()] on POSIX. *)
Definition is_absolute (p : string) : bool := Str.starts_with "/" p.

(** [base / p]. *)
Definition append (base p : string) : string :=
  if String.eqb p "" then base
  else if Str.starts_with "/" p then base ++ p
  else match Str.back base with
       | Some c => if Ascii.eqb c slash then base ++ p else base ++ "/" ++ p
       | None => p
       end.

(** [boost::filesystem::absolute(p, base)] on POSIX, with [cwd] the
    process's current path, consulted only for a relative [base]. *)
Definition absolute (cwd p base : string) : string :=
  let abs_base := if is_absolute base then base else append cwd base in
  if is_absolute p then p else append abs_base p.

End Fs.

(** ** [clang::tooling::CompileCommand] *)

Record CompileCommand := {
  Directory : string;
  Filename : string;
  CommandLine : list string
}.

(** ** [CppParser::isSourceFile], [isNonSourceFlag] *)

Definition cppExts : list string :=
  [".c"; ".cc"; ".cpp"; ".cxx"; ".o"; ".so"; ".a"].

Definition isSourceFile (file_ : string) : bool :=
  let ext := Str.lower (Fs.extension file_) in
  bool_decide (ext ∈ cppExts).

Definition isNonSourceFlag (arg_ : string) : bool :=
  Str.starts_with "-Wl," arg_.

(** ** [CppParser::extractInputOutputs] *)

Inductive State := StNone | OParam.

(** The locals of the argument loop. *)
Record Scan := {
  state : State;
  hasCParam : bool;
  sources : gset string;
  output : string
}.

Definition scan0 : Scan :=
  {| state := StNone; hasCParam := false; sources := ∅; output := "" |}.

Section ExtractInputOutputs.

(** The process's current directory, which [boost::filesystem::absolute]
    reads when the command's directory is relative. *)
Variable cwd : string.

(** One iteration of the loop over [command_.CommandLine]. *)
Definition scan_arg (dir : string) (s : Scan) (arg : string) : Scan :=
  match state s with
  | OParam =>
      {| state := StNone; hasCParam := hasCParam s; sources := sources s;
         output := Fs.absolute cwd arg dir |}
  | StNone =>
      if isSourceFile arg && negb (isNonSourceFlag arg) then
        {| state := StNone; hasCParam := hasCParam s;
           sources := {[ Fs.absolute cwd arg dir ]} ∪ sources s;
           output := output s |}
      else if String.eqb arg "-c" then
        {| state := StNone; hasCParam := true; sources := sources s;
           output := output s |}
      else if String.eqb arg "-o" then
        {| state := OParam; hasCParam := hasCParam s; sources := sources s;
           output := output s |}
      else s
  end.

Definition scan_args (dir : string) (args : list string) : Scan :=
  foldl (scan_arg dir) scan0 args.

(** The output derived for [src] under [-c]:
    [src.substr(0, src.size() - extension.size() - 1) + ".o"]. *)
Definition derived_output (src : string) : string :=
  let extension := Fs.extension src in
  Str.substr0 src
    (Z.of_nat (String.length src) - Z.of_nat (String.length extension) - 1)
  ++ ".o".

Definition extractInputOutputs (command_ : CompileCommand)
  : gmap string string :=
  let s := scan_args (Directory command_) (CommandLine command_) in
  if String.eqb (output s) "" && hasCParam s then
    set_to_map (λ src, (src, derived_output src)) (sources s)
  else
    let out :=
      if String.eqb (output s) "" then Directory command_ ++ "/a.out"
      else output s in
    set_to_map (λ src, (src, out)) (sources s).

End ExtractInputOutputs.

(** ** Outcomes of fallible code *)

(** A call returns a value, leaves by a C++ exception, or, in the two
    functions that are modelled with a step budget, exhausts the budget.
    A call in which the process dies on an invalid memory access is written
    [Throw] as well. *)
Inductive result (A : Type) : Type :=
| Ok (a : A)
| Throw
| Starved.
Arguments Ok {A} a.
Arguments Throw {A}.
Arguments Starved {A}.

Definition result_bind {A B} (k : A → result B) (m : result A) : result B :=
  match m with
  | Ok a => k a
  | Throw => Throw
  | Starved => Starved
  end.

#[export] Instance result_mbind : MBind result := @result_bind.
#[export] Instance result_mret : MRet result := @Ok.

(** A [for] loop whose body may throw. *)
Fixpoint foldM {A B} (f : B → A → result B) (l : list A) (b : B) : result B :=
  match l with
  | [] => Ok b
  | x :: r => b' ← f b x; foldM f r b'
  end.

(** ** The persistent model *)

Definition FileId := N.
Definition CppAstNodeId := N.
Definition CppNodeId := N.
Definition BuildActionId := N.

Inductive FileType := DIRECTORY_TYPE | BINARY_TYPE | OTHER_TYPE.
Inductive ParseStatus := PSNone | PSPartiallyParsed | PSFullyParsed.

#[export] Instance FileType_eq_dec : EqDecision FileType.
Proof. solve_decision. Defined.
#[export] Instance ParseStatus_eq_dec : EqDecision ParseStatus.
Proof. solve_decision. Defined.

(** [model::File]; [file_content] is the lazy pointer to its content row,
    which is keyed by the content hash. *)
Record File := {
  file_id : FileId;
  file_path : string;
  file_type : FileType;
  file_parseStatus : ParseStatus;
  file_content : option string
}.

Record FileContent := { content_hash : string; content_text : string }.

Record CppHeaderInclusion := { includer : FileId; included : FileId }.

Inductive AstType := Definition_ | Declaration | Usage | OtherAstType.
#[export] Instance AstType_eq_dec : EqDecision AstType.
Proof. solve_decision. Defined.

Record CppAstNode := {
  ast_id : CppAstNodeId;
  location_file : FileId;
  astType : AstType;
  ast_mangledNameHash : N
}.

Record CppEntity := { entity_id : N; entity_mangledNameHash : N }.
Record CppInheritance := { inheritance_id : N; derived : N; base : N }.
Record CppFriendship := { friendship_id : N; target : N; theFriend : N }.

Inductive Domain := FILE | CPPASTNODE.
#[export] Instance Domain_eq_dec : EqDecision Domain.
Proof. solve_decision. Defined.

Record CppNode := { node_id : CppNodeId; domain : Domain; domainId : string }.
Record CppEdge := { edge_id : N; from : CppNodeId; to : CppNodeId }.

Inductive BuildActionType := Compile | Link.

Record BuildAction := {
  action_id : BuildActionId;
  command : string;
  action_type : BuildActionType
}.

Record BuildSource := { source_file : FileId; source_action : BuildActionId }.
Record BuildTarget := { target_file : FileId; target_action : BuildActionId }.

(** The database [_ctx.db] together with the files that [_ctx.srcMgr]
    manages. A table lists its rows in the order a query returns them. *)
Record Db := {
  files : list File;
  fileContents : list FileContent;
  inclusions : list CppHeaderInclusion;
  astNodes : list CppAstNode;
  entities : list CppEntity;
  inheritances : list CppInheritance;
  friendships : list CppFriendship;
  nodes : list CppNode;
  edges : list CppEdge;
  buildActions : list BuildAction;
  buildSources : list BuildSource;
  buildTargets : list BuildTarget
}.

Definition empty_db : Db :=
  {| files := []; fileContents := []; inclusions := []; astNodes := [];
     entities := []; inheritances := []; friendships := []; nodes := [];
     edges := []; buildActions := []; buildSources := []; buildTargets := [] |}.

Definition set_files (fs : list File) (db : Db) : Db :=
  {| files := fs; fileContents := fileContents db;
     inclusions := inclusions db; astNodes := astNodes db;
     entities := entities db; inheritances := inheritances db;
     friendships := friendships db; nodes := nodes db; edges := edges db;
     buildActions := buildActions db; buildSources := buildSources db;
     buildTargets := buildTargets db |}.

Definition set_fileContents (cs : list FileContent) (db : Db) : Db :=
  {| files := files db; fileContents := cs;
     inclusions := inclusions db; astNodes := astNodes db;
     entities := entities db; inheritances := inheritances db;
     friendships := friendships db; nodes := nodes db; edges := edges db;
     buildActions := buildActions db; buildSources := buildSources db;
     buildTargets := buildTargets db |}.

Definition set_entities (es : list CppEntity) (db : Db) : Db :=
  {| files := files db; fileContents := fileContents db;
     inclusions := inclusions db; astNodes := astNodes db;
     entities := es; inheritances := inheritances db;
     friendships := friendships db; nodes := nodes db; edges := edges db;
     buildActions := buildActions db; buildSources := buildSources db;
     buildTargets := buildTargets db |}.

Definition set_inheritances (hs : list CppInheritance) (db : Db) : Db :=
  {| files := files db; fileContents := fileContents db;
     inclusions := inclusions db; astNodes := astNodes db;
     entities := entities db; inheritances := hs;
     friendships := friendships db; nodes := nodes db; edges := edges db;
     buildActions := buildActions db; buildSources := buildSources db;
     buildTargets := buildTargets db |}.

Definition set_friendships (fs : list CppFriendship) (db : Db) : Db :=
  {| files := files db; fileContents := fileContents db;
     inclusions := inclusions db; astNodes := astNodes db;
     entities := entities db; inheritances := inheritances db;
     friendships := fs; nodes := nodes db; edges := edges db;
     buildActions := buildActions db; buildSources := buildSources db;
     buildTargets := buildTargets db |}.

Definition set_graph (ns : list CppNode) (es : list CppEdge) (db : Db) : Db :=
  {| files := files db; fileContents := fileContents db;
     inclusions := inclusions db; astNodes := astNodes db;
     entities := entities db; inheritances := inheritances db;
     friendships := friendships db; nodes := ns; edges := es;
     buildActions := buildActions db; buildSources := buildSources db;
     buildTargets := buildTargets db |}.

Definition set_build (bas : list BuildAction) (bss : list BuildSource)
    (bts : list BuildTarget) (db : Db) : Db :=
  {| files := files db; fileContents := fileContents db;
     inclusions := inclusions db; astNodes := astNodes db;
     entities := entities db; inheritances := inheritances db;
     friendships := friendships db; nodes := nodes db; edges := edges db;
     buildActions := bas; buildSources := bss; buildTargets := bts |}.

(** [odb::database::erase<T>(id)]: removes the row with that id and throws
    [odb::object_not_persistent] when the table has none. *)
Definition erase {T} (key : T → N) (id : N) (rows : list T) : result (list T) :=
  if bool_decide (id ∈ key <$> rows)
  then Ok (filter (λ r, key r ≠ id) rows)
  else Throw.

(** [lazy_shared_ptr<File>::load()]. *)
Definition load_File (db : Db) (id : FileId) : result File :=
  match list_find (λ f, file_id f = id) (files db) with
  | Some (_, f) => Ok f
  | None => Throw
  end.

(** [odb::result<T>::one()] followed by a dereference: the first row; an
    empty result gives a null pointer, whose dereference ends the run. *)
Definition one {T} (rows : list T) : result T :=
  match rows with
  | r :: _ => Ok r
  | [] => Throw
  end.

(** ** [CppParser::collectNodeSet] *)

(** The locals of the traversal: the accumulated [nodes], the
    [processQueue], and the nodes dequeued so far in order, which the
    source does not keep and which is recorded here to count visits. *)
Record Traversal := {
  trav_nodes : gset CppNodeId;
  processQueue : list CppNodeId;
  dequeued : list CppNodeId
}.

(** [if (!nodes.count(id)) { nodes.insert(id); processQueue.push(id); }] *)
Definition discover (id : CppNodeId) (t : Traversal) : Traversal :=
  if bool_decide (id ∈ trav_nodes t) then t
  else {| trav_nodes := {[ id ]} ∪ trav_nodes t;
          processQueue := processQueue t ++ [id];
          dequeued := dequeued t |}.

(** One of the two inner loops over a query result; [far] picks the end
    of the edge that is looked up in [nodes]. *)
Definition discover_all (far : CppEdge → CppNodeId) (l : list CppEdge)
    (t : Traversal) : Traversal :=
  foldl (λ t e, discover (far e) t) t l.

(** The body of the [while] loop once [nodeId] has been popped. *)
Definition expand (es : list CppEdge) (nodeId : CppNodeId) (t : Traversal)
  : Traversal :=
  let fromEdges := filter (λ e, from e = nodeId) es in
  let t := discover_all to fromEdges t in
  let toEdges := filter (λ e, to e = nodeId) es in
  discover_all from toEdges t.

(** [processQueue.front(); processQueue.pop();] with [nodeId] the front
    and [rest] what stays queued. *)
Definition popped (nodeId : CppNodeId) (rest : list CppNodeId)
    (t : Traversal) : Traversal :=
  {| trav_nodes := trav_nodes t; processQueue := rest;
     dequeued := dequeued t ++ [nodeId] |}.

Fixpoint collect_loop (fuel : nat) (es : list CppEdge) (t : Traversal)
  : result Traversal :=
  match processQueue t with
  | [] => Ok t
  | nodeId :: rest =>
      match fuel with
      | 0 => Starved
      | S k => collect_loop k es (expand es nodeId (popped nodeId rest t))
      end
  end.

(** Every node is enqueued at most once and every node but the first is the
    endpoint of an edge, so the loop runs at most [1 + 2 * |edges|] times. *)
Definition collect_fuel (es : list CppEdge) : nat := S (2 * length es).

Definition collect (es : list CppEdge) (node_ : CppNodeId) : result Traversal :=
  collect_loop (collect_fuel es) es
    {| trav_nodes := {[ node_ ]}; processQueue := [node_]; dequeued := [] |}.

Definition collectNodeSet (db : Db) (node_ : CppNodeId)
  : result (gset CppNodeId) :=
  t ← collect (edges db) node_; Ok (trav_nodes t).

(** Two nodes are adjacent when an edge joins them, in either direction;
    [connected] is reachability along such steps. *)
Definition adjacent (es : list CppEdge) (x y : CppNodeId) : Prop :=
  ∃ e, e ∈ es ∧ ((from e = x ∧ to e = y) ∨ (to e = x ∧ from e = y)).

Definition connected (es : list CppEdge) : relation CppNodeId :=
  rtc (adjacent es).

(** All node ids the traversal from [node_] can meet. *)
Definition endpoints (es : list CppEdge) (node_ : CppNodeId)
  : gset CppNodeId :=
  {[ node_ ]} ∪ list_to_set (from <$> es) ∪ list_to_set (to <$> es).

(** What holds of the locals between two steps of the traversal that
    started at [node_], apart from the closure of the dequeued nodes. *)
Record traversal_inv (es : list CppEdge) (node_ : CppNodeId)
    (t : Traversal) : Prop := {
  inv_start : node_ ∈ trav_nodes t;
  inv_connected : ∀ x, x ∈ trav_nodes t → connected es node_ x;
  inv_nodup : NoDup (dequeued t ++ processQueue t)%list;
  inv_nodes : ∀ x, x ∈ trav_nodes t ↔ x ∈ (dequeued t ++ processQueue t)%list;
  inv_endpoints : trav_nodes t ⊆ endpoints es node_
}.

(** Every neighbour of a node of [l] has been discovered. *)
Definition closed_on (es : list CppEdge) (l : list CppNodeId)
    (t : Traversal) : Prop :=
  ∀ x y, x ∈ l → adjacent es x y → y ∈ trav_nodes t.

(** ** [CppParser::markAsModified] *)

Inductive IncrementalStatus := ADDED | MODIFIED | DELETED.
#[export] Instance IncrementalStatus_eq_dec : EqDecision IncrementalStatus.
Proof. solve_decision. Defined.

Fixpoint markAsModified_fuel (fuel : nat) (db : Db) (file_ : File)
    (_fileStatus : gmap string IncrementalStatus)
  : result (gmap string IncrementalStatus) :=
  match _fileStatus !! file_path file_ with
  | Some _ => Ok _fileStatus
  | None =>
      match fuel with
      | 0 => Starved
      | S k =>
          let st := <[ file_path file_ := MODIFIED ]> _fileStatus in
          let incs := filter (λ inc, included inc = file_id file_)
                             (inclusions db) in
          foldM (λ st inc,
                   f ← load_File db (includer inc);
                   markAsModified_fuel k db f st)
                incs st
      end
  end.

(** Each call that does not return at once classifies one more path, and
    all paths but that of the first call belong to rows of the file table. *)
Definition markAsModified (db : Db) (file_ : File)
    (_fileStatus : gmap string IncrementalStatus)
  : result (gmap string IncrementalStatus) :=
  markAsModified_fuel (S (length (files db))) db file_ _fileStatus.

(** [g] includes [f]: some [CppHeaderInclusion] row has [g] as includer
    and [f] as included file. *)
Definition includes (db : Db) (g f : File) : Prop :=
  ∃ inc, inc ∈ inclusions db
         ∧ includer inc = file_id g ∧ included inc = file_id f.

(** The constraints the schema puts on the tables the cascade reads: the
    id is the key of the file table, a path names one file, and the includer
    of an inclusion is a row of the file table. *)
Definition store_wf (db : Db) : Prop :=
  NoDup (file_id <$> files db)
  ∧ NoDup (file_path <$> files db)
  ∧ Forall (λ inc, includer inc ∈ file_id <$> files db) (inclusions db).

(** What a result must satisfy: [Q] for a returned value, [T] when an
    exception was thrown, [S] when the budget ran out. *)
Definition outcome {B} (T S : Prop) (Q : B → Prop) (r : result B) : Prop :=
  match r with
  | Ok b => Q b
  | Throw => T
  | Starved => S
  end.

(** The paths of the file table. *)
Definition store_paths (db : Db) : gset string :=
  list_to_set (file_path <$> files db).

(** Some includer of an inclusion row is not a row of the file table. *)
Definition dangling_includer (db : Db) : Prop :=
  ¬ Forall (λ inc, includer inc ∈ file_id <$> files db) (inclusions db).

(** The number of paths of the file table that [st] does not classify. *)
Definition unclassified (db : Db) (st : gmap string IncrementalStatus)
  : nat :=
  size (store_paths db ∖ dom st).

(** The paths that [st'] classifies and [st] does not are [MODIFIED] in
    [st'], and the files that include a file with such a path are
    classified in [st']. *)
Definition newly_closed (db : Db) (st st' : gmap string IncrementalStatus)
  : Prop :=
  ∀ p, p ∈ dom st' → p ∉ dom st →
    st' !! p = Some MODIFIED
    ∧ ∀ g h, g ∈ files db → h ∈ files db → file_path g = p →
        includes db h g → file_path h ∈ dom st'.

(** ** Deleting from the store *)

Section Store.

(** Whether the store removes an edge together with either of its end
    nodes. A [CppEdge] holds its end nodes as object pointers
    ([edge.from->id], [edge.to->id]), and the data model of the spec has no
    edge without its end nodes, which is the store with [true]; the
    declaration itself is in the model headers, not in this file, and the
    code below erases nodes only. What holds of either store is stated for
    both values. *)
Variable edge_cascade : bool.

Definition erase_CppNode (id : CppNodeId) (db : Db) : result Db :=
  ns ← erase node_id id (nodes db);
  let es := if edge_cascade
            then filter (λ e, from e ≠ id ∧ to e ≠ id) (edges db)
            else edges db in
  Ok (set_graph ns es db).

(** [for (nodeId : collectNodeSet(node.id)) erase<CppNode>(nodeId);] *)
Definition deleteComponent (db : Db) (start : CppNodeId) : result Db :=
  ids ← collectNodeSet db start;
  foldM (λ d id, erase_CppNode id d) (elements ids) db.

(** The edges the store keeps once the nodes of [l] are erased. *)
Definition edges_after (l : list CppNodeId) (es : list CppEdge)
  : list CppEdge :=
  if edge_cascade then filter (λ e, from e ∉ l ∧ to e ∉ l) es else es.

(** Modelled from the spec: the schema of [BuildSource] and
    [BuildTarget] is not in this file; a build action owns its rows,
    which are deleted with it. *)
Definition erase_BuildAction (id : BuildActionId) (db : Db) : result Db :=
  bas ← erase action_id id (buildActions db);
  Ok (set_build bas
        (filter (λ s, source_action s ≠ id) (buildSources db))
        (filter (λ t, target_action t ≠ id) (buildTargets db)) db).

(** Modelled from the spec: [SourceManager::removeFile] is not in this
    file; it removes the file row, and its content row when no other file
    shares that content. *)
Definition removeFile (f : File) (db : Db) : result Db :=
  fs ← erase file_id (file_id f) (files db);
  let cs :=
    match file_content f with
    | Some h =>
        if bool_decide (Exists (λ g, file_content g = Some h) fs)
        then fileContents db
        else filter (λ c, content_hash c ≠ h) (fileContents db)
    | None => fileContents db
    end in
  Ok (set_fileContents cs (set_files fs db)).

(** The body of the loop over the definitions located in the file. *)
Definition cleanupAstNode (db : Db) (astNode : CppAstNode) : result Db :=
  let delCppEntities :=
    filter (λ e, entity_mangledNameHash e = ast_mangledNameHash astNode)
           (entities db) in
  db ← foldM (λ d e, es ← erase entity_id (entity_id e) (entities d);
                     Ok (set_entities es d)) delCppEntities db;
  let delCppInheritance :=
    filter (λ i, derived i = ast_mangledNameHash astNode)
           (inheritances db) in
  db ← foldM (λ d i, hs ← erase inheritance_id (inheritance_id i)
                                (inheritances d);
                     Ok (set_inheritances hs d)) delCppInheritance db;
  let delCppFriendship :=
    filter (λ f, target f = ast_mangledNameHash astNode)
           (friendships db) in
  db ← foldM (λ d f, fs ← erase friendship_id (friendship_id f)
                                (friendships d);
                     Ok (set_friendships fs d)) delCppFriendship db;
  let delNodes :=
    filter (λ n, domainId n = pretty (ast_id astNode) ∧ domain n = CPPASTNODE)
           (nodes db) in
  foldM (λ d n, deleteComponent d (node_id n)) delNodes db.

(** The [MODIFIED]/[DELETED] case of the cleanup loop for the file whose
    path is [path]. *)
Definition cleanupFile (path : string) (db : Db) : result Db :=
  delFile ← one (filter (λ f, file_path f = path) (files db));
  let defCppAstNodes :=
    filter (λ a, location_file a = file_id delFile ∧ astType a = Definition_)
           (astNodes db) in
  db ← foldM cleanupAstNode defCppAstNodes db;
  let delSources :=
    filter (λ s, source_file s = file_id delFile) (buildSources db) in
  db ← foldM (λ d s, erase_BuildAction (source_action s) d) delSources db;
  let delNodes :=
    filter (λ n, domainId n = pretty (file_id delFile) ∧ domain n = FILE)
           (nodes db) in
  db ← foldM (λ d n, deleteComponent d (node_id n)) delNodes db;
  removeFile delFile db.

End Store.

(** Modelled from the spec: [util::OdbTransaction] is not in this file;
    the store is transactional, so [util::OdbTransaction(db)(body)] commits
    the writes of [body] when it returns and rolls them back when an
    exception leaves it. *)
Definition OdbTransaction {A} (body : Db → result (A * Db)) (db : Db)
  : result A * Db :=
  match body db with
  | Ok (a, db') => (Ok a, db')
  | Throw => (Throw, db)
  | Starved => (Starved, db)
  end.

(** ** [CppParser::incrementalParse] *)

Section IncrementalParse.

(** The file system: [boost::filesystem::exists], which also holds of a
    directory, and the bytes that the [std::istreambuf_iterator] over an
    [std::ifstream] of the path reads; [None] when reading them throws
    [std::ios_base::failure], as it does when the path is a directory. And
    [util::sha1Hash]. *)
Variable fs_exists : string → bool.
Variable fs_read : string → option string.
Variable sha1Hash : string → string.

Variable edge_cascade : bool.

(** Whether the store raises an error of its own (an [odb::exception]
    other than the ones [erase] and [load] model) while the cleanup of the
    file with the given path is under way. *)
Variable store_error : string → bool.

(** The rows of
    [query<File>(type != DIRECTORY_TYPE && type != BINARY_TYPE)]. *)
Definition scanned_files (db : Db) : list File :=
  filter (λ f, file_type f ≠ DIRECTORY_TYPE ∧ file_type f ≠ BINARY_TYPE)
         (files db).

(** [_fileStatus.insert(std::make_pair(path, status))], which keeps an
    existing entry. *)
Definition status_insert (path : string) (s : IncrementalStatus)
    (st : gmap string IncrementalStatus) : gmap string IncrementalStatus :=
  match st !! path with
  | Some _ => st
  | None => <[ path := s ]> st
  end.

(** The body of the first loop, for one file row. *)
Definition classifyFile (db : Db) (st : gmap string IncrementalStatus)
    (file : File) : result (gmap string IncrementalStatus) :=
  if fs_exists (file_path file) then
    match st !! file_path file with
    | Some _ => Ok st
    | None =>
        match file_content file with
        | None => Ok st
        | Some hash =>
            match fs_read (file_path file) with
            | None => Throw
            | Some fileContent =>
                if bool_decide (hash ≠ sha1Hash fileContent)
                then markAsModified db file st
                else Ok st
            end
        end
    end
  else Ok (status_insert (file_path file) DELETED st).

(** The first loop: change detection and cascade. *)
Definition classify (db : Db) (st : gmap string IncrementalStatus)
  : result (gmap string IncrementalStatus) :=
  foldM (classifyFile db) (scanned_files db) st.

(** The body of the second loop, for one entry of [_fileStatus]. *)
Definition cleanupItem (db : Db) (item : string * IncrementalStatus)
  : result Db :=
  match item.2 with
  | MODIFIED | DELETED =>
      if store_error item.1 then Throw
      else cleanupFile edge_cascade item.1 db
  | ADDED => Ok db
  end.

(** The second loop, over [_fileStatus]. *)
Definition cleanup (st : gmap string IncrementalStatus) (db : Db)
  : result Db :=
  foldM cleanupItem (map_to_list st) db.

(** [g] is a row of the file table that is present on disk and
    includes [f]. *)
Definition present_includer (db : Db) (f g : File) : Prop :=
  g ∈ files db ∧ fs_exists (file_path g) = true ∧ includes db g f.

(** The stored content hash of [f] differs from the hash of the bytes
    read from its path. *)
Definition changed (f : File) : Prop :=
  ∃ hash fileContent,
    file_content f = Some hash ∧ fs_read (file_path f) = Some fileContent
    ∧ hash ≠ sha1Hash fileContent.

(** If [f] has stored content, the bytes under its path can be read. *)
Definition readable (f : File) : Prop :=
  is_Some (file_content f) → is_Some (fs_read (file_path f)).

(** If [f] has stored content, the bytes under its path can be read and
    have the stored hash. *)
Definition unchanged (f : File) : Prop :=
  ∀ hash, file_content f = Some hash →
    ∃ fileContent, fs_read (file_path f) = Some fileContent
                   ∧ hash = sha1Hash fileContent.

(** What holds of [_fileStatus] between two steps of the first loop: an
    entry is [MODIFIED], or [DELETED] for a path that is absent from disk,
    and the files that include a [MODIFIED] file are classified. *)
Definition classified_ok (db : Db) (st : gmap string IncrementalStatus)
  : Prop :=
  (∀ p s, st !! p = Some s →
          s = MODIFIED ∨ (s = DELETED ∧ fs_exists p = false))
  ∧ (∀ g h, g ∈ files db → h ∈ files db →
            st !! file_path g = Some MODIFIED → includes db h g →
            file_path h ∈ dom st).

(** Every scanned file is on disk, and reads there with its stored
    hash. *)
Definition no_source_changes (d : Db) : Prop :=
  ∀ f, f ∈ scanned_files d →
       fs_exists (file_path f) = true ∧ unchanged f.

(** The whole pass: one transaction around both loops. It returns the
    classification it reached, and the store it leaves. *)
Definition incrementalParse (db : Db)
    (_fileStatus : gmap string IncrementalStatus)
  : result (gmap string IncrementalStatus) * Db :=
  OdbTransaction
    (λ db, st ← classify db _fileStatus;
           db' ← cleanup st db;
           Ok (st, db'))
    db.

End IncrementalParse.

(** ** The build-action ledger *)

Definition fresh_id (ids : list N) : N := N.succ (foldr N.max 0%N ids).

(** Modelled from the spec: [SourceManager::getFile] is not in this file;
    a file is created on its first reference. *)
Definition getFile (path : string) (db : Db) : File * Db :=
  match list_find (λ f, file_path f = path) (files db) with
  | Some (_, f) => (f, db)
  | None =>
      let f := {| file_id := fresh_id (file_id <$> files db);
                  file_path := path; file_type := OTHER_TYPE;
                  file_parseStatus := PSNone; file_content := None |} in
      (f, set_files (files db ++ [f]) db)
  end.

(** Modelled from the spec: [SourceManager::updateFile] is not in this
    file; it stores the given state of the file under the file's id. *)
Definition updateFile (f : File) (db : Db) : Db :=
  set_files ((λ g, if bool_decide (file_id g = file_id f) then f else g)
               <$> files db) db.

Definition set_parseStatus (s : ParseStatus) (f : File) : File :=
  {| file_id := file_id f; file_path := file_path f; file_type := file_type f;
     file_parseStatus := s; file_content := file_content f |}.

Definition set_type (t : FileType) (f : File) : File :=
  {| file_id := file_id f; file_path := file_path f; file_type := t;
     file_parseStatus := file_parseStatus f; file_content := file_content f |}.

Definition addBuildAction (command_ : CompileCommand) (db : Db)
  : BuildAction * Db :=
  let extension := Fs.extension (Filename command_) in
  let buildAction :=
    {| action_id := fresh_id (action_id <$> buildActions db);
       command := Str.join " " (CommandLine command_);
       action_type :=
         if String.eqb extension ".o" || String.eqb extension ".so"
            || String.eqb extension ".a"
         then Link else Compile |} in
  (buildAction,
   set_build (buildActions db ++ [buildAction]) (buildSources db)
             (buildTargets db) db).

(** The locals of [addCompileCommand] together with the store. *)
Record Ledger := {
  ledger_db : Db;
  ledger_sources : list BuildSource;
  ledger_targets : list BuildTarget
}.

(** What the ledger may do to a row of the file table while it records a
    command with parse status [s]: the row keeps its id and path, a status
    [s] stays [s], and a binary file stays binary. *)
Definition evolves (s : ParseStatus) (r r' : File) : Prop :=
  file_id r' = file_id r ∧ file_path r' = file_path r
  ∧ (file_parseStatus r = s → file_parseStatus r' = s)
  ∧ (file_type r = BINARY_TYPE → file_type r' = BINARY_TYPE).

(** The store [d'] holds a descendant of every row of the file table of
    [d], and its ids are still a key. *)
Definition files_evolve (s : ParseStatus) (d d' : Db) : Prop :=
  NoDup (file_id <$> files d')
  ∧ ∀ r, r ∈ files d → ∃ r', r' ∈ files d' ∧ evolves s r r'.

(** The pair [(src, tgt)] is recorded in [l] for the action with id [a]. *)
Definition recorded (s : ParseStatus) (a : BuildActionId) (l : Ledger)
    (src tgt : string) : Prop :=
  (∃ f, f ∈ files (ledger_db l) ∧ file_path f = src
        ∧ file_parseStatus f = s
        ∧ {| source_file := file_id f; source_action := a |}
            ∈ ledger_sources l)
  ∧ (∃ g, g ∈ files (ledger_db l) ∧ file_path g = tgt
          ∧ file_type g = BINARY_TYPE
          ∧ {| target_file := file_id g; target_action := a |}
              ∈ ledger_targets l).

Definition status_of (error_ : bool) : ParseStatus :=
  if error_ then PSPartiallyParsed else PSFullyParsed.

Section Ledger.

Variable cwd : string.

(** The body of the loop over the pairs of [extractInputOutputs]. *)
Definition recordPair (buildAction_ : BuildAction) (error_ : bool)
    (l : Ledger) (srcTarget : string * string) : Ledger :=
  let '(file, db) := getFile srcTarget.1 (ledger_db l) in
  let file := set_parseStatus (status_of error_) file in
  let db := updateFile file db in
  let buildSource :=
    {| source_file := file_id file;
       source_action := action_id buildAction_ |} in
  let '(tfile, db) := getFile srcTarget.2 db in
  let buildTarget :=
    {| target_file := file_id tfile;
       target_action := action_id buildAction_ |} in
  let db :=
    if bool_decide (file_type tfile ≠ BINARY_TYPE)
    then updateFile (set_type BINARY_TYPE tfile) db
    else db in
  {| ledger_db := db;
     ledger_sources := ledger_sources l ++ [buildSource];
     ledger_targets := ledger_targets l ++ [buildTarget] |}.

(** The pairs of a [std::map] in the order its iterator yields them, by
    ascending key. *)
Definition key_le (a b : string * string) : Prop :=
  String.leb a.1 b.1 = true.

#[export] Instance key_le_dec : RelDecision key_le.
Proof. intros a b. unfold key_le. apply _. Defined.

Definition pairs_in_key_order (m : gmap string string)
  : list (string * string) :=
  merge_sort key_le (map_to_list m).

Definition addCompileCommand (command_ : CompileCommand)
    (buildAction_ : BuildAction) (error_ : bool) (db : Db) : Db :=
  let l := foldl (recordPair buildAction_ error_)
             {| ledger_db := db; ledger_sources := [];
                ledger_targets := [] |}
             (pairs_in_key_order (extractInputOutputs cwd command_)) in
  set_build (buildActions (ledger_db l))
    (buildSources (ledger_db l) ++ ledger_sources l)
    (buildTargets (ledger_db l) ++ ledger_targets l)
    (ledger_db l).

(** ** [CppParser::worker] *)

(** [FixedCompilationDatabase::loadFromCommandLine]: whether it yields a
    database for the assembled arguments. *)
Variable loadFromCommandLine : list string → bool.

(** [ClangTool::run] with the visitor factory: the external parse of one
    translation unit, its result code and what it leaves in the store. *)
Variable tool_run : CompileCommand → Db → Z * Db.

(** The arguments are copied from [CommandLine.begin() + 1], behind the
    compiler name. On an empty command line that iterator is already past
    the end and [std::transform] runs on beyond the vector: the behaviour is
    undefined and the process dies, which is written [Throw]. *)
Definition worker (command_ : CompileCommand) (db : Db) : result (Z * Db) :=
  match CommandLine command_ with
  | [] => Throw
  | _ :: arguments =>
      let commandLine := "--" :: arguments in
      if negb (loadFromCommandLine commandLine) then Ok (1%Z, db)
      else
        let '(buildAction, db) := addBuildAction command_ db in
        let '(error, db) := tool_run command_ db in
        Ok (error, addCompileCommand command_ buildAction
                     (bool_decide (error ≠ 0%Z)) db)
  end.

End Ledger.

(** ** The orchestrator *)

Record ParseJob := { job_command : CompileCommand; job_index : nat }.

(** The parser object and what it acts on: the store, the members
    [_parsedCommandHashes] and [_fileStatus], and two histories that the
    source does not keep: the compilation databases handed to
    [loadFromFile] and the jobs handed to [pool->enqueue]. *)
Record Parser := {
  db : Db;
  _parsedCommandHashes : gset N;
  _fileStatus : gmap string IncrementalStatus;
  loaded : list string;
  enqueued : list ParseJob
}.

Definition new_parser (d : Db) : Parser :=
  {| db := d; _parsedCommandHashes := ∅; _fileStatus := ∅;
     loaded := []; enqueued := [] |}.

Section Orchestrator.

Variable cwd : string.
Variable fs_exists : string → bool.
Variable fs_read : string → option string.
Variable sha1Hash : string → string.
Variable edge_cascade : bool.
Variable store_error : string → bool.
Variable loadFromCommandLine : list string → bool.
Variable tool_run : CompileCommand → Db → Z * Db.

(** [util::fnvHash], a 64-bit hash of a string. *)
Variable fnvHash : string → N.

(** [boost::filesystem::is_regular_file]. *)
Variable is_regular_file : string → bool.

(** [JSONCompilationDatabase::loadFromFile] followed by
    [getAllCompileCommands]; [None] when it reports an error message. *)
Variable loadFromFile : string → option (list CompileCommand).

Definition initBuildActions (p : Parser) : Parser :=
  {| db := db p;
     _parsedCommandHashes :=
       foldl (λ hs ba, {[ fnvHash (command ba) ]} ∪ hs)
             (_parsedCommandHashes p) (buildActions (db p));
     _fileStatus := _fileStatus p; loaded := loaded p;
     enqueued := enqueued p |}.

(** The locals of the submission loop: the running [index], the hash
    set, and the jobs pushed so far. *)
Record Submit := {
  sub_index : nat;
  sub_hashes : gset N;
  sub_jobs : list ParseJob
}.

Definition submit (s : Submit) (command : CompileCommand) : Submit :=
  let index := S (sub_index s) in
  let job := {| job_command := command; job_index := index |} in
  let hash := fnvHash (Str.join " " (CommandLine command)) in
  if bool_decide (hash ∈ sub_hashes s) then
    {| sub_index := index; sub_hashes := sub_hashes s;
       sub_jobs := sub_jobs s |}
  else
    {| sub_index := index; sub_hashes := {[ hash ]} ∪ sub_hashes s;
       sub_jobs := sub_jobs s ++ [job] |}.

(** Modelled from the spec: [util::JobQueueThreadPool] is not in this
    file; every enqueued job is run to completion before [wait] returns.
    The workers run in parallel with no order between them; here the jobs
    run one after the other in queue order, which is one of the schedules.
    The result code of a job only decides a log line; a worker that dies
    takes the process with it. *)
Definition run_jobs (jobs : list ParseJob) (d : Db) : result Db :=
  foldM (λ d job,
           r ← worker cwd loadFromCommandLine tool_run (job_command job) d;
           Ok r.2)
        jobs d.

Definition parseByJson (jsonFile_ : string) (p : Parser)
  : result (bool * Parser) :=
  match loadFromFile jsonFile_ with
  | None =>
      Ok (false,
          {| db := db p; _parsedCommandHashes := _parsedCommandHashes p;
             _fileStatus := _fileStatus p;
             loaded := loaded p ++ [jsonFile_]; enqueued := enqueued p |})
  | Some compileCommands =>
      let s := foldl submit
                 {| sub_index := 0; sub_hashes := _parsedCommandHashes p;
                    sub_jobs := [] |} compileCommands in
      d ← run_jobs (sub_jobs s) (db p);
      Ok (true,
          {| db := d;
             _parsedCommandHashes := sub_hashes s;
             _fileStatus := _fileStatus p;
             loaded := loaded p ++ [jsonFile_];
             enqueued := enqueued p ++ sub_jobs s |})
  end.

(** The body of the loop over the [input] option:
    [if (is_regular_file(input)) success = success && parseByJson(...)]. *)
Definition parseInput (acc : bool * Parser) (input : string)
  : result (bool * Parser) :=
  let '(success, p) := acc in
  if is_regular_file input then
    if success then parseByJson input p else Ok (false, p)
  else Ok (success, p).

Definition set_store (d : Db) (st : gmap string IncrementalStatus)
    (p : Parser) : Parser :=
  {| db := d; _parsedCommandHashes := _parsedCommandHashes p;
     _fileStatus := st; loaded := loaded p; enqueued := enqueued p |}.

(** The first statement of [parse]: the invalidation pass when the
    option [incremental] is set; an exception of the pass leaves [parse]. *)
Definition invalidate (incremental : bool) (p : Parser) : result Parser :=
  if incremental then
    match incrementalParse fs_exists fs_read sha1Hash edge_cascade
            store_error (db p) (_fileStatus p) with
    | (Ok st, d) => Ok (set_store d st p)
    | (Throw, _) => Throw
    | (Starved, _) => Starved
    end
  else Ok p.

(** [_parsedCommandHashes.clear()]. *)
Definition clear_hashes (p : Parser) : Parser :=
  {| db := db p; _parsedCommandHashes := ∅; _fileStatus := _fileStatus p;
     loaded := loaded p; enqueued := enqueued p |}.

(** [CppParser::parse]; [incremental] is whether the option of that
    name is set, [inputs] the value of the option [input]. The mangled-name
    cache that [VisitorActionFactory] fills and clears around the loop is
    read by the external parse only and is left out. *)
Definition parse (incremental : bool) (inputs : list string) (p : Parser)
  : result (bool * Parser) :=
  p ← invalidate incremental p;
  r ← foldM parseInput inputs (true, initBuildActions p);
  Ok (r.1, clear_hashes r.2).

(** The hash under which a command is looked up and recorded. *)
Definition line_hash (c : CompileCommand) : N :=
  fnvHash (Str.join " " (CommandLine c)).

End Orchestrator.

(** ** Predicates on stores and runs *)

(** [g] is a row of the file table that includes [f]. *)
Definition includer_row (db : Db) (f g : File) : Prop :=
  g ∈ files db ∧ includes db g f.

(** Every table of [d'] other than the file table holds only rows of
    [d]; the AST nodes and the inclusions are those of [d]; and a build
    source of [d] is still there unless its action is gone. *)
Record erases (d d' : Db) : Prop := {
  er_astNodes : astNodes d' = astNodes d;
  er_inclusions : inclusions d' = inclusions d;
  er_fileContents : fileContents d' ⊆ fileContents d;
  er_entities : entities d' ⊆ entities d;
  er_inheritances : inheritances d' ⊆ inheritances d;
  er_friendships : friendships d' ⊆ friendships d;
  er_nodes : nodes d' ⊆ nodes d;
  er_edges : edges d' ⊆ edges d;
  er_buildActions : buildActions d' ⊆ buildActions d;
  er_buildSources : buildSources d' ⊆ buildSources d;
  er_buildTargets : buildTargets d' ⊆ buildTargets d;
  er_sources : ∀ s, s ∈ buildSources d →
    s ∈ buildSources d'
    ∨ ∀ ba, ba ∈ buildActions d' → action_id ba ≠ source_action s
}.

(** The definition [a] has left nothing in [d]: no entity, inheritance or
    friendship with its mangled-name hash, and no graph node keyed by it. *)
Record definition_gone (a : CppAstNode) (d : Db) : Prop := {
  dg_entities : ∀ e, e ∈ entities d →
    entity_mangledNameHash e ≠ ast_mangledNameHash a;
  dg_inheritances : ∀ i, i ∈ inheritances d →
    derived i ≠ ast_mangledNameHash a;
  dg_friendships : ∀ fr, fr ∈ friendships d →
    target fr ≠ ast_mangledNameHash a;
  dg_nodes : ∀ n, n ∈ nodes d →
    ¬ (domainId n = pretty (ast_id a) ∧ domain n = CPPASTNODE)
}.

(** What the cleanup deletes for the file [f] of the store [d] is absent
    from [d']: the row of [f]; for every definition of [d] that is located
    in [f], what [definition_gone] lists; every build action that has a
    build source of [d] on [f]; and the graph nodes keyed by [f]. *)
Record invalidated (d : Db) (f : File) (d' : Db) : Prop := {
  gone_file : ∀ r, r ∈ files d' → file_id r ≠ file_id f;
  gone_definitions : ∀ a, a ∈ astNodes d →
    location_file a = file_id f → astType a = Definition_ →
    definition_gone a d';
  gone_actions : ∀ s ba, s ∈ buildSources d → source_file s = file_id f →
    ba ∈ buildActions d' → action_id ba ≠ source_action s;
  gone_file_nodes : ∀ n, n ∈ nodes d' →
    ¬ (domainId n = pretty (file_id f) ∧ domain n = FILE)
}.

(** Every table of [d'] holds only rows of [d]. *)
Record only_erased (d d' : Db) : Prop := {
  oe_files : files d' ⊆ files d;
  oe_fileContents : fileContents d' ⊆ fileContents d;
  oe_inclusions : inclusions d' ⊆ inclusions d;
  oe_astNodes : astNodes d' ⊆ astNodes d;
  oe_entities : entities d' ⊆ entities d;
  oe_inheritances : inheritances d' ⊆ inheritances d;
  oe_friendships : friendships d' ⊆ friendships d;
  oe_nodes : nodes d' ⊆ nodes d;
  oe_edges : edges d' ⊆ edges d;
  oe_buildActions : buildActions d' ⊆ buildActions d;
  oe_buildSources : buildSources d' ⊆ buildSources d;
  oe_buildTargets : buildTargets d' ⊆ buildTargets d
}.

Section InputsLoop.

Variable fnvHash : string → N.
Variable is_regular_file : string → bool.
Variable loadFromFile : string → option (list CompileCommand).

(** The loop over the inputs, started with [success] true in the state
    [p0], after the inputs [pre]. *)
Definition inputs_spec (p0 : Parser) (pre : list string)
    (acc : bool * Parser) : Prop :=
  (acc.1 = true ↔ ∀ i, i ∈ pre → is_regular_file i = true →
                       is_Some (loadFromFile i))
  ∧ (acc.1 = true →
     loaded acc.2
     = (loaded p0 ++ filter (λ i, is_regular_file i = true) pre)%list)
  ∧ _fileStatus acc.2 = _fileStatus p0
  ∧ ∃ new, enqueued acc.2 = (enqueued p0 ++ new)%list
      ∧ NoDup (line_hash fnvHash <$> (job_command <$> new))
      ∧ (∀ h, h ∈ _parsedCommandHashes acc.2
              ↔ h ∈ _parsedCommandHashes p0
                ∨ h ∈ line_hash fnvHash <$> (job_command <$> new))
      ∧ (∀ job, job ∈ new →
           line_hash fnvHash (job_command job) ∉ _parsedCommandHashes p0)
      ∧ (acc.1 = true →
         ∀ i cs c, i ∈ pre → is_regular_file i = true →
           loadFromFile i = Some cs → c ∈ cs →
           line_hash fnvHash c ∈ _parsedCommandHashes acc.2)
      ∧ (new = [] → db acc.2 = db p0)
      ∧ (∀ job, job ∈ new →
           ∃ i cs, i ∈ pre ∧ is_regular_file i = true
                   ∧ loadFromFile i = Some cs ∧ job_command job ∈ cs).

End InputsLoop.

(** * Scenarios *)

(** Small stores, disks and runs on which the properties below are
    evaluated. *)

Definition demo_file (id : N) (path : string) (content : option string)
  : File :=
  {| file_id := id; file_path := path; file_type := OTHER_TYPE;
     file_parseStatus := PSFullyParsed; file_content := content |}.

Definition demo_db (fs : list File) (incs : list CppHeaderInclusion) : Db :=
  {| files := fs; fileContents := []; inclusions := incs; astNodes := [];
     entities := []; inheritances := []; friendships := []; nodes := [];
     edges := []; buildActions := []; buildSources := [];
     buildTargets := [] |}.

(** [/g.cpp] includes [/f.h]; [/g.cpp] is scanned first. *)
Definition demo_includer_first : Db :=
  demo_db [ demo_file 2 "/g.cpp" (Some "g0"); demo_file 1 "/f.h" (Some "f0") ]
          [ {| includer := 2%N; included := 1%N |} ].

(** [/a.h] and [/b.h] include each other and [/c.cpp] includes [/a.h]. *)
Definition demo_cycle : Db :=
  demo_db [ demo_file 1 "/a.h" (Some "a0"); demo_file 2 "/b.h" (Some "b0");
            demo_file 3 "/c.cpp" (Some "c0") ]
          [ {| includer := 2%N; included := 1%N |};
            {| includer := 1%N; included := 2%N |};
            {| includer := 3%N; included := 1%N |} ].

(** [/b.cpp] and [/c.cpp] include [/a.h]. *)
Definition demo_two_includers : Db :=
  demo_db [ demo_file 1 "/a.h" (Some "a0"); demo_file 2 "/b.cpp" (Some "b0");
            demo_file 3 "/c.cpp" (Some "c0") ]
          [ {| includer := 2%N; included := 1%N |};
            {| includer := 3%N; included := 1%N |} ].

(** A disk on which the file at [gone] is absent and the file at
    [edited] reads [new]; every other file reads as the stored hash of the
    demo files says, which is the path's base name followed by [0]. *)
Definition demo_exists (gone : string) (p : string) : bool :=
  negb (String.eqb p gone).

Definition demo_read (edited : string) (p : string) : option string :=
  if String.eqb p edited then Some "new"
  else if String.eqb p "/a.h" then Some "a0"
  else if String.eqb p "/b.h" then Some "b0"
  else if String.eqb p "/b.cpp" then Some "b0"
  else if String.eqb p "/c.cpp" then Some "c0"
  else if String.eqb p "/f.h" then Some "f0"
  else if String.eqb p "/g.cpp" then Some "g0"
  else Some "".

(** The same disk with a directory in the place of [/b.h]. *)
Definition demo_read_directory (p : string) : option string :=
  if String.eqb p "/b.h" then None else demo_read "" p.

(** Two components of two nodes each. *)
Definition demo_graph : Db :=
  set_graph [ {| node_id := 1%N; domain := FILE; domainId := "7" |};
              {| node_id := 2%N; domain := CPPASTNODE; domainId := "8" |};
              {| node_id := 3%N; domain := FILE; domainId := "9" |};
              {| node_id := 4%N; domain := CPPASTNODE; domainId := "10" |} ]
            [ {| edge_id := 1%N; from := 1%N; to := 2%N |};
              {| edge_id := 2%N; from := 4%N; to := 3%N |} ] empty_db.

(** [/b.cpp] includes [/a.h], defines what [/a.h] declares and was
    compiled to [/b.o]; the two files have nodes in the graph, joined by an
    edge. *)
Definition demo_project : Db :=
  {| files :=
       [ demo_file 1 "/a.h" (Some "a0"); demo_file 2 "/b.cpp" (Some "b0");
         {| file_id := 5%N; file_path := "/b.o"; file_type := BINARY_TYPE;
            file_parseStatus := PSNone; file_content := None |} ];
     fileContents :=
       [ {| content_hash := "a0"; content_text := "int f();" |};
         {| content_hash := "b0"; content_text := "int f() { return 0; }" |} ];
     inclusions := [ {| includer := 2%N; included := 1%N |} ];
     astNodes :=
       [ {| ast_id := 10%N; location_file := 1%N; astType := Declaration;
            ast_mangledNameHash := 100%N |};
         {| ast_id := 20%N; location_file := 2%N; astType := Definition_;
            ast_mangledNameHash := 100%N |} ];
     entities := [ {| entity_id := 1%N; entity_mangledNameHash := 100%N |} ];
     inheritances := [];
     friendships := [];
     nodes :=
       [ {| node_id := 1%N; domain := CPPASTNODE; domainId := "20" |};
         {| node_id := 3%N; domain := FILE; domainId := "1" |};
         {| node_id := 4%N; domain := FILE; domainId := "2" |} ];
     edges := [ {| edge_id := 1%N; from := 4%N; to := 3%N |} ];
     buildActions :=
       [ {| action_id := 1%N; command := "gcc -c b.cpp";
            action_type := Compile |} ];
     buildSources := [ {| source_file := 2%N; source_action := 1%N |} ];
     buildTargets := [ {| target_file := 5%N; target_action := 1%N |} ] |}.

(** The store fails while [/b.cpp] is cleaned up. *)
Definition demo_store_error (p : string) : bool := String.eqb p "/b.cpp".

Definition demo_command : CompileCommand :=
  {| Directory := "/"; Filename := "b.cpp";
     CommandLine := ["gcc"; "-c"; "b.cpp"] |}.

Definition demo_loadFromFile (jsonFile_ : string)
  : option (list CompileCommand) :=
  if String.eqb jsonFile_ "good.json" then Some [demo_command] else None.

Definition demo_parse (inputs : list string) : result (bool * Parser) :=
  parse "/" (λ _, true) (λ _, Some "") id true (λ _, false) (λ _, true)
    (λ _ d, (0%Z, d)) (λ s, N.of_nat (String.length s)) (λ _, true)
    demo_loadFromFile false inputs (new_parser empty_db).

(** An external parse that reports failure and leaves the store as it
    found it. *)
Definition demo_failing_parse (c : CompileCommand) (d : Db) : Z * Db :=
  (1%Z, d).

(** A link command, and a compilation database that holds the compile
    command twice. *)
Definition demo_link : CompileCommand :=
  {| Directory := "/"; Filename := "b.o";
     CommandLine := ["gcc"; "b.o"; "-o"; "prog"] |}.

(** [all.json] holds the compile command twice, around the link command. *)
Definition demo_loadAll (jsonFile_ : string) : option (list CompileCommand) :=
  if String.eqb jsonFile_ "all.json"
  then Some [demo_command; demo_link; demo_command]
  else demo_loadFromFile jsonFile_.

Definition demo_hash (s : string) : N := N.of_nat (String.length s).

(** A run on the two compilation databases, and the parser it leaves
    when it starts from the empty store. *)
Definition demo_run (d : Db) : result (bool * Parser) :=
  parse "/" (λ _, true) (λ _, Some "") id true (λ _, false) (λ _, true)
    demo_failing_parse demo_hash (λ _, true) demo_loadAll false
    ["all.json"; "good.json"] (new_parser d).

Definition demo_first_run : Parser :=
  match demo_run empty_db with
  | Ok (_, p) => p
  | _ => new_parser empty_db
  end.

(** The disk on which [/a.h] was edited, and the classification and the
    store that the pass reaches on it. *)
Definition demo_pass : result (gmap string IncrementalStatus) * Db :=
  incrementalParse (demo_exists "") (demo_read "/a.h") id true (λ _, false)
    demo_project ∅.

Definition demo_pass_status : gmap string IncrementalStatus :=
  {[ "/a.h" := MODIFIED; "/b.cpp" := MODIFIED ]}.

(** * Properties *)

(** ** Loops *)

Lemma foldl_inv {A B} (f : B → A → B) (I : list A → B → Prop)
    (l : list A) (b : B) :
  I [] b →
  (∀ pre x b, I pre b → x ∈ l → I (pre ++ [x])%list (f b x)) →
  I l (foldl f b l).
Proof.
  intros Hb Hstep.
  assert (∀ pre rest b, I pre b → (∀ x, x ∈ rest → x ∈ l) →
            I (pre ++ rest)%list (foldl f b rest)) as Hgen.
  { intros pre rest. revert pre.
    induction rest as [|x rest IH]; intros pre b' Hb' Hsub; simpl.
    - by rewrite app_nil_r.
    - rewrite (cons_middle x pre rest), app_assoc.
      apply IH; [|intros y Hy; apply Hsub; by right].
      apply Hstep; [done|]. apply Hsub. by left. }
  apply (Hgen [] l b Hb). auto.
Qed.

Lemma outcome_impl {B} (T S : Prop) (Q Q' : B → Prop) (r : result B) :
  (∀ b, Q b → Q' b) → outcome T S Q r → outcome T S Q' r.
Proof. intros HQ. destruct r; simpl; auto. Qed.

(** A loop whose body keeps [I], indexed by the elements already handled,
    ends in a state that satisfies [I] for the whole list. *)
Lemma foldM_outcome {A B} (f : B → A → result B) (T S : Prop)
    (I : list A → B → Prop) (l : list A) (b : B) :
  I [] b →
  (∀ pre x b, I pre b → x ∈ l → outcome T S (I (pre ++ [x])%list) (f b x)) →
  outcome T S (I l) (foldM f l b).
Proof.
  intros Hb Hstep.
  assert (∀ pre rest b, I pre b → (∀ x, x ∈ rest → x ∈ l) →
            outcome T S (I (pre ++ rest)%list) (foldM f rest b)) as Hgen.
  { intros pre rest. revert pre.
    induction rest as [|x rest IH]; intros pre b' Hb' Hsub; simpl.
    - by rewrite app_nil_r.
    - pose proof (Hstep pre x b' Hb' (Hsub x ltac:(by left))) as Hx.
      destruct (f b' x) as [b''| |]; simpl in *; [|done..].
      rewrite (cons_middle x pre rest), app_assoc.
      apply IH; [done|]. intros y Hy. apply Hsub. by right. }
  apply (Hgen [] l b Hb). auto.
Qed.

Lemma bind_Ok_inv {A B} (m : result A) (k : A → result B) (b : B) :
  m ≫= k = Ok b → ∃ a, m = Ok a ∧ k a = Ok b.
Proof. destruct m; simpl; [by eauto|done..]. Qed.

(** A loop that returns leaves a state that satisfies the invariant [I],
    indexed by the elements handled. *)
Lemma foldM_Ok_inv {A B} (f : B → A → result B) (I : list A → B → Prop)
    (l : list A) (b b' : B) :
  I [] b →
  (∀ pre x b b1, I pre b → x ∈ l → f b x = Ok b1 → I (pre ++ [x])%list b1) →
  foldM f l b = Ok b' → I l b'.
Proof.
  intros Hb Hstep Hrun.
  pose proof (foldM_outcome f True True I l b Hb) as Hout.
  rewrite Hrun in Hout. apply Hout.
  intros pre x b0 Hpre Hx. destruct (f b0 x) as [b1| |] eqn:Hf; simpl; [|done..].
  by eapply Hstep.
Qed.

Lemma foldM_app {A B} (f : B → A → result B) (l1 l2 : list A) (b : B) :
  foldM f (l1 ++ l2) b = (foldM f l1 b ≫= foldM f l2).
Proof.
  revert b. induction l1 as [|x l1 IH]; intros b; simpl; [done|].
  destruct (f b x) as [b'| |]; simpl; [apply IH|done..].
Qed.

(** ** Command-line analysis *)

Section ExtractFacts.

Variable cwd : string.

Implicit Types (s : Scan) (arg dir src : string) (args : list string).

Lemma lookup_keyed_map (f : string → string) (X : gset string) src out :
  (set_to_map (λ x, (x, f x)) X : gmap string string) !! src = Some out
  ↔ src ∈ X ∧ out = f src.
Proof.
  rewrite lookup_set_to_map; [|by intros ?? _ _ ?].
  split; [intros (y & ? & [= -> ->]); done | intros [? ->]; eauto].
Qed.

Lemma dom_keyed_map (f : string → string) (X : gset string) :
  dom (set_to_map (λ x, (x, f x)) X : gmap string string) = X.
Proof.
  apply set_eq. intros src. rewrite elem_of_dom. split.
  - intros [out Hout]. by apply lookup_keyed_map in Hout as [? _].
  - intros Hin. exists (f src). by apply lookup_keyed_map.
Qed.

(** The keys of the result are the collected sources, in both branches. *)
Lemma dom_extractInputOutputs command_ :
  dom (extractInputOutputs cwd command_)
  = sources (scan_args cwd (Directory command_) (CommandLine command_)).
Proof.
  unfold extractInputOutputs. cbv zeta.
  destruct (_ && _); apply dom_keyed_map.
Qed.

Lemma scan_arg_sources dir s arg :
  sources s ⊆ sources (scan_arg cwd dir s arg).
Proof.
  unfold scan_arg. destruct (state s); simpl; [|done].
  repeat case_match; simpl; set_solver.
Qed.

Lemma foldl_scan_sources dir args s :
  sources s ⊆ sources (foldl (scan_arg cwd dir) s args).
Proof.
  revert s. induction args as [|a args IH]; intros s; simpl; [done|].
  etrans; [apply scan_arg_sources | apply IH].
Qed.

(** The loop waits for an output only right after it has read [-o]. *)
Lemma scan_arg_OParam dir s arg :
  state (scan_arg cwd dir s arg) = OParam → arg = "-o".
Proof.
  unfold scan_arg. destruct (state s) eqn:Hs; simpl; [|done].
  repeat case_match; simpl; try done; try congruence.
  intros _. by apply String.eqb_eq.
Qed.

Lemma foldl_scan_state dir args s :
  state s = StNone → last args ≠ Some "-o" →
  state (foldl (scan_arg cwd dir) s args) = StNone.
Proof.
  intros Hs Hlast.
  destruct args as [|a args _] using rev_ind; [done|].
  rewrite foldl_snoc. rewrite last_snoc in Hlast.
  destruct (state (scan_arg _ _ _ a)) eqn:E; [done|].
  apply scan_arg_OParam in E. congruence.
Qed.

Lemma scan_arg_source dir s arg :
  state s = StNone → isSourceFile arg = true → isNonSourceFlag arg = false →
  Fs.absolute cwd arg dir ∈ sources (scan_arg cwd dir s arg).
Proof.
  intros Hs Hsrc Hflag. unfold scan_arg. rewrite Hs, Hsrc, Hflag. simpl.
  set_solver.
Qed.

End ExtractFacts.

Lemma lower_cppExts e : e ∈ cppExts → Str.lower e = e.
Proof.
  unfold cppExts. rewrite !elem_of_cons, elem_of_nil.
  intros [->|[->|[->|[->|[->|[->|[->|[]]]]]]]]; reflexivity.
Qed.

(** Recognition looks at the lower-cased extension only. *)
Lemma isSourceFile_upto_case file_ e :
  e ∈ cppExts → Str.lower (Fs.extension file_) = Str.lower e →
  isSourceFile file_ = true.
Proof.
  intros He Heq. unfold isSourceFile. cbv zeta.
  rewrite Heq, (lower_cppExts e He). by apply bool_decide_eq_true.
Qed.

(** *** The output derived under [-c] *)

Lemma append_cons (a : ascii) (y s : string) :
  String a y ++ s = String a (y ++ s).
Proof. reflexivity. Qed.

Lemma string_length_app (a b : string) :
  String.length (a ++ b) = (String.length a + String.length b)%nat.
Proof. induction a as [|c a IH]; simpl; [done|]. by rewrite IH. Qed.

Lemma string_app_assoc (a b c : string) : (a ++ b) ++ c = a ++ (b ++ c).
Proof.
  induction a as [|d a IH]; [done|]. by rewrite !append_cons, IH.
Qed.

Lemma substring_prefix (a b : string) :
  String.substring 0 (String.length a) (a ++ b) = a.
Proof.
  induction a as [|c a IH]; simpl; [by destruct b|]. by rewrite IH.
Qed.

Lemma from_last_absent (c : ascii) (e : string) :
  Str.has c e = false → Str.from_last c e = None.
Proof.
  induction e as [|d e IH]; simpl; [done|].
  destruct (Ascii.eqb c d); [done|]. intros He. by rewrite IH.
Qed.

(** The last [c] of [x ++ c :: e] is the one shown when [e] has none. *)
Lemma from_last_app (c : ascii) (x e : string) :
  Str.has c e = false →
  Str.from_last c (x ++ String c e) = Some (String c e).
Proof.
  intros He. induction x as [|a x IH]; simpl.
  - by rewrite from_last_absent, Ascii.eqb_refl.
  - by rewrite IH.
Qed.

Lemma after_last_cons (c d : ascii) (r : string) :
  Str.after_last c (String d r)
  = if Str.has c r then Str.after_last c r
    else if Ascii.eqb c d then r else String d r.
Proof. reflexivity. Qed.

(** The file name of a path that ends in [.e], with no separator in [e],
    ends in [.e]. *)
Lemma filename_suffix (y e : string) :
  Str.has Fs.slash e = false →
  ∃ x, Fs.filename (y ++ String Fs.dot e) = x ++ String Fs.dot e.
Proof.
  intros He. unfold Fs.filename. induction y as [|a y IH].
  - change ("" ++ String Fs.dot e) with (String Fs.dot e).
    rewrite after_last_cons, He. by exists "".
  - rewrite append_cons, after_last_cons.
    destruct (Str.has Fs.slash (y ++ String Fs.dot e)); [done|].
    destruct (Ascii.eqb Fs.slash a); [by exists y|by exists (String a y)].
Qed.

(** For a path that ends in a dot and a non-empty [e] without dot or
    separator, the extension is the dot and [e]. *)
Lemma extension_suffix (y e : string) :
  e ≠ "" → Str.has Fs.dot e = false → Str.has Fs.slash e = false →
  Fs.extension (y ++ String Fs.dot e) = String Fs.dot e.
Proof.
  intros Hne Hdot Hslash. unfold Fs.extension. cbv zeta.
  destruct (filename_suffix y e Hslash) as [x ->].
  assert (String.eqb (x ++ String Fs.dot e) "." = false) as ->.
  { apply String.eqb_neq. intros Heq.
    destruct x as [|a x]; cbv [String.append] in Heq; [congruence|].
    destruct x; discriminate. }
  assert (String.eqb (x ++ String Fs.dot e) ".." = false) as ->.
  { apply String.eqb_neq. intros Heq.
    destruct x as [|a [|b x]]; cbv [String.append] in Heq.
    - injection Heq as ->. discriminate Hdot.
    - destruct e; [done|discriminate].
    - destruct x; discriminate. }
  simpl. by rewrite from_last_app.
Qed.

(** Under [-c] without [-o], a source [stem ++ c :: "." ++ e] gets the
    output [stem ++ ".o"]: the extension goes and so does [c], the last
    character of the stem. *)
Lemma derived_output_drops_char (stem : string) (c : ascii) (e : string) :
  e ≠ "" → Str.has Fs.dot e = false → Str.has Fs.slash e = false →
  (Z.of_nat (String.length (stem ++ String c (String Fs.dot e))) < 2 ^ 64)%Z →
  derived_output (stem ++ String c (String Fs.dot e)) = stem ++ ".o".
Proof.
  intros Hne Hdot Hslash Hlen. unfold derived_output. cbv zeta.
  assert (Fs.extension (stem ++ String c (String Fs.dot e))
          = String Fs.dot e) as ->.
  { transitivity (Fs.extension ((stem ++ String c "") ++ String Fs.dot e));
      [by rewrite string_app_assoc | by apply extension_suffix]. }
  rewrite string_length_app in Hlen |- *. simpl String.length in *.
  unfold Str.substr0. cbv zeta.
  replace (Z.of_nat (String.length stem + S (S (String.length e)))
           - Z.of_nat (S (String.length e)) - 1)%Z
    with (Z.of_nat (String.length stem)) by lia.
  rewrite Z.mod_small by lia.
  rewrite string_length_app. simpl String.length.
  destruct (Z.leb_spec
              (Z.of_nat (String.length stem + S (S (String.length e))))
              (Z.of_nat (String.length stem))) as [Hle|_]; [lia|].
  by rewrite Nat2Z.id, substring_prefix.
Qed.

(** C5, evaluated on the command of the claim: with [-c] and no [-o], the
    output derived for [/d/a.cpp] is [/d/.o], not [/d/a.o]: the count given
    to [substr] also drops the character before the extension's dot. *)
Theorem extractInputOutputs_c_without_o :
  extractInputOutputs "/"
    {| Directory := "/d"; Filename := "a.cpp";
       CommandLine := ["gcc"; "-c"; "a.cpp"] |}
  = {[ "/d/a.cpp" := "/d/.o" ]}.
Proof. vm_compute. reflexivity. Qed.

(** C10, the claim as stated fails: [-Wl,LIB.A] and [MAIN.O] have
    extensions that are recognised up to letter case, yet neither becomes an
    input; the first is a linker flag, the second follows [-o]. *)
Lemma recognised_extension_not_input :
  let command_ := {| Directory := "/d"; Filename := "a.cpp";
                     CommandLine := ["gcc"; "-Wl,LIB.A"; "-o"; "MAIN.O";
                                     "a.cpp"] |} in
  Str.lower (Fs.extension "-Wl,LIB.A") = ".a"
  ∧ Str.lower (Fs.extension "MAIN.O") = ".o"
  ∧ (Fs.absolute "/" "-Wl,LIB.A" "/d" ∉ dom (extractInputOutputs "/" command_))
  ∧ (Fs.absolute "/" "MAIN.O" "/d" ∉ dom (extractInputOutputs "/" command_))
  ∧ extractInputOutputs "/" command_ = {[ "/d/a.cpp" := "/d/MAIN.O" ]}.
Proof.
  cbv zeta.
  assert (extractInputOutputs "/"
            {| Directory := "/d"; Filename := "a.cpp";
               CommandLine := ["gcc"; "-Wl,LIB.A"; "-o"; "MAIN.O"; "a.cpp"] |}
          = {[ "/d/a.cpp" := "/d/MAIN.O" ]}) as ->
    by (vm_compute; reflexivity).
  rewrite dom_singleton_L, !elem_of_singleton.
  repeat split; try reflexivity; vm_compute; discriminate.
Qed.

(** C10, amended: an argument that does not directly follow [-o] and does
    not begin with [-Wl,], and whose extension equals one of [.c .cc .cpp
    .cxx .o .so .a] up to ASCII letter case, is an input: its absolute path
    is a key of the result. *)
Theorem extension_case_insensitive cwd command_ pre arg post e :
  CommandLine command_ = (pre ++ arg :: post)%list →
  last pre ≠ Some "-o" →
  isNonSourceFlag arg = false →
  e ∈ cppExts →
  Str.lower (Fs.extension arg) = Str.lower e →
  Fs.absolute cwd arg (Directory command_)
    ∈ dom (extractInputOutputs cwd command_).
Proof.
  intros Hcmd Hpre Hflag He Hext.
  rewrite dom_extractInputOutputs. unfold scan_args.
  rewrite Hcmd, foldl_app. simpl.
  apply foldl_scan_sources, scan_arg_source; [|by eapply isSourceFile_upto_case|done].
  by apply foldl_scan_state.
Qed.

Lemma extension_case_insensitive_witness :
  Fs.absolute "/" "A.CPP" "/d"
    ∈ dom (extractInputOutputs "/"
             {| Directory := "/d"; Filename := "A.CPP";
                CommandLine := ["gcc"; "-c"; "A.CPP"; "lib.SO"] |}).
Proof.
  apply (extension_case_insensitive "/"
           {| Directory := "/d"; Filename := "A.CPP";
              CommandLine := ["gcc"; "-c"; "A.CPP"; "lib.SO"] |}
           ["gcc"; "-c"] "A.CPP" ["lib.SO"] ".cpp").
  - reflexivity.
  - simpl. discriminate.
  - reflexivity.
  - unfold cppExts. rewrite !elem_of_cons. auto.
  - reflexivity.
Defined.

(** ** The orchestrator *)

Section SubmitFacts.

Variable fnvHash : string → N.

Local Abbreviation submit' := (submit fnvHash).
Local Abbreviation initBuildActions' := (initBuildActions fnvHash).
Local Abbreviation line_hash' := (line_hash fnvHash).

(** *** Seeding and submission *)

Lemma initBuildActions_hashes p ba :
  ba ∈ buildActions (db p) →
  fnvHash (command ba) ∈ _parsedCommandHashes (initBuildActions' p).
Proof.
  unfold initBuildActions. simpl.
  generalize (_parsedCommandHashes p).
  induction (buildActions (db p)) as [|b bs IH]; intros hs Hin; simpl.
  - by apply elem_of_nil in Hin.
  - apply elem_of_cons in Hin as [->|Hin]; [|by apply IH].
    clear IH. assert (fnvHash (command b) ∈ {[fnvHash (command b)]} ∪ hs)
      as Hb by set_solver.
    revert Hb. generalize ({[fnvHash (command b)]} ∪ hs).
    induction bs as [|b' bs IH]; intros hs' Hb; simpl; [done|].
    apply IH. set_solver.
Qed.

(** [initBuildActions] adds the hashes of the stored commands, and
    nothing else. *)
Lemma initBuildActions_exact p :
  _parsedCommandHashes (initBuildActions fnvHash p)
  = _parsedCommandHashes p
    ∪ list_to_set (fnvHash <$> (command <$> buildActions (db p))).
Proof.
  unfold initBuildActions. simpl.
  generalize (_parsedCommandHashes p).
  induction (buildActions (db p)) as [|b bs IH]; intros hs; simpl.
  - set_solver.
  - rewrite IH. set_solver.
Qed.

(** The submission loop over the commands [cs], started with the index
    [i0], the hash set [H0] and the jobs [J0]: the hashes of all commands
    are added; the jobs pushed have pairwise distinct hashes, which are the
    hashes of [cs] that [H0] lacks; each job carries the command at
    position [k] with the index [i0 + k + 1], no command before it has its
    hash; and the jobs are pushed by increasing index. *)
Lemma foldl_submit_spec (i0 : nat) (H0 : gset N) (J0 : list ParseJob)
    (cs : list CompileCommand) :
  let s := foldl submit' {| sub_index := i0; sub_hashes := H0;
                            sub_jobs := J0 |} cs in
  sub_hashes s = H0 ∪ list_to_set (line_hash' <$> cs)
  ∧ ∃ new, sub_jobs s = (J0 ++ new)%list
      ∧ NoDup (line_hash' <$> (job_command <$> new))
      ∧ (∀ h, h ∈ line_hash' <$> (job_command <$> new)
              ↔ h ∈ line_hash' <$> cs ∧ h ∉ H0)
      ∧ (∀ job, job ∈ new →
           ∃ k, cs !! k = Some (job_command job)
                ∧ job_index job = S (i0 + k)
                ∧ ∀ j c', (j < k)%nat → cs !! j = Some c' →
                    line_hash' c' ≠ line_hash' (job_command job))
      ∧ StronglySorted lt (job_index <$> new).
Proof.
  cbv zeta.
  pose proof (foldl_inv submit'
    (λ pre s,
       sub_index s = (i0 + length pre)%nat
       ∧ sub_hashes s = H0 ∪ list_to_set (line_hash' <$> pre)
       ∧ ∃ new, sub_jobs s = (J0 ++ new)%list
           ∧ NoDup (line_hash' <$> (job_command <$> new))
           ∧ (∀ h, h ∈ line_hash' <$> (job_command <$> new)
                   ↔ h ∈ line_hash' <$> pre ∧ h ∉ H0)
           ∧ (∀ job, job ∈ new →
                ∃ k, pre !! k = Some (job_command job)
                     ∧ job_index job = S (i0 + k)
                     ∧ ∀ j c', (j < k)%nat → pre !! j = Some c' →
                         line_hash' c' ≠ line_hash' (job_command job))
           ∧ StronglySorted lt (job_index <$> new))
    cs {| sub_index := i0; sub_hashes := H0; sub_jobs := J0 |}) as Hinv.
  destruct Hinv as (_ & Hh & Hnew); [| |by split].
  - simpl. split; [lia|]. split; [set_solver|].
    exists []. rewrite app_nil_r. split_and!; [done|apply NoDup_nil_2| | |].
    + intros h. simpl. rewrite elem_of_nil. naive_solver.
    + by intros job ?%elem_of_nil.
    + constructor.
  - intros pre c s (Hidx & Hh & new & Hjobs & Hnd & Hiff & Hpos & Hsort) _.
    assert (∀ c', c' ∈ pre → line_hash' c' ∈ sub_hashes s) as Hseen.
    { intros c' Hc'. rewrite Hh. apply elem_of_union_r, elem_of_list_to_set.
      by apply list_elem_of_fmap_2. }
    assert (∀ job, job ∈ new →
              ∃ k, (pre ++ [c])%list !! k = Some (job_command job)
                   ∧ job_index job = S (i0 + k)
                   ∧ ∀ j c', (j < k)%nat → (pre ++ [c])%list !! j = Some c' →
                       line_hash' c' ≠ line_hash' (job_command job)) as Hpos'.
    { intros job (k & Hk & Hi & Hmin)%Hpos. exists k.
      pose proof (lookup_lt_Some _ _ _ Hk) as Hlt.
      split_and!; [by apply lookup_app_l_Some|done|].
      intros j c' Hj Hc'. rewrite lookup_app_l in Hc' by lia. eauto. }
    unfold submit. cbv zeta. fold (line_hash' c).
    rewrite length_app, fmap_app, list_to_set_app_L. simpl.
    case_bool_decide as Hc; simpl.
    + split; [lia|]. split; [set_solver|].
      exists new. split_and!; [done..| |done|done].
      intros h. rewrite elem_of_app, list_elem_of_singleton, Hiff.
      split; [naive_solver|]. intros [[Hpre| ->] Hno]; [done|].
      split; [|done]. rewrite Hh in Hc. set_solver.
    + split; [lia|]. split; [set_solver|].
      exists (new ++ [{| job_command := c; job_index := S (sub_index s) |}])%list.
      rewrite !fmap_app. simpl. split_and!.
      * by rewrite Hjobs, app_assoc.
      * apply NoDup_app. split_and!; [done| |apply NoDup_singleton].
        intros h [Hpre _]%Hiff ->%list_elem_of_singleton. apply Hc.
        rewrite Hh. set_solver.
      * intros h. rewrite !elem_of_app, !list_elem_of_singleton, Hiff.
        split; [|naive_solver].
        intros [?| ->]; [naive_solver|]. split; [by right|].
        intros Hin. apply Hc. rewrite Hh. set_solver.
      * intros job [Hin| ->%list_elem_of_singleton]%elem_of_app; [auto|].
        exists (length pre). simpl. split_and!.
        -- by apply list_lookup_middle.
        -- by rewrite Hidx.
        -- intros j c' Hj Hc'. rewrite lookup_app_l in Hc' by done.
           intros Heq. apply Hc. rewrite <-Heq. apply Hseen.
           by eapply list_elem_of_lookup_2.
      * apply StronglySorted_app_2; [|done|repeat constructor].
        intros i1 i2 (job & -> & Hjob)%list_elem_of_fmap
          ->%list_elem_of_singleton.
        destruct (Hpos job Hjob) as (k & Hk & -> & _).
        apply lookup_lt_Some in Hk. lia.
Qed.

End SubmitFacts.

Section InputFacts.

Variable cwd : string.
Variable loadFromCommandLine : list string → bool.
Variable tool_run : CompileCommand → Db → Z * Db.
Variable fnvHash : string → N.
Variable is_regular_file : string → bool.
Variable loadFromFile : string → option (list CompileCommand).

Local Abbreviation worker' := (worker cwd loadFromCommandLine tool_run).
Local Abbreviation run_jobs' := (run_jobs cwd loadFromCommandLine tool_run).
Local Abbreviation parseByJson' :=
  (parseByJson cwd loadFromCommandLine tool_run fnvHash loadFromFile).
Local Abbreviation parseInput' :=
  (parseInput cwd loadFromCommandLine tool_run fnvHash is_regular_file
     loadFromFile).
Local Abbreviation line_hash' := (line_hash fnvHash).
Local Abbreviation inputs_spec' :=
  (inputs_spec fnvHash is_regular_file loadFromFile).

(** *** The workers *)

(** A worker returns exactly on a command line that is not empty. *)
Lemma worker_outcome command_ d :
  outcome (CommandLine command_ = []) False (λ _, CommandLine command_ ≠ [])
    (worker' command_ d).
Proof.
  unfold worker.
  destruct (CommandLine command_) as [|compiler arguments]; [done|].
  cbv zeta. destruct (negb _); [done|].
  destruct (addBuildAction command_ d) as [ba d1].
  by destruct (tool_run command_ d1).
Qed.

(** The pool returns exactly when no job has an empty command line. *)
Lemma run_jobs_outcome jobs d :
  outcome (∃ job, job ∈ jobs ∧ CommandLine (job_command job) = []) False
    (λ _, ∀ job, job ∈ jobs → CommandLine (job_command job) ≠ [])
    (run_jobs' jobs d).
Proof.
  unfold run_jobs.
  apply (foldM_outcome _ _ False
           (λ pre _, ∀ job, job ∈ pre → CommandLine (job_command job) ≠ [])).
  - by intros job ?%elem_of_nil.
  - intros pre job b Hpre Hjob.
    pose proof (worker_outcome (job_command job) b) as Hw.
    destruct (worker' (job_command job) b) as [r| |]; simpl in Hw |- *;
      [|by eauto|done].
    intros job' [?| ->%list_elem_of_singleton]%elem_of_app; auto.
Qed.

Lemma run_jobs_nil d : run_jobs' [] d = Ok d.
Proof. done. Qed.

(** *** One compilation database *)

Lemma parseByJson_None input p :
  loadFromFile input = None →
  parseByJson' input p
  = Ok (false,
        {| db := db p; _parsedCommandHashes := _parsedCommandHashes p;
           _fileStatus := _fileStatus p; loaded := loaded p ++ [input];
           enqueued := enqueued p |}).
Proof. intros Hload. unfold parseByJson. by rewrite Hload. Qed.

(** What [parseByJson] does with a database that loads: it ends abnormally
    only if a command that it dispatches has an empty command line. *)
Lemma parseByJson_Some input p cs :
  loadFromFile input = Some cs →
  outcome
    (∃ c, c ∈ cs ∧ line_hash' c ∉ _parsedCommandHashes p
          ∧ CommandLine c = [])
    False
    (λ r, r.1 = true
       ∧ loaded r.2 = (loaded p ++ [input])%list
       ∧ _fileStatus r.2 = _fileStatus p
       ∧ ∃ new,
           enqueued r.2 = (enqueued p ++ new)%list
           ∧ _parsedCommandHashes r.2
             = _parsedCommandHashes p ∪ list_to_set (line_hash' <$> cs)
           ∧ NoDup (line_hash' <$> (job_command <$> new))
           ∧ (∀ h, h ∈ line_hash' <$> (job_command <$> new)
                   ↔ h ∈ line_hash' <$> cs ∧ h ∉ _parsedCommandHashes p)
           ∧ (∀ job, job ∈ new →
                ∃ k, cs !! k = Some (job_command job) ∧ job_index job = S k
                     ∧ ∀ j c', (j < k)%nat → cs !! j = Some c' →
                         line_hash' c' ≠ line_hash' (job_command job))
           ∧ StronglySorted lt (job_index <$> new)
           ∧ run_jobs' new (db p) = Ok (db r.2))
    (parseByJson' input p).
Proof.
  intros Hload. unfold parseByJson. rewrite Hload. cbv zeta.
  destruct (foldl_submit_spec fnvHash 0 (_parsedCommandHashes p) [] cs)
    as (Hh & new & Hjobs & Hnd & Hiff & Hpos & Hsort).
  rewrite Hjobs, Hh. cbn [app].
  pose proof (run_jobs_outcome new (db p)) as Hrun.
  destruct (run_jobs' new (db p)) as [d'| |] eqn:Hd; simpl in Hrun |- *;
    [| |done].
  - split_and!; [done..|]. exists new. by split_and!.
  - destruct Hrun as (job & Hjob & Hempty).
    destruct (Hpos job Hjob) as (k & Hk & _).
    exists (job_command job). split_and!; [|by apply Hiff;
      do 2 apply list_elem_of_fmap_2|done].
    by eapply list_elem_of_lookup_2.
Qed.

(** *** The loop over the inputs *)

(** Once [success] is false, [success && parseByJson(...)] no longer
    calls [parseByJson]. *)
Lemma parseInput_false p input :
  parseInput' (false, p) input = Ok (false, p).
Proof. unfold parseInput. by destruct (is_regular_file input). Qed.

Lemma foldM_parseInput_false p inputs :
  foldM parseInput' inputs (false, p) = Ok (false, p).
Proof.
  induction inputs as [|i inputs IH]; [done|].
  cbn [foldM]. by rewrite parseInput_false.
Qed.

(** The loop ends abnormally only if a command that it dispatches has an
    empty command line; when it returns, [inputs_spec] holds. *)
Lemma foldM_parseInput_spec p0 inputs :
  outcome
    (∃ i cs c, i ∈ inputs ∧ is_regular_file i = true
               ∧ loadFromFile i = Some cs ∧ c ∈ cs
               ∧ line_hash' c ∉ _parsedCommandHashes p0
               ∧ CommandLine c = [])
    False (inputs_spec' p0 inputs) (foldM parseInput' inputs (true, p0)).
Proof.
  apply (foldM_outcome parseInput' _ False (inputs_spec' p0)).
  - split_and!; [|by rewrite app_nil_r|done|].
    + split; [|done]. by intros _ i ?%elem_of_nil.
    + exists []. rewrite app_nil_r.
      split_and!; [done|apply NoDup_nil_2| | | |done|].
      * intros h. simpl. rewrite elem_of_nil. naive_solver.
      * by intros job ?%elem_of_nil.
      * by intros _ i cs c ?%elem_of_nil.
      * by intros job ?%elem_of_nil.
  - intros pre input [success q]
      (Hok & Hloaded & Hst & new & Henq & Hnd & Hh & Hfresh & Hall & Hdb
       & Hfrom) Hinput.
    cbn [fst snd] in Hok, Hloaded, Hst, Henq, Hh, Hall, Hdb.
    unfold parseInput.
    assert (∀ job, job ∈ new →
              ∃ i cs, i ∈ (pre ++ [input])%list ∧ is_regular_file i = true
                      ∧ loadFromFile i = Some cs ∧ job_command job ∈ cs)
      as Hfrom'.
    { intros job (i & cs & Hi & ?)%Hfrom. exists i, cs.
      split; [|done]. apply elem_of_app. by left. }
    destruct (is_regular_file input) eqn:Hreg.
    2: { simpl. unfold inputs_spec. cbn [fst snd].
         rewrite filter_app, filter_cons_False, filter_nil, app_nil_r
           by (rewrite Hreg; done).
         split_and!; [|done|done|].
         - rewrite Hok. split.
           + intros H i [?| ->%list_elem_of_singleton]%elem_of_app; [auto|].
             congruence.
           + intros H i Hi. apply H, elem_of_app. by left.
         - exists new. split_and!; [done..| |done|done].
           intros Hs i cs c [?| ->%list_elem_of_singleton]%elem_of_app;
             [by eauto|congruence]. }
    destruct success.
    2: { simpl. unfold inputs_spec. cbn [fst snd]. split_and!; [|done|done|].
         - split; [done|]. intros H. apply Hok. intros i Hi.
           apply H, elem_of_app. by left.
         - exists new. by split_and!. }
    destruct (loadFromFile input) as [cs|] eqn:Hload.
    + pose proof (parseByJson_Some input q cs Hload) as Hstep.
      destruct (parseByJson' input q) as [[success q']| |];
        simpl in Hstep |- *; [| |done].
      * destruct Hstep as (-> & Hl & Hs & new' & Henq' & Hh' & Hnd' & Hiff'
                           & Hpos' & _ & Hrun').
        unfold inputs_spec. cbn [fst snd].
        rewrite filter_app, filter_cons_True, filter_nil by done.
        split_and!.
        -- split; [|done]. intros _ i
             [Hi| ->%list_elem_of_singleton]%elem_of_app Hr.
           ++ by apply (proj1 Hok eq_refl).
           ++ by rewrite Hload.
        -- intros _. by rewrite Hl, Hloaded, app_assoc.
        -- congruence.
        -- exists (new ++ new')%list. rewrite !fmap_app. split_and!.
           ++ by rewrite Henq', Henq, app_assoc.
           ++ apply NoDup_app. split_and!; [done| |done].
              intros h Hin [_ Hno]%Hiff'. apply Hno, Hh. by right.
           ++ intros h. rewrite Hh', elem_of_union, Hh, elem_of_list_to_set,
                elem_of_app, Hiff'.
              destruct (decide (h ∈ _parsedCommandHashes q)) as [Hq|Hq].
              ** apply Hh in Hq. naive_solver.
              ** split; [|naive_solver].
                 intros [?|?]; [naive_solver|]. right. right. done.
           ++ intros job [Hin|Hin]%elem_of_app; [auto|].
              assert (line_hash' (job_command job)
                      ∈ line_hash' <$> (job_command <$> new'))
                as [_ Hno]%Hiff'
                by by do 2 apply list_elem_of_fmap_2.
              intros Hold. apply Hno, Hh. by left.
           ++ intros _ i cs' c [Hi| ->%list_elem_of_singleton]%elem_of_app
                Hreg' Hload' Hc; rewrite Hh', elem_of_union.
              ** left. by eapply Hall.
              ** right. apply elem_of_list_to_set.
                 assert (cs' = cs) as -> by congruence.
                 by apply list_elem_of_fmap_2.
           ++ intros [-> ->]%app_eq_nil. rewrite run_jobs_nil in Hrun'.
              injection Hrun' as <-. by apply Hdb.
           ++ intros job [Hin|Hin]%elem_of_app; [auto|].
              destruct (Hpos' job Hin) as (k & Hk & _).
              exists input, cs. split_and!; [|done|done|].
              ** apply elem_of_app. right. by left.
              ** by eapply list_elem_of_lookup_2.
      * destruct Hstep as (c & Hc & Hnew & Hempty).
        exists input, cs, c. split_and!; [done..| |done].
        intros Hold. apply Hnew, Hh. by left.
    + rewrite parseByJson_None by done. simpl.
      unfold inputs_spec. cbn [fst snd].
      rewrite filter_app, filter_cons_True, filter_nil by done.
      split_and!.
      * split; [done|]. intros H.
        destruct (H input) as [cs Hcs]; [|done|congruence].
        apply elem_of_app. right. by left.
      * done.
      * done.
      * exists new. by split_and!.
Qed.

End InputFacts.

Section ParseFacts.

Variable cwd : string.
Variable fs_exists : string → bool.
Variable fs_read : string → option string.
Variable sha1Hash : string → string.
Variable edge_cascade : bool.
Variable store_error : string → bool.
Variable loadFromCommandLine : list string → bool.
Variable tool_run : CompileCommand → Db → Z * Db.
Variable fnvHash : string → N.
Variable is_regular_file : string → bool.
Variable loadFromFile : string → option (list CompileCommand).

Local Abbreviation parseInput' :=
  (parseInput cwd loadFromCommandLine tool_run fnvHash is_regular_file
     loadFromFile).
Local Abbreviation invalidate' :=
  (invalidate fs_exists fs_read sha1Hash edge_cascade store_error).
Local Abbreviation parse' :=
  (parse cwd fs_exists fs_read sha1Hash edge_cascade store_error
     loadFromCommandLine tool_run fnvHash is_regular_file loadFromFile).
Local Abbreviation inputs_spec' :=
  (inputs_spec fnvHash is_regular_file loadFromFile).

(** The invalidation pass writes to the store and to [_fileStatus]. *)
Lemma invalidate_keeps incremental p p1 :
  invalidate' incremental p = Ok p1 →
  enqueued p1 = enqueued p ∧ loaded p1 = loaded p
  ∧ _parsedCommandHashes p1 = _parsedCommandHashes p.
Proof.
  unfold invalidate. destruct incremental; [|by intros [= <-]].
  destruct (incrementalParse _ _ _ _ _ _ _) as [[st| |] d]; [|done..].
  by intros [= <-].
Qed.

Lemma parse_unfold incremental inputs p p1 :
  invalidate' incremental p = Ok p1 →
  parse' incremental inputs p
  = (foldM parseInput' inputs (true, initBuildActions fnvHash p1)
     ≫= λ r, Ok (r.1, clear_hashes r.2)).
Proof. intros Hinv. unfold parse. by rewrite Hinv. Qed.

(** [parse] after an invalidation pass that has completed: it ends
    abnormally only if a command that it dispatches has an empty command
    line; when it returns, [inputs_spec] holds of the state before
    [_parsedCommandHashes] is cleared. *)
Lemma parse_spec incremental inputs p p1 :
  invalidate' incremental p = Ok p1 →
  outcome
    (∃ i cs c, i ∈ inputs ∧ is_regular_file i = true
               ∧ loadFromFile i = Some cs ∧ c ∈ cs
               ∧ line_hash fnvHash c
                 ∉ _parsedCommandHashes (initBuildActions fnvHash p1)
               ∧ CommandLine c = [])
    False
    (λ r, ∃ q, r = (q.1, clear_hashes q.2)
               ∧ inputs_spec' (initBuildActions fnvHash p1) inputs q)
    (parse' incremental inputs p).
Proof.
  intros Hinv. rewrite (parse_unfold _ _ _ _ Hinv).
  pose proof (foldM_parseInput_spec cwd loadFromCommandLine tool_run fnvHash
                is_regular_file loadFromFile (initBuildActions fnvHash p1)
                inputs) as Hspec.
  destruct (foldM _ _ _) as [q| |]; simpl in Hspec |- *; [|done..].
  by exists q.
Qed.

(** [parse] returns when the invalidation pass has completed and the
    commands of the databases have a compiler name. *)
Lemma parse_returns incremental inputs p p1 :
  invalidate' incremental p = Ok p1 →
  (∀ i cs c, i ∈ inputs → is_regular_file i = true →
             loadFromFile i = Some cs → c ∈ cs → CommandLine c ≠ []) →
  ∃ q, parse' incremental inputs p = Ok (q.1, clear_hashes q.2)
       ∧ inputs_spec' (initBuildActions fnvHash p1) inputs q.
Proof.
  intros Hinv Hcmd. pose proof (parse_spec incremental inputs p p1 Hinv) as H.
  destruct (parse' incremental inputs p) as [r| |]; cbn [outcome] in H.
  - destruct H as (q & -> & Hq). by exists q.
  - destruct H as (i & cs & c & Hi & Hr & Hcs & Hc & _ & Hempty).
    by destruct (Hcmd i cs c).
  - done.
Qed.

(** C8, amended: if [bad] is the first input path whose compilation
    database fails to load, [parse] returns false; the input paths before it
    have been processed as in a run on them alone, which returns true; [bad]
    is recorded as an attempted load and adds no job; and no input path
    after it is processed: [parse] ends exactly as it does on the list cut
    after [bad]. (The invalidation pass, when requested, is assumed to
    complete, and the commands of the databases before [bad] to have a
    compiler name.) *)
Theorem parse_stops_at_failed_load (incremental : bool)
    (pre : list string) (bad : string) (post : list string)
    (p p1 : Parser) :
  invalidate fs_exists fs_read sha1Hash edge_cascade store_error
    incremental p = Ok p1 →
  (∀ i, i ∈ pre → is_regular_file i = true → is_Some (loadFromFile i)) →
  (∀ i cs c, i ∈ pre → is_regular_file i = true →
             loadFromFile i = Some cs → c ∈ cs → CommandLine c ≠ []) →
  is_regular_file bad = true →
  loadFromFile bad = None →
  ∃ q p',
    parse cwd fs_exists fs_read sha1Hash edge_cascade store_error
      loadFromCommandLine tool_run fnvHash is_regular_file loadFromFile
      incremental pre p = Ok (true, q)
    ∧ parse cwd fs_exists fs_read sha1Hash edge_cascade store_error
        loadFromCommandLine tool_run fnvHash is_regular_file loadFromFile
        incremental (pre ++ bad :: post)%list p = Ok (false, p')
    ∧ parse cwd fs_exists fs_read sha1Hash edge_cascade store_error
        loadFromCommandLine tool_run fnvHash is_regular_file loadFromFile
        incremental (pre ++ [bad])%list p = Ok (false, p')
    ∧ loaded q
      = (loaded p ++ filter (λ i, is_regular_file i = true) pre)%list
    ∧ loaded p' = (loaded q ++ [bad])%list
    ∧ enqueued p' = enqueued q
    ∧ db p' = db q.
Proof.
  intros Hinv Hloads Hcmd Hreg Hload.
  rewrite !(parse_unfold _ _ _ _ Hinv).
  destruct (invalidate_keeps _ _ _ Hinv) as (_ & Hl & _).
  pose proof (foldM_parseInput_spec cwd loadFromCommandLine tool_run fnvHash
                is_regular_file loadFromFile (initBuildActions fnvHash p1)
                pre) as Hspec.
  rewrite !foldM_app.
  destruct (foldM parseInput' pre _) as [[success q]| |];
    simpl in Hspec |- *.
  - destruct Hspec as (Hok & Hloaded & _).
    cbn [fst snd] in Hok, Hloaded.
    assert (success = true) as -> by by apply Hok.
    rewrite Hreg, parseByJson_None by done. simpl.
    rewrite foldM_parseInput_false. simpl.
    eexists _, _. split_and!; [done..| |done|done|done].
    simpl. by rewrite Hloaded, <-Hl.
  - destruct Hspec as (i & cs & c & Hi & Hr & Hcs & Hc & _ & Hempty).
    by destruct (Hcmd i cs c).
  - done.
Qed.

End ParseFacts.

(** *** A run with a compilation database that does not load *)

(** C8, the claim as stated fails: [bad.json] does not load and
    [good.json], which follows it and holds one command, is then neither
    loaded nor dispatched, although on its own it is. *)
Lemma failed_load_skips_later_inputs :
  (∃ p', demo_parse ["bad.json"; "good.json"] = Ok (false, p')
         ∧ loaded p' = ["bad.json"] ∧ enqueued p' = [])
  ∧ (∃ p', demo_parse ["good.json"] = Ok (true, p')
           ∧ loaded p' = ["good.json"]
           ∧ enqueued p' = [{| job_command := demo_command;
                               job_index := 1 |}]).
Proof.
  split; eexists; (split; [vm_compute; reflexivity|]); split; reflexivity.
Qed.

Lemma parse_stops_at_failed_load_witness :
  ∃ q p',
    demo_parse ["good.json"] = Ok (true, q)
    ∧ demo_parse (["good.json"] ++ "bad.json" :: ["good.json"])%list
      = Ok (false, p')
    ∧ demo_parse (["good.json"] ++ ["bad.json"])%list = Ok (false, p')
    ∧ loaded q = ([] ++ filter (λ i, true = true) ["good.json"])%list
    ∧ loaded p' = (loaded q ++ ["bad.json"])%list
    ∧ enqueued p' = enqueued q
    ∧ db p' = db q.
Proof.
  apply (parse_stops_at_failed_load "/" (λ _, true) (λ _, Some "") id true
           (λ _, false) (λ _, true) (λ _ d, (0%Z, d))
           (λ s, N.of_nat (String.length s)) (λ _, true) demo_loadFromFile
           false ["good.json"] "bad.json" ["good.json"]
           (new_parser empty_db) (new_parser empty_db)).
  - reflexivity.
  - intros i ->%list_elem_of_singleton _. by eexists.
  - intros i cs c ->%list_elem_of_singleton _ [= <-] ->%list_elem_of_singleton.
    discriminate.
  - reflexivity.
  - reflexivity.
Defined.

(** ** The traversal of the node graph *)

Section Traversal.

Variable es : list CppEdge.
Variable node_ : CppNodeId.

Implicit Types (t : Traversal) (id x y : CppNodeId) (l : list CppEdge).

Lemma discover_mono id t : trav_nodes t ⊆ trav_nodes (discover id t).
Proof. unfold discover. case_bool_decide; simpl; set_solver. Qed.

Lemma discover_elem id t : id ∈ trav_nodes (discover id t).
Proof. unfold discover. case_bool_decide; simpl; set_solver. Qed.

Lemma discover_dequeued id t : dequeued (discover id t) = dequeued t.
Proof. unfold discover. by case_bool_decide. Qed.

Lemma discover_inv id t :
  connected es node_ id → id ∈ endpoints es node_ →
  traversal_inv es node_ t → traversal_inv es node_ (discover id t).
Proof.
  intros Hconn Hend [Hs Hc Hnd Hn He]. unfold discover.
  case_bool_decide as Hid; [by split|]. split; simpl.
  - set_solver.
  - intros x [->%elem_of_singleton|Hx]%elem_of_union; auto.
  - rewrite app_assoc. apply NoDup_app. split; [done|].
    split; [|apply NoDup_singleton].
    intros x Hx ->%list_elem_of_singleton. apply Hid. by apply Hn.
  - intros x. rewrite app_assoc, elem_of_app, list_elem_of_singleton.
    rewrite <-Hn. set_solver.
  - set_solver.
Qed.

Lemma discover_all_mono f l t :
  trav_nodes t ⊆ trav_nodes (discover_all f l t).
Proof.
  unfold discover_all.
  revert t. induction l as [|e l IH]; intros t; simpl; [done|].
  etrans; [apply (discover_mono (f e)) | apply IH].
Qed.

Lemma discover_all_elem f l t e :
  e ∈ l → f e ∈ trav_nodes (discover_all f l t).
Proof.
  revert t. induction l as [|e' l IH]; intros t Hin.
  - by apply elem_of_nil in Hin.
  - apply elem_of_cons in Hin as [->|Hin]; [|by apply IH].
    apply (discover_all_mono f l), discover_elem.
Qed.

Lemma discover_all_dequeued f l t :
  dequeued (discover_all f l t) = dequeued t.
Proof.
  unfold discover_all.
  revert t. induction l as [|e l IH]; intros t; simpl; [done|].
  by rewrite IH, discover_dequeued.
Qed.

Lemma discover_all_inv f l t :
  (∀ e, e ∈ l → f e ∈ endpoints es node_
                ∧ ∃ x, x ∈ trav_nodes t ∧ adjacent es x (f e)) →
  traversal_inv es node_ t → traversal_inv es node_ (discover_all f l t).
Proof.
  revert t. induction l as [|e l IH]; intros t Hl Ht; [done|].
  apply IH.
  - intros e' He'. destruct (Hl e') as [? (x & Hx & ?)]; [by right|].
    split; [done|]. exists x. split; [|done]. by apply discover_mono.
  - destruct (Hl e) as [? (x & Hx & Hadj)]; [by left|].
    apply discover_inv; [|done..].
    eapply rtc_r; [by apply (inv_connected _ _ _ Ht)|done].
Qed.

Lemma from_endpoint e : e ∈ es → from e ∈ endpoints es node_.
Proof.
  intros He. unfold endpoints.
  apply elem_of_union_l, elem_of_union_r, elem_of_list_to_set.
  by apply list_elem_of_fmap_2.
Qed.

Lemma to_endpoint e : e ∈ es → to e ∈ endpoints es node_.
Proof.
  intros He. unfold endpoints.
  apply elem_of_union_r, elem_of_list_to_set. by apply list_elem_of_fmap_2.
Qed.

End Traversal.

Lemma size_list_to_set_le `{Countable K} (l : list K) :
  (size (list_to_set l : gset K) ≤ length l)%nat.
Proof.
  induction l as [|a l IH].
  - by rewrite list_to_set_nil, size_empty.
  - rewrite list_to_set_cons, size_union_alt, size_singleton.
    pose proof (subseteq_size (list_to_set l ∖ {[a]})
                  (list_to_set l : gset K)) as Hsub.
    specialize (Hsub ltac:(set_solver)). simpl. lia.
Qed.

Section TraversalLoop.

Variable es : list CppEdge.
Variable node_ : CppNodeId.

Implicit Types (t : Traversal) (x y : CppNodeId).

Lemma popped_inv x rest t :
  processQueue t = x :: rest →
  traversal_inv es node_ t → traversal_inv es node_ (popped x rest t).
Proof.
  intros Hq [Hs Hc Hnd Hn He]. rewrite Hq in Hnd, Hn.
  split; simpl; try done.
  - by rewrite <-app_assoc.
  - intros y. by rewrite <-app_assoc.
Qed.

Lemma expand_mono x t : trav_nodes t ⊆ trav_nodes (expand es x t).
Proof.
  unfold expand. cbv zeta.
  etrans; [|apply discover_all_mono]. apply discover_all_mono.
Qed.

Lemma expand_dequeued x t : dequeued (expand es x t) = dequeued t.
Proof. unfold expand. cbv zeta. by rewrite !discover_all_dequeued. Qed.

Lemma expand_inv x t :
  x ∈ trav_nodes t →
  traversal_inv es node_ t → traversal_inv es node_ (expand es x t).
Proof.
  intros Hx Ht. unfold expand. cbv zeta.
  apply discover_all_inv.
  - intros e [Hto He]%list_elem_of_filter. split; [by apply from_endpoint|].
    exists x. split; [by apply discover_all_mono|].
    exists e. split; [done|]. by right.
  - apply discover_all_inv; [|done].
    intros e [Hfrom He]%list_elem_of_filter. split; [by apply to_endpoint|].
    exists x. split; [done|]. exists e. split; [done|]. by left.
Qed.

(** After the body has run for [x], all neighbours of [x] are in [nodes]. *)
Lemma expand_closes x y t :
  adjacent es x y → y ∈ trav_nodes (expand es x t).
Proof.
  intros (e & He & [[Hf Ht]|[Ht Hf]]); unfold expand; cbv zeta.
  - apply discover_all_mono. subst y.
    apply (discover_all_elem to). by apply list_elem_of_filter.
  - subst y. apply (discover_all_elem from). by apply list_elem_of_filter.
Qed.

Lemma closed_on_mono l t t' :
  trav_nodes t ⊆ trav_nodes t' → closed_on es l t → closed_on es l t'.
Proof. intros Hsub Hcl x y Hx Hadj. apply Hsub. by eapply Hcl. Qed.

(** The nodes seen so far are distinct endpoints, so they are no more than
    the endpoints. *)
Lemma traversal_inv_length t :
  traversal_inv es node_ t →
  (length (dequeued t) + length (processQueue t) ≤ size (endpoints es node_))%nat.
Proof.
  intros [_ _ Hnd Hn He]. rewrite <-length_app, <-(size_list_to_set (C:=gset _)) by done.
  apply subseteq_size. intros x Hx. apply He, Hn. by apply elem_of_list_to_set in Hx.
Qed.

Lemma endpoints_size : (size (endpoints es node_) ≤ collect_fuel es)%nat.
Proof.
  unfold endpoints, collect_fuel.
  rewrite !size_union_alt, size_singleton.
  pose proof (size_list_to_set_le (from <$> es)) as H1.
  pose proof (size_list_to_set_le (to <$> es)) as H2.
  rewrite length_fmap in H1, H2.
  pose proof (subseteq_size (list_to_set (from <$> es) ∖ {[node_]})
                (list_to_set (from <$> es) : gset _)) as H3.
  pose proof (subseteq_size
                (list_to_set (to <$> es)
                   ∖ ({[node_]} ∪ list_to_set (from <$> es)))
                (list_to_set (to <$> es) : gset _)) as H4.
  specialize (H3 ltac:(set_solver)). specialize (H4 ltac:(set_solver)). lia.
Qed.

(** The loop, from any state that satisfies the invariant and with a
    budget that covers the endpoints not yet dequeued, returns; the state
    it returns has an empty queue, satisfies the invariant, and all its
    dequeued nodes are closed. *)
Lemma collect_loop_ok fuel t :
  traversal_inv es node_ t →
  closed_on es (dequeued t) t →
  (size (endpoints es node_) ≤ length (dequeued t) + fuel)%nat →
  ∃ t', collect_loop fuel es t = Ok t'
        ∧ traversal_inv es node_ t'
        ∧ closed_on es (dequeued t') t'
        ∧ processQueue t' = [].
Proof.
  revert t. induction fuel as [|k IH]; intros t Ht Hcl Hfuel.
  - pose proof (traversal_inv_length t Ht) as Hlen.
    destruct (processQueue t) as [|x rest] eqn:Hq; simpl in *.
    + exists t. by rewrite Hq.
    + lia.
  - destruct (processQueue t) as [|x rest] eqn:Hq; simpl; rewrite Hq.
    + exists t. by rewrite Hq.
    + pose proof (popped_inv x rest t Hq Ht) as Hp.
      assert (x ∈ trav_nodes t) as Hx.
      { apply (inv_nodes _ _ _ Ht). rewrite Hq. set_solver. }
      apply (IH (expand es x (popped x rest t))).
      * by apply expand_inv.
      * rewrite expand_dequeued. simpl.
        intros x' y [Hx'| ->%list_elem_of_singleton]%elem_of_app Hadj.
        -- apply expand_mono. simpl. by eapply Hcl.
        -- by apply expand_closes.
      * rewrite expand_dequeued. simpl. rewrite length_app. simpl. lia.
Qed.

Lemma traversal_inv_init :
  traversal_inv es node_
    {| trav_nodes := {[ node_ ]}; processQueue := [node_]; dequeued := [] |}.
Proof.
  split; simpl.
  - set_solver.
  - intros x ->%elem_of_singleton. apply rtc_refl.
  - apply NoDup_singleton.
  - intros x. by rewrite list_elem_of_singleton, elem_of_singleton.
  - unfold endpoints. set_solver.
Qed.

(** A set that holds [node_] and is closed under adjacency holds all that
    is connected to [node_]. *)
Lemma closed_connected (X : gset CppNodeId) x :
  node_ ∈ X → (∀ a b, a ∈ X → adjacent es a b → b ∈ X) →
  connected es node_ x → x ∈ X.
Proof.
  intros Hs Hcl Hconn. induction Hconn as [|a b c Hab _ IH]; [done|].
  apply IH. by eapply Hcl.
Qed.

End TraversalLoop.

(** The traversal from [node_] returns, in a state that satisfies the
    invariant, with an empty queue and all dequeued nodes closed. *)
Lemma collect_returns (es : list CppEdge) (node_ : CppNodeId) :
  ∃ t, collect es node_ = Ok t
       ∧ traversal_inv es node_ t
       ∧ closed_on es (dequeued t) t
       ∧ processQueue t = [].
Proof.
  apply (collect_loop_ok es node_ (collect_fuel es) _
           (traversal_inv_init es node_)).
  - by intros x y ?%elem_of_nil.
  - simpl. apply endpoints_size.
Qed.

(** In such a state [nodes] is the component of [node_]. *)
Lemma traversal_component (es : list CppEdge) (node_ : CppNodeId)
    (t : Traversal) (x : CppNodeId) :
  traversal_inv es node_ t → closed_on es (dequeued t) t →
  processQueue t = [] →
  x ∈ trav_nodes t ↔ connected es node_ x.
Proof.
  intros [Hs Hc Hnd Hn He] Hcl Hq. rewrite Hq, app_nil_r in Hn.
  split; [apply Hc|].
  apply closed_connected; [done|].
  intros a b Ha Hadj. eapply Hcl; [|done]. by apply Hn.
Qed.

Lemma collectNodeSet_Ok (d : Db) (node_ : CppNodeId) :
  ∃ C, collectNodeSet d node_ = Ok C
       ∧ ∀ x, x ∈ C ↔ connected (edges d) node_ x.
Proof.
  destruct (collect_returns (edges d) node_) as (t & Hrun & Ht & Hcl & Hq).
  exists (trav_nodes t). unfold collectNodeSet. rewrite Hrun.
  split; [done|]. intros x. by apply traversal_component.
Qed.

(** C4: on every edge table, cyclic or not, and from every start node,
    [collectNodeSet] returns; the set it returns is exactly the start node
    and the nodes connected to it by edges taken in either direction; and
    the nodes it dequeued are pairwise distinct and are exactly the nodes of
    that set, so each is visited once. *)
Theorem collectNodeSet_component (d : Db) (node_ : CppNodeId) :
  ∃ t, collect (edges d) node_ = Ok t
       ∧ collectNodeSet d node_ = Ok (trav_nodes t)
       ∧ (∀ x, x ∈ trav_nodes t ↔ connected (edges d) node_ x)
       ∧ NoDup (dequeued t)
       ∧ (∀ x, x ∈ dequeued t ↔ x ∈ trav_nodes t).
Proof.
  destruct (collect_returns (edges d) node_) as (t & Hrun & Ht & Hcl & Hq).
  exists t. unfold collectNodeSet. rewrite Hrun.
  split; [done|]. split; [done|]. split.
  - intros x. by apply traversal_component.
  - destruct Ht as [_ _ Hnd Hn _]. rewrite Hq, app_nil_r in Hnd, Hn.
    split; [done|]. intros x. by rewrite Hn.
Qed.

(** ** Deleting a component *)

Section DeleteComponent.

Variable edge_cascade : bool.

Implicit Types (d : Db) (id : CppNodeId) (l : list CppNodeId).

Lemma erase_Ok {T} (key : T → N) id (rows : list T) :
  id ∈ key <$> rows → erase key id rows = Ok (filter (λ r, key r ≠ id) rows).
Proof. intros Hin. unfold erase. by rewrite bool_decide_eq_true_2. Qed.

Lemma erase_Throw {T} (key : T → N) id (rows : list T) :
  id ∉ key <$> rows → erase key id rows = Throw.
Proof. intros Hin. unfold erase. by rewrite bool_decide_eq_false_2. Qed.

Lemma filter_all {T} (P : T → Prop) `{!∀ x, Decision (P x)} (rows : list T) :
  (∀ x, P x) → filter P rows = rows.
Proof.
  intros HP. induction rows as [|r rows IH]; [done|].
  by rewrite filter_cons_True, IH.
Qed.

(** Erasing distinct, present nodes one after the other succeeds and
    removes exactly their rows. *)
Lemma erase_nodes_Ok l d :
  NoDup l → (∀ id, id ∈ l → id ∈ node_id <$> nodes d) →
  foldM (λ d id, erase_CppNode edge_cascade id d) l d
  = Ok (set_graph (filter (λ r, node_id r ∉ l) (nodes d))
                  (edges_after edge_cascade l (edges d)) d).
Proof.
  revert d. induction l as [|id l IH]; intros d Hnd Hin.
  - simpl. f_equal. destruct d. unfold set_graph, edges_after. simpl.
    f_equal.
    + symmetry. apply filter_all. intros r ?%elem_of_nil. done.
    + destruct edge_cascade; [|done]. symmetry. apply filter_all.
      intros e. split; by intros ?%elem_of_nil.
  - apply NoDup_cons in Hnd as [Hid Hnd]. simpl.
    unfold erase_CppNode at 2. rewrite erase_Ok by (apply Hin; by left).
    simpl. rewrite IH; [|done|].
    + f_equal. unfold set_graph, edges_after. simpl. f_equal.
      * rewrite list_filter_filter. apply list_filter_iff.
        intros r. rewrite not_elem_of_cons. tauto.
      * destruct edge_cascade; [|done].
        rewrite list_filter_filter. apply list_filter_iff.
        intros e. rewrite !not_elem_of_cons. tauto.
    + intros id' Hid'. simpl.
      apply list_elem_of_fmap.
      pose proof (Hin id' ltac:(by right)) as (r & -> & Hr)%list_elem_of_fmap.
      exists r. split; [done|]. apply list_elem_of_filter. split; [|done].
      intros Heq. apply Hid. by rewrite <-Heq.
Qed.


End DeleteComponent.




(** *** A graph with two components *)


(** Deleting the component of node 3 removes the nodes 3 and 4 and the
    edge between them; the nodes 1 and 2 and their edge stay. *)
Example demo_graph_deletion :
  ∃ d', deleteComponent true demo_graph 3%N = Ok d'
        ∧ node_id <$> nodes d' = [1%N; 2%N]
        ∧ edges d' = [ {| edge_id := 1%N; from := 1%N; to := 2%N |} ].
Proof. eexists. split; [vm_compute; reflexivity|]. split; reflexivity. Qed.

(** ** The cascade *)

Section Cascade.

Variable d : Db.

Implicit Types (f g h : File) (st : gmap string IncrementalStatus).

Lemma load_File_elem id f : load_File d id = Ok f → f ∈ files d ∧ file_id f = id.
Proof.
  unfold load_File. destruct (list_find _ _) as [[i f']|] eqn:Hfind; [|done].
  intros [= ->]. apply list_find_Some in Hfind as (Hi & ? & _).
  split; [|done]. by eapply list_elem_of_lookup_2.
Qed.

Lemma load_File_Throw id :
  load_File d id = Throw → id ∉ file_id <$> files d.
Proof.
  unfold load_File. destruct (list_find _ _) as [[i f']|] eqn:Hfind; [done|].
  intros _ (f & -> & Hf)%list_elem_of_fmap.
  apply list_find_None in Hfind. by eapply Forall_forall in Hfind.
Qed.

Lemma load_File_Starved id : load_File d id ≠ Starved.
Proof. unfold load_File. by destruct (list_find _ _) as [[i f']|]. Qed.

Lemma file_path_store f : f ∈ files d → file_path f ∈ store_paths d.
Proof.
  intros Hf. apply elem_of_list_to_set. by apply list_elem_of_fmap_2.
Qed.

Local Abbreviation dangling_includer' := (dangling_includer d).
Local Abbreviation unclassified' := (unclassified d).

Lemma unclassified_mono st st' :
  dom st ⊆ dom st' → (unclassified' st' ≤ unclassified' st)%nat.
Proof. intros Hsub. unfold unclassified. apply subseteq_size. set_solver. Qed.

Lemma unclassified_insert st p s :
  p ∈ store_paths d → st !! p = None →
  (S (unclassified' (<[p := s]> st)) ≤ unclassified' st)%nat.
Proof.
  intros Hp Hst. unfold unclassified. apply not_elem_of_dom in Hst.
  set (X := store_paths d ∖ dom (<[p := s]> st)).
  assert (p ∉ X) as HpX by (unfold X; rewrite dom_insert_L; set_solver).
  assert (store_paths d ∖ dom st = {[p]} ∪ X) as ->.
  { unfold X. rewrite dom_insert_L.
    apply set_eq. intros q. destruct (decide (q = p)); set_solver. }
  rewrite (size_union (C:=gset string)) by set_solver.
  by rewrite size_singleton.
Qed.

(** With a budget that covers the unclassified paths, the cascade from a
    row of the file table does not run out of budget; it throws only at a
    dangling includer, and it only adds to the classified paths. *)
Lemma markAsModified_fuel_returns fuel f st :
  f ∈ files d → (unclassified' st ≤ fuel)%nat →
  outcome dangling_includer' False (λ st', dom st ⊆ dom st')
    (markAsModified_fuel fuel d f st).
Proof.
  revert f st. induction fuel as [|k IH]; intros f st Hf Hfuel.
  - simpl. destruct (st !! file_path f) eqn:Hst; simpl; [done|].
    pose proof (unclassified_insert st _ MODIFIED (file_path_store f Hf) Hst).
    lia.
  - simpl. destruct (st !! file_path f) eqn:Hst; simpl; [done|].
    pose proof (unclassified_insert st _ MODIFIED (file_path_store f Hf) Hst)
      as Hins.
    eapply outcome_impl; last apply (foldM_outcome _ _ _
      (λ _ st', dom (<[file_path f := MODIFIED]> st) ⊆ dom st')); [| done |].
    + simpl. intros st' Hsub. etrans; [|done]. rewrite dom_insert_L. set_solver.
    + intros _ inc st' Hsub [_ Hinc]%list_elem_of_filter.
      destruct (load_File d (includer inc)) as [g| |] eqn:Hload; simpl.
      * apply load_File_elem in Hload as [Hg _].
        eapply outcome_impl; last apply IH; [|done|].
        -- simpl. intros st'' Hsub'. by etrans.
        -- pose proof (unclassified_mono _ _ Hsub). lia.
      * apply load_File_Throw in Hload. intros Hall.
        by eapply Forall_forall in Hall.
      * by apply load_File_Starved in Hload.
Qed.

End Cascade.

(** A column without duplicates is a key. *)
Lemma NoDup_key {T K} (key : T → K) (rows : list T) (r r' : T) :
  NoDup (key <$> rows) → r ∈ rows → r' ∈ rows → key r = key r' → r = r'.
Proof.
  induction rows as [|a rows IH]; intros Hnd Hr Hr' Hkey.
  - by apply elem_of_nil in Hr.
  - rewrite fmap_cons in Hnd. apply NoDup_cons in Hnd as [Ha Hnd].
    apply elem_of_cons in Hr as [->|Hr];
      apply elem_of_cons in Hr' as [->|Hr']; auto.
    + exfalso. apply Ha. rewrite Hkey. by apply list_elem_of_fmap_2.
    + exfalso. apply Ha. rewrite <-Hkey. by apply list_elem_of_fmap_2.
Qed.

Section CascadeClosure.

Variable d : Db.
Hypothesis Hwf : store_wf d.

Implicit Types (f g h : File) (st : gmap string IncrementalStatus).

Lemma newly_closed_refl st : newly_closed d st st.
Proof. by intros p Hp Hnp. Qed.

Lemma newly_closed_trans st1 st2 st3 :
  st2 ⊆ st3 → newly_closed d st1 st2 → newly_closed d st2 st3 →
  newly_closed d st1 st3.
Proof.
  intros Hsub H12 H23 p Hp3 Hp1.
  destruct (decide (p ∈ dom st2)) as [Hp2|Hp2]; [|by apply H23].
  destruct (H12 p Hp2 Hp1) as [Hmod Hcl]. split.
  - by eapply lookup_weaken.
  - intros g h Hg Hh Hpath Hinc.
    apply (subseteq_dom st2 st3 Hsub). by apply (Hcl g h).
Qed.

(** When the cascade from a row of the file table returns, it has kept
    what was classified, has classified the file, and what it has newly
    classified is [MODIFIED] and closed under includers. *)
Lemma markAsModified_fuel_closed fuel f st :
  f ∈ files d →
  outcome True True
    (λ st', st ⊆ st' ∧ file_path f ∈ dom st' ∧ newly_closed d st st')
    (markAsModified_fuel fuel d f st).
Proof using Hwf.
  destruct Hwf as (Hid & Hpath & _).
  revert f st. induction fuel as [|k IH]; intros f st Hf; simpl.
  - destruct (st !! file_path f) eqn:Hst; simpl; [|done].
    split_and!; [done|by apply elem_of_dom|apply newly_closed_refl].
  - destruct (st !! file_path f) eqn:Hst; simpl.
    { split_and!; [done|by apply elem_of_dom|apply newly_closed_refl]. }
    set (st1 := <[file_path f := MODIFIED]> st).
    assert (st ⊆ st1) as Hst1 by by apply insert_subseteq.
    eapply outcome_impl; last apply (foldM_outcome _ _ _
      (λ pre st', st1 ⊆ st' ∧ newly_closed d st1 st'
         ∧ ∀ inc h, inc ∈ pre → h ∈ files d → file_id h = includer inc →
             file_path h ∈ dom st')).
    + simpl. intros st' (Hsub & Hnew & Hdone).
      assert (st' !! file_path f = Some MODIFIED) as Hf'.
      { eapply lookup_weaken; [|done]. apply lookup_insert_eq. }
      split_and!; [by etrans|by apply elem_of_dom|].
      intros p Hp Hnp. destruct (decide (p = file_path f)) as [->|Hne].
      * split; [done|]. intros g h Hg Hh Hgf (inc & Hinc & Hincr & Hincd).
        assert (g = f) as -> by by eapply (NoDup_key file_path).
        apply (Hdone inc h); [|done..]. by apply list_elem_of_filter.
      * apply Hnew; [done|]. unfold st1. rewrite dom_insert_L. set_solver.
    + split_and!; [done|apply newly_closed_refl|].
      by intros inc h ?%elem_of_nil.
    + intros pre inc st' (Hsub & Hnew & Hdone) _.
      destruct (load_File d (includer inc)) as [g| |] eqn:Hload; simpl;
        [|done..].
      apply load_File_elem in Hload as [Hg Hgid].
      eapply outcome_impl; last apply IH; [|done]. simpl.
      intros st'' (Hsub' & Hgdom & Hnew'). split_and!.
      * by etrans.
      * by eapply newly_closed_trans.
      * intros inc' h [Hin| ->%list_elem_of_singleton]%elem_of_app Hh Hhid.
        -- apply (subseteq_dom st' st'' Hsub'). by apply (Hdone inc' h).
        -- assert (h = g) as ->; [|done].
           eapply (NoDup_key file_id); [done..|]. congruence.
Qed.

End CascadeClosure.

Lemma outcome_and {B} (T : Prop) (Q Q' : B → Prop) (r : result B) :
  ¬ T →
  outcome T False Q r → outcome True True Q' r →
  outcome False False (λ b, Q b ∧ Q' b) r.
Proof. intros HT. destruct r; simpl; auto. Qed.

Lemma unclassified_le (d : Db) (st : gmap string IncrementalStatus) :
  (unclassified d st ≤ length (files d))%nat.
Proof.
  unfold unclassified. etrans; [apply subseteq_size with (Y := store_paths d)|].
  - set_solver.
  - unfold store_paths. etrans; [apply size_list_to_set_le|].
    by rewrite length_fmap.
Qed.

(** The cascade from any file, on any file table and inclusion table,
    does not run out of budget; it throws only at a dangling includer. *)
Lemma markAsModified_returns (d : Db) (file_ : File)
    (st : gmap string IncrementalStatus) :
  outcome (dangling_includer d) False (λ st', dom st ⊆ dom st')
    (markAsModified d file_ st).
Proof.
  unfold markAsModified. simpl.
  destruct (st !! file_path file_) eqn:Hst; simpl; [done|].
  eapply outcome_impl; last apply (foldM_outcome _ _ _
    (λ _ st', dom (<[file_path file_ := MODIFIED]> st) ⊆ dom st')); [| done |].
  - simpl. intros st' Hsub. etrans; [|done]. rewrite dom_insert_L. set_solver.
  - intros _ inc st' Hsub [_ Hinc]%list_elem_of_filter.
    destruct (load_File d (includer inc)) as [g| |] eqn:Hload; simpl.
    + apply load_File_elem in Hload as [Hg _].
      eapply outcome_impl; last apply markAsModified_fuel_returns; [|done|].
      * simpl. intros st'' Hsub'. by etrans.
      * apply unclassified_le.
    + apply load_File_Throw in Hload. intros Hall.
      by eapply Forall_forall in Hall.
    + by apply load_File_Starved in Hload.
Qed.

Section Classify.

Variable fs_exists : string → bool.
Variable fs_read : string → option string.
Variable sha1Hash : string → string.
Variable d : Db.
Hypothesis Hwf : store_wf d.

Implicit Types (f g h : File) (st : gmap string IncrementalStatus).

Local Abbreviation classified_ok' := (classified_ok fs_exists d).
Local Abbreviation changed' := (changed fs_read sha1Hash).
Local Abbreviation classifyFile' := (classifyFile fs_exists fs_read sha1Hash d).

(** On a well-formed store the cascade from a row of the file table
    returns, and what it returns extends the classification as
    [markAsModified_fuel_closed] says. *)
Lemma markAsModified_Ok f st :
  f ∈ files d →
  ∃ st', markAsModified d f st = Ok st'
         ∧ st ⊆ st' ∧ file_path f ∈ dom st' ∧ newly_closed d st st'.
Proof using Hwf.
  intros Hf.
  pose proof (outcome_and _ _ _ _ (λ H, H (proj2 (proj2 Hwf)))
                (markAsModified_returns d f st)
                (markAsModified_fuel_closed d Hwf _ f st Hf)) as Hout.
  fold (markAsModified d f st) in Hout.
  destruct (markAsModified d f st) as [st'| |]; simpl in Hout; [|done..].
  exists st'. tauto.
Qed.

Lemma classified_ok_cascade st st' :
  st ⊆ st' → newly_closed d st st' →
  classified_ok' st → classified_ok' st'.
Proof.
  intros Hsub Hnew [Hent Hcl]. split.
  - intros p s Hp. destruct (st !! p) as [s'|] eqn:Hst.
    + rewrite (lookup_weaken _ _ _ _ Hst Hsub) in Hp. injection Hp as <-.
      by eapply Hent.
    + destruct (Hnew p) as [Hmod _];
        [by apply elem_of_dom|by apply not_elem_of_dom|].
      left. congruence.
  - intros g h Hg Hh Hmod Hinc.
    destruct (st !! file_path g) as [s'|] eqn:Hst.
    + pose proof (lookup_weaken _ _ _ _ Hst Hsub) as Hst'.
      apply (subseteq_dom st st' Hsub). apply (Hcl g h); congruence.
    + destruct (Hnew (file_path g)) as [_ Hcl'];
        [by apply elem_of_dom|by apply not_elem_of_dom|].
      by apply (Hcl' g h).
Qed.

Lemma status_insert_subseteq p s st : st ⊆ status_insert p s st.
Proof.
  unfold status_insert. destruct (st !! p) eqn:Hp; [done|].
  by apply insert_subseteq.
Qed.

Lemma classified_ok_deleted p st :
  fs_exists p = false → classified_ok' st →
  classified_ok' (status_insert p DELETED st).
Proof.
  intros Hp [Hent Hcl]. unfold status_insert.
  destruct (st !! p) eqn:Hst; [done|]. split.
  - intros q s. rewrite lookup_insert. case_decide as Hq.
    + intros [= <-]. subst q. auto.
    + apply Hent.
  - intros g h Hg Hh. rewrite lookup_insert. case_decide as Hq; [done|].
    intros Hmod Hinc. rewrite dom_insert_L.
    apply elem_of_union_r. by apply (Hcl g h).
Qed.

(** One step of the first loop leaves the classification as it is for a
    file that is on disk and reads with its stored hash. *)
Lemma classifyFile_unchanged f st :
  fs_exists (file_path f) = true → unchanged fs_read sha1Hash f →
  classifyFile' st f = Ok st.
Proof.
  intros Hex Hsame. unfold classifyFile. rewrite Hex.
  destruct (st !! file_path f); [done|].
  destruct (file_content f) as [hash|] eqn:Hcontent; [|done].
  destruct (Hsame hash Hcontent) as (fileContent & -> & Hhash).
  by rewrite bool_decide_eq_false_2 by (intros Hne; by apply Hne).
Qed.

(** One step of the first loop, for a row [f] of the file table that can
    be read if it is on disk. *)
Lemma classifyFile_ok f st :
  f ∈ files d → classified_ok' st →
  (fs_exists (file_path f) = true → readable fs_read f) →
  ∃ st', classifyFile' st f = Ok st' ∧ st ⊆ st' ∧ classified_ok' st'
         ∧ (fs_exists (file_path f) = true → changed' f →
            st' !! file_path f = Some MODIFIED).
Proof using Hwf.
  intros Hf Hok Hread. unfold classifyFile.
  destruct (fs_exists (file_path f)) eqn:Hex.
  - destruct (st !! file_path f) as [s|] eqn:Hst.
    { exists st. split_and!; [done..|]. intros _ _.
      destruct (proj1 Hok _ _ Hst) as [->|[_ ?]]; [done|congruence]. }
    destruct (file_content f) as [hash|] eqn:Hcontent.
    2: { exists st. split_and!; [done..|].
         intros _ (hash & ? & ? & _). congruence. }
    assert (is_Some (fs_read (file_path f))) as [fileContent Hbytes]
      by (apply (Hread eq_refl); rewrite Hcontent; by eexists).
    rewrite Hbytes.
    case_bool_decide as Hhash.
    + destruct (markAsModified_Ok f st Hf) as (st' & -> & Hsub & Hdom & Hnew).
      exists st'. split_and!; [done..|by eapply classified_ok_cascade|].
      intros _ _. apply Hnew; [done|]. by apply not_elem_of_dom.
    + exists st. split_and!; [done..|].
      intros _ (hash' & fileContent' & ? & ? & Hne). congruence.
  - eexists. split_and!; [done|apply status_insert_subseteq| |done].
    by apply classified_ok_deleted.
Qed.

Lemma scanned_files_elem f : f ∈ scanned_files d → f ∈ files d.
Proof. by intros [_ ?]%list_elem_of_filter. Qed.

(** The first loop, when every scanned file that is on disk can be
    read. *)
Lemma classify_ok st :
  classified_ok' st →
  (∀ f, f ∈ scanned_files d → fs_exists (file_path f) = true →
        readable fs_read f) →
  ∃ st', classify fs_exists fs_read sha1Hash d st = Ok st'
         ∧ st ⊆ st' ∧ classified_ok' st'
         ∧ ∀ f, f ∈ scanned_files d → fs_exists (file_path f) = true →
                changed' f → st' !! file_path f = Some MODIFIED.
Proof using Hwf.
  intros Hok Hread. unfold classify.
  assert (outcome False False
            (λ st', st ⊆ st' ∧ classified_ok' st'
               ∧ ∀ f, f ∈ scanned_files d → fs_exists (file_path f) = true →
                      changed' f → st' !! file_path f = Some MODIFIED)
            (foldM classifyFile' (scanned_files d) st)) as Hout.
  { apply (foldM_outcome classifyFile' False False
             (λ pre st', st ⊆ st' ∧ classified_ok' st'
                ∧ ∀ f, f ∈ pre → fs_exists (file_path f) = true →
                       changed' f → st' !! file_path f = Some MODIFIED)).
    - split_and!; [done..|]. by intros f ?%elem_of_nil.
    - intros pre f st1 (Hsub & Hok1 & Hdone) Hscan.
      pose proof (scanned_files_elem f Hscan) as Hf.
      destruct (classifyFile_ok f st1 Hf Hok1 (Hread f Hscan))
        as (st2 & -> & Hsub2 & Hok2 & Hf2).
      simpl. split_and!; [by etrans|done|].
      intros f' [Hin| ->%list_elem_of_singleton]%elem_of_app Hex Hch; [|auto].
      eapply lookup_weaken; [|done]. by apply Hdone. }
  destruct (foldM _ _ _) as [st'| |]; simpl in Hout; [|done..].
  exists st'. by split.
Qed.

End Classify.

Lemma classified_ok_empty fs_exists (d : Db) : classified_ok fs_exists d ∅.
Proof. split; [by intros p s | by intros g h _ _]. Qed.

(** C1, amended: the cascade returns on every file table and inclusion
    table, cyclic ones included. On a store where file id and path are keys
    and the includer of every inclusion is a row of the file table, when
    nothing is classified yet and every scanned file that is on disk with
    stored content can be read, the first loop returns a classification in
    which, for every scanned file [f] that is on disk with a stored hash
    that differs from the hash of the bytes read, [f] and every file that
    includes [f] through a chain of includers that are all on disk are
    [MODIFIED], while any file that directly includes one of these is
    classified, as [MODIFIED] or, being absent from disk, as [DELETED]. *)
Theorem cascade_classifies_includers (fs_exists : string → bool)
    (fs_read : string → option string) (sha1Hash : string → string)
    (d : Db) :
  (∀ file_ st, markAsModified d file_ st ≠ Starved)
  ∧ (store_wf d →
     (∀ f, f ∈ scanned_files d → fs_exists (file_path f) = true →
           readable fs_read f) →
     ∃ st, classify fs_exists fs_read sha1Hash d ∅ = Ok st
       ∧ ∀ f, f ∈ scanned_files d → fs_exists (file_path f) = true →
              changed fs_read sha1Hash f →
           (∀ g, rtc (present_includer fs_exists d) f g →
                 st !! file_path g = Some MODIFIED)
           ∧ (∀ g h, rtc (present_includer fs_exists d) f g →
                     h ∈ files d → includes d h g →
                     st !! file_path h = Some MODIFIED
                     ∨ (st !! file_path h = Some DELETED
                        ∧ fs_exists (file_path h) = false))).
Proof.
  split.
  { intros file_ st Heq. pose proof (markAsModified_returns d file_ st) as H.
    by rewrite Heq in H. }
  intros Hwf Hread.
  destruct (classify_ok fs_exists fs_read sha1Hash d Hwf ∅
              (classified_ok_empty fs_exists d) Hread)
    as (st & Hrun & _ & [Hent Hcl] & Hchanged).
  exists st. split; [done|]. intros f Hf Hex Hch.
  assert (∀ g, rtc (present_includer fs_exists d) f g →
               g ∈ files d ∧ st !! file_path g = Some MODIFIED) as Hchain.
  { apply rtc_ind_r.
    - split; [by eapply scanned_files_elem|by apply Hchanged].
    - intros g g' Hfg (Hg' & Hex' & Hinc) [Hg Hmod]. split; [done|].
      pose proof (Hcl g g' Hg Hg' Hmod Hinc) as [s Hs]%elem_of_dom.
      destruct (Hent _ _ Hs) as [->|[_ ?]]; [done|congruence]. }
  split.
  - intros g Hfg. by apply Hchain.
  - intros g h [Hg Hmod]%Hchain Hh Hinc.
    pose proof (Hcl g h Hg Hh Hmod Hinc) as [s Hs]%elem_of_dom.
    destruct (Hent _ _ Hs) as [->|[-> ?]]; auto.
Qed.

(** *** Stores for the cascade *)

Lemma store_wf_decide (d : Db) :
  bool_decide (NoDup (file_id <$> files d)) = true →
  bool_decide (NoDup (file_path <$> files d)) = true →
  bool_decide (Forall (λ inc, includer inc ∈ file_id <$> files d)
                 (inclusions d)) = true →
  store_wf d.
Proof. intros ?%bool_decide_eq_true ?%bool_decide_eq_true ?%bool_decide_eq_true. done. Qed.

(** C1, the claim as stated fails: [/f.h] was edited and [/g.cpp], which
    includes it, is absent from disk and scanned before it; [/g.cpp] is then
    [DELETED], not [MODIFIED]. *)
Lemma includer_absent_from_disk_is_deleted :
  store_wf demo_includer_first
  ∧ demo_file 1 "/f.h" (Some "f0") ∈ scanned_files demo_includer_first
  ∧ demo_exists "/g.cpp" "/f.h" = true
  ∧ changed (demo_read "/f.h") id (demo_file 1 "/f.h" (Some "f0"))
  ∧ includes demo_includer_first (demo_file 2 "/g.cpp" (Some "g0"))
      (demo_file 1 "/f.h" (Some "f0"))
  ∧ classify (demo_exists "/g.cpp") (demo_read "/f.h") id
      demo_includer_first ∅
    = Ok {[ "/g.cpp" := DELETED; "/f.h" := MODIFIED ]}.
Proof.
  split_and!.
  - by apply store_wf_decide.
  - apply list_elem_of_filter. split; [done|]. simpl.
    rewrite !elem_of_cons. auto.
  - reflexivity.
  - exists "f0", "new". split_and!; [done..|]. discriminate.
  - eexists. split; [by apply list_elem_of_singleton|]. done.
  - vm_compute. reflexivity.
Qed.

Lemma demo_read_Some (edited p : string) : is_Some (demo_read edited p).
Proof. unfold demo_read. repeat case_match; by eexists. Qed.

(** When every scanned file that is on disk reads with its stored hash,
    the first loop classifies exactly the scanned files that are absent
    from disk, as [DELETED]: whatever includes them stays unclassified. *)
Lemma classify_deletions_only (fs_exists : string → bool)
    (fs_read : string → option string) (sha1Hash : string → string)
    (d : Db) :
  (∀ f, f ∈ scanned_files d → fs_exists (file_path f) = true →
        unchanged fs_read sha1Hash f) →
  ∃ st, classify fs_exists fs_read sha1Hash d ∅ = Ok st
        ∧ ∀ p s, st !! p = Some s ↔
                 s = DELETED
                 ∧ ∃ f, f ∈ scanned_files d ∧ file_path f = p
                        ∧ fs_exists p = false.
Proof.
  intros Hsame. unfold classify.
  assert (outcome False False
            (λ st, ∀ p s, st !! p = Some s ↔
                     s = DELETED
                     ∧ ∃ f, f ∈ scanned_files d ∧ file_path f = p
                            ∧ fs_exists p = false)
            (foldM (classifyFile fs_exists fs_read sha1Hash d)
               (scanned_files d) ∅)) as Hout.
  { apply (foldM_outcome _ False False
             (λ pre st, ∀ p s, st !! p = Some s ↔
                s = DELETED
                ∧ ∃ f, f ∈ pre ∧ file_path f = p ∧ fs_exists p = false)).
    - intros p s. rewrite lookup_empty. split; [done|].
      by intros (_ & f & ?%elem_of_nil & _).
    - intros pre f st Hst Hf.
      assert (∀ p s, (s = DELETED
                ∧ ∃ g, g ∈ (pre ++ [f])%list ∧ file_path g = p
                       ∧ fs_exists p = false)
              ↔ st !! p = Some s
                ∨ (s = DELETED ∧ p = file_path f ∧ fs_exists p = false))
        as Hsplit.
      { intros p s. rewrite Hst. setoid_rewrite elem_of_app.
        setoid_rewrite list_elem_of_singleton. naive_solver. }
      destruct (fs_exists (file_path f)) eqn:Hex.
      + rewrite (classifyFile_unchanged fs_exists fs_read sha1Hash d f st Hex
                   (Hsame f Hf Hex)).
        simpl. intros p s.
        rewrite Hsplit. split; [auto|]. intros [?|(_ & -> & ?)]; [done|].
        congruence.
      + unfold classifyFile. rewrite Hex.
        simpl. intros p s. rewrite Hsplit. unfold status_insert.
        destruct (st !! file_path f) as [s0|] eqn:Hs0.
        * split; [auto|]. intros [?|(-> & -> & _)]; [done|].
          by pose proof (proj1 (Hst _ _) Hs0) as [-> _].
        * rewrite lookup_insert. case_decide as Hp.
          -- subst p. rewrite Hs0. split.
             ++ intros [= <-]. auto.
             ++ intros [?|(-> & _)]; [done|done].
          -- split; [auto|]. intros [?|(_ & -> & _)]; [done|done]. }
  destruct (foldM _ _ _) as [st| |]; simpl in Hout; [|done..].
  by exists st.
Qed.

(** C2, evaluated: [/a.h] is absent from disk and [/b.cpp] and [/c.cpp],
    which include it and are unchanged, are not classified: the absent file
    is entered as [DELETED] and nothing cascades from it. *)
Theorem deleted_file_does_not_cascade :
  classify (demo_exists "/a.h") (demo_read "") id demo_two_includers ∅
  = Ok {[ "/a.h" := DELETED ]}.
Proof. vm_compute. reflexivity. Qed.

Lemma cascade_classifies_includers_witness :
  ∃ st, classify (demo_exists "") (demo_read "/b.h") id demo_cycle ∅ = Ok st
    ∧ ∀ f, f ∈ scanned_files demo_cycle →
           demo_exists "" (file_path f) = true →
           changed (demo_read "/b.h") id f →
        (∀ g, rtc (present_includer (demo_exists "") demo_cycle) f g →
              st !! file_path g = Some MODIFIED)
        ∧ (∀ g h, rtc (present_includer (demo_exists "") demo_cycle) f g →
                  h ∈ files demo_cycle → includes demo_cycle h g →
                  st !! file_path h = Some MODIFIED
                  ∨ (st !! file_path h = Some DELETED
                     ∧ demo_exists "" (file_path h) = false)).
Proof.
  apply (proj2 (cascade_classifies_includers (demo_exists "")
                  (demo_read "/b.h") id demo_cycle)).
  - by apply store_wf_decide.
  - intros f _ _ _. apply demo_read_Some.
Defined.

Example demo_cycle_classification :
  classify (demo_exists "") (demo_read "/b.h") id demo_cycle ∅
  = Ok {[ "/a.h" := MODIFIED; "/b.h" := MODIFIED; "/c.cpp" := MODIFIED ]}.
Proof. vm_compute. reflexivity. Qed.

(** With a directory in the place of [/b.h], reading it throws: the first
    loop, and with it the pass, ends with the exception. *)
Example unreadable_path_ends_pass :
  classify (demo_exists "") demo_read_directory id demo_cycle ∅ = Throw
  ∧ incrementalParse (demo_exists "") demo_read_directory id true
      (λ _, false) demo_cycle ∅
    = (Throw, demo_cycle).
Proof. split; vm_compute; reflexivity. Qed.

(** ** The transaction around the pass *)

Lemma bind_not_Starved {A B} (m : result A) (k : A → result B) :
  m ≠ Starved → (∀ a, k a ≠ Starved) → (m ≫= k) ≠ Starved.
Proof. intros Hm Hk. destruct m; simpl; [apply Hk|done..]. Qed.

Lemma foldM_not_Starved {A B} (f : B → A → result B) (l : list A) (b : B) :
  (∀ b x, f b x ≠ Starved) → foldM f l b ≠ Starved.
Proof.
  intros Hf. revert b. induction l as [|x l IH]; intros b; simpl; [done|].
  by apply bind_not_Starved.
Qed.

(** A loop throws when its body throws at one element whatever the state,
    and never exhausts a budget. *)
Lemma foldM_Throw {A B} (f : B → A → result B) (l : list A) (b : B) (x : A) :
  x ∈ l → (∀ b, f b x = Throw) → (∀ b y, f b y ≠ Starved) →
  foldM f l b = Throw.
Proof.
  intros Hx Hthrow Hf. revert b.
  induction l as [|y l IH]; intros b; [by apply elem_of_nil in Hx|].
  simpl. apply elem_of_cons in Hx as [<-|Hx].
  - by rewrite Hthrow.
  - destruct (f b y) eqn:Hy; simpl; [by apply IH|done|by apply Hf in Hy].
Qed.

Lemma erase_not_Starved {T} (key : T → N) (id : N) (rows : list T) :
  erase key id rows ≠ Starved.
Proof. unfold erase. by case_bool_decide. Qed.

Lemma collectNodeSet_not_Starved (d : Db) (node_ : CppNodeId) :
  collectNodeSet d node_ ≠ Starved.
Proof.
  destruct (collectNodeSet_Ok d node_) as (C & -> & _). done.
Qed.

Section CleanupReturns.

Variable edge_cascade : bool.

Lemma deleteComponent_not_Starved d node_ :
  deleteComponent edge_cascade d node_ ≠ Starved.
Proof.
  apply bind_not_Starved; [apply collectNodeSet_not_Starved|].
  intros ids. apply foldM_not_Starved. intros d' id.
  apply bind_not_Starved; [apply erase_not_Starved|done].
Qed.

Lemma cleanupAstNode_not_Starved d astNode :
  cleanupAstNode edge_cascade d astNode ≠ Starved.
Proof.
  unfold cleanupAstNode.
  repeat (apply bind_not_Starved;
          [apply foldM_not_Starved; intros ??;
           apply bind_not_Starved; [apply erase_not_Starved|done]
          |intros ?]).
  apply foldM_not_Starved. intros ??. apply deleteComponent_not_Starved.
Qed.

Lemma cleanupFile_not_Starved path d :
  cleanupFile edge_cascade path d ≠ Starved.
Proof.
  unfold cleanupFile.
  apply bind_not_Starved; [by destruct (filter _ _)|]. intros delFile.
  apply bind_not_Starved;
    [apply foldM_not_Starved; intros ??; apply cleanupAstNode_not_Starved|].
  intros d1. apply bind_not_Starved.
  { apply foldM_not_Starved. intros ??.
    apply bind_not_Starved; [apply erase_not_Starved|done]. }
  intros d2. apply bind_not_Starved.
  { apply foldM_not_Starved. intros ??. apply deleteComponent_not_Starved. }
  intros d3. apply bind_not_Starved; [apply erase_not_Starved|done].
Qed.

End CleanupReturns.

(** C9, amended: the classification and the cleanups of all [MODIFIED] and
    [DELETED] files run in one transaction. If the store fails while the
    file at [p], one of the classified files, is cleaned up, the pass ends
    with the exception and the store is what it was before the pass: no
    cleanup of the pass is kept, those of files handled before [p]
    included. *)
Theorem store_failure_undoes_pass (fs_exists : string → bool)
    (fs_read : string → option string) (sha1Hash : string → string)
    (edge_cascade : bool)
    (store_error : string → bool) (d : Db)
    (st0 st : gmap string IncrementalStatus) (p : string)
    (s : IncrementalStatus) :
  classify fs_exists fs_read sha1Hash d st0 = Ok st →
  st !! p = Some s → s ≠ ADDED →
  store_error p = true →
  incrementalParse fs_exists fs_read sha1Hash edge_cascade store_error d st0
  = (Throw, d).
Proof.
  intros Hclassify Hp Hs Herr. unfold incrementalParse, OdbTransaction.
  rewrite Hclassify. simpl. unfold cleanup.
  rewrite (foldM_Throw _ _ _ (p, s)); [done| | |].
  - by apply elem_of_map_to_list.
  - intros d'. unfold cleanupItem. simpl. rewrite Herr. by destruct s.
  - intros d' [q s']. unfold cleanupItem. simpl.
    destruct s'; [done|..]; (destruct (store_error q); [done|]);
      apply cleanupFile_not_Starved.
Qed.

(** *** A small project *)

(** C9, the claim as stated fails: [/a.h] was edited, so it and [/b.cpp]
    are [MODIFIED]; the cleanup of [/a.h] runs first and completes, removing
    the file's row; the store then fails in the cleanup of [/b.cpp], and the
    pass leaves the store as it was, with the row of [/a.h] still there. *)
Lemma earlier_cleanup_is_rolled_back :
  ∃ st d1,
    classify (demo_exists "") (demo_read "/a.h") id demo_project ∅ = Ok st
    ∧ map_to_list st = [("/a.h", MODIFIED); ("/b.cpp", MODIFIED)]
    ∧ cleanupItem true demo_store_error demo_project ("/a.h", MODIFIED)
      = Ok d1
    ∧ file_path <$> files d1 = ["/b.cpp"; "/b.o"]
    ∧ cleanupItem true demo_store_error d1 ("/b.cpp", MODIFIED) = Throw
    ∧ incrementalParse (demo_exists "") (demo_read "/a.h") id true
        demo_store_error demo_project ∅
      = (Throw, demo_project)
    ∧ file_path <$> files demo_project = ["/a.h"; "/b.cpp"; "/b.o"].
Proof.
  do 2 eexists.
  split; [vm_compute; reflexivity|].
  split; [vm_compute; reflexivity|].
  split; [vm_compute; reflexivity|].
  split_and!; vm_compute; reflexivity.
Qed.

Lemma store_failure_undoes_pass_witness :
  incrementalParse (demo_exists "") (demo_read "/a.h") id true
    demo_store_error demo_project ∅
  = (Throw, demo_project).
Proof.
  apply (store_failure_undoes_pass (demo_exists "") (demo_read "/a.h") id
           true demo_store_error demo_project ∅
           {[ "/a.h" := MODIFIED; "/b.cpp" := MODIFIED ]} "/b.cpp" MODIFIED).
  - vm_compute. reflexivity.
  - vm_compute. reflexivity.
  - discriminate.
  - reflexivity.
Defined.

(** ** A second run without source changes *)

Lemma foldM_unchanged {A B} (f : B → A → result B) (l : list A) (b : B) :
  (∀ x, x ∈ l → f b x = Ok b) → foldM f l b = Ok b.
Proof.
  induction l as [|x l IH]; intros Hl; simpl; [done|].
  rewrite Hl by by left. simpl. apply IH. intros y Hy. apply Hl. by right.
Qed.

Section SecondRun.

Variable cwd : string.
Variable fs_exists : string → bool.
Variable fs_read : string → option string.
Variable sha1Hash : string → string.
Variable edge_cascade : bool.
Variable store_error : string → bool.
Variable loadFromCommandLine : list string → bool.
Variable tool_run : CompileCommand → Db → Z * Db.
Variable fnvHash : string → N.
Variable is_regular_file : string → bool.
Variable loadFromFile : string → option (list CompileCommand).

Local Abbreviation no_source_changes' :=
  (no_source_changes fs_exists fs_read sha1Hash).

Lemma classify_unchanged d st :
  no_source_changes' d → classify fs_exists fs_read sha1Hash d st = Ok st.
Proof.
  intros Hsame. apply foldM_unchanged. intros f [Hex Hch]%Hsame.
  by apply classifyFile_unchanged.
Qed.

(** Without source changes the pass classifies nothing and leaves the
    store as it is. *)
Lemma incrementalParse_unchanged d :
  no_source_changes' d →
  incrementalParse fs_exists fs_read sha1Hash edge_cascade store_error d ∅
  = (Ok ∅, d).
Proof.
  intros Hsame. unfold incrementalParse, OdbTransaction.
  rewrite classify_unchanged by done. simpl.
  unfold cleanup. by rewrite map_to_list_empty.
Qed.


End SecondRun.


Example demo_rerun_enqueues_nothing :
  ∃ p', parse "/" (demo_exists "") (demo_read "") id true (λ _, false)
          (λ _, true) (λ _ d, (0%Z, d)) (λ s, N.of_nat (String.length s))
          (λ _, true) demo_loadFromFile true ["good.json"]
          (new_parser demo_project) = Ok (true, p')
        ∧ enqueued p' = [] ∧ db p' = demo_project.
Proof. eexists. split; [vm_compute; reflexivity|]. split; reflexivity. Qed.

(** ** The ledger *)

Lemma evolves_refl s r : evolves s r r.
Proof. by split_and!. Qed.

Lemma evolves_trans s r1 r2 r3 :
  evolves s r1 r2 → evolves s r2 r3 → evolves s r1 r3.
Proof.
  intros (Hi & Hp & Hs & Ht) (Hi' & Hp' & Hs' & Ht').
  split_and!; [congruence..|auto|auto].
Qed.

Lemma files_evolve_refl s d :
  NoDup (file_id <$> files d) → files_evolve s d d.
Proof. intros Hnd. split; [done|]. intros r Hr. exists r. by split; [|apply evolves_refl]. Qed.

Lemma files_evolve_trans s d1 d2 d3 :
  files_evolve s d1 d2 → files_evolve s d2 d3 → files_evolve s d1 d3.
Proof.
  intros [_ H12] [Hnd H23]. split; [done|]. intros r Hr.
  destruct (H12 r Hr) as (r2 & Hr2 & He2).
  destruct (H23 r2 Hr2) as (r3 & Hr3 & He3).
  exists r3. split; [done|]. by eapply evolves_trans.
Qed.

Lemma fresh_id_fresh (ids : list N) : fresh_id ids ∉ ids.
Proof.
  assert (∀ i, i ∈ ids → (i ≤ foldr N.max 0 ids)%N) as Hmax.
  { induction ids as [|j ids IH]; intros i Hi; [by apply elem_of_nil in Hi|].
    simpl. apply elem_of_cons in Hi as [->|Hi]; [lia|].
    specialize (IH i Hi). lia. }
  intros Hin. apply Hmax in Hin. unfold fresh_id in Hin. lia.
Qed.

(** [getFile] returns a row of the table it leaves, with the path asked
    for, and keeps all rows. *)
Lemma getFile_spec s path d :
  NoDup (file_id <$> files d) →
  (getFile path d).1 ∈ files (getFile path d).2
  ∧ file_path (getFile path d).1 = path
  ∧ files_evolve s d (getFile path d).2.
Proof.
  intros Hnd. unfold getFile.
  destruct (list_find _ _) as [[i f]|] eqn:Hfind; cbn [fst snd files set_files].
  - apply list_find_Some in Hfind as (Hi & Hpath & _).
    split_and!; [by eapply list_elem_of_lookup_2|done|].
    by apply files_evolve_refl.
  - split_and!; [set_solver|done|]. split; cbn [files set_files].
    + rewrite fmap_app. apply NoDup_app. split_and!; [done| |apply NoDup_singleton].
      intros i Hi ->%list_elem_of_singleton. by apply fresh_id_fresh in Hi.
    + intros r Hr. exists r. split; [set_solver|apply evolves_refl].
Qed.

(** Storing a changed copy of a row of the table, with the same id and
    path, changes that row only. *)
Lemma updateFile_spec s (tweak : File → File) r0 d :
  NoDup (file_id <$> files d) → r0 ∈ files d →
  (∀ r, evolves s r (tweak r)) →
  tweak r0 ∈ files (updateFile (tweak r0) d)
  ∧ files_evolve s d (updateFile (tweak r0) d).
Proof.
  intros Hnd Hr0 Htweak. unfold updateFile, files_evolve.
  cbn [files set_files].
  destruct (Htweak r0) as (Hid & _).
  split; [|split].
  - apply list_elem_of_fmap. exists r0. split; [|done].
    by rewrite bool_decide_eq_true_2.
  - rewrite <-list_fmap_compose.
    rewrite (list_fmap_ext _ file_id (files d)); [done|].
    intros i r Hr. simpl. case_bool_decide; congruence.
  - intros r Hr. case (decide (file_id r = file_id (tweak r0))) as [Heq|Hne].
    + exists (tweak r0). split.
      * apply list_elem_of_fmap. exists r0. split; [|done].
        by rewrite bool_decide_eq_true_2.
      * assert (r = r0) as -> by (eapply (NoDup_key file_id); [done..|congruence]).
        apply Htweak.
    + exists r. split; [|apply evolves_refl].
      apply list_elem_of_fmap. exists r. split; [|done].
      by rewrite bool_decide_eq_false_2.
Qed.

Lemma set_parseStatus_evolves s r : evolves s r (set_parseStatus s r).
Proof. by split_and!. Qed.

Lemma set_type_evolves s r : evolves s r (set_type BINARY_TYPE r).
Proof. by split_and!. Qed.

Lemma recorded_evolve s a l l' src tgt :
  files_evolve s (ledger_db l) (ledger_db l') →
  (∀ x, x ∈ ledger_sources l → x ∈ ledger_sources l') →
  (∀ x, x ∈ ledger_targets l → x ∈ ledger_targets l') →
  recorded s a l src tgt → recorded s a l' src tgt.
Proof.
  intros [_ Hev] Hsrc Htgt [(f & Hf & Hp & Hs & Hrow) (g & Hg & Hq & Ht & Hrow')].
  split.
  - destruct (Hev f Hf) as (f' & Hf' & Hid & Hpath & Hstat & _).
    exists f'. split_and!; [done|congruence|auto|]. rewrite Hid. auto.
  - destruct (Hev g Hg) as (g' & Hg' & Hid & Hpath & _ & Htype).
    exists g'. split_and!; [done|congruence|auto|]. rewrite Hid. auto.
Qed.

(** One pass of the loop of [addCompileCommand]. *)
Lemma recordPair_spec buildAction_ error_ l src tgt :
  NoDup (file_id <$> files (ledger_db l)) →
  let l' := recordPair buildAction_ error_ l (src, tgt) in
  files_evolve (status_of error_) (ledger_db l) (ledger_db l')
  ∧ recorded (status_of error_) (action_id buildAction_) l' src tgt
  ∧ (∀ x, x ∈ ledger_sources l → x ∈ ledger_sources l')
  ∧ (∀ x, x ∈ ledger_targets l → x ∈ ledger_targets l').
Proof.
  intros Hnd. unfold recordPair. cbn [fst snd].
  fold (status_of error_). set (s := status_of error_).
  pose proof (getFile_spec s src (ledger_db l) Hnd) as (Hf1 & Hp1 & He1).
  destruct (getFile src (ledger_db l)) as [file d1]. cbn [fst snd] in *.
  pose proof (updateFile_spec s (set_parseStatus s) file d1 (proj1 He1) Hf1
                (set_parseStatus_evolves s)) as (Hf2 & He2).
  set (d2 := updateFile (set_parseStatus s file) d1) in *.
  pose proof (getFile_spec s tgt d2 (proj1 He2)) as (Hg3 & Hp3 & He3).
  destruct (getFile tgt d2) as [tfile d3]. cbn [fst snd] in *.
  set (d4 := if bool_decide (file_type tfile ≠ BINARY_TYPE)
             then updateFile (set_type BINARY_TYPE tfile) d3 else d3).
  assert (files_evolve s d3 d4
          ∧ ∃ g, g ∈ files d4 ∧ file_id g = file_id tfile
                 ∧ file_path g = tgt ∧ file_type g = BINARY_TYPE)
    as (He4 & g & Hg & Hgid & Hgpath & Hgtype).
  { unfold d4. case_bool_decide as Hbin.
    - pose proof (updateFile_spec s (set_type BINARY_TYPE) tfile d3
                    (proj1 He3) Hg3 (set_type_evolves s)) as (Hg4 & He4).
      split; [done|]. by exists (set_type BINARY_TYPE tfile).
    - split; [by apply files_evolve_refl, He3|].
      exists tfile. split_and!; [done..|].
      by destruct (decide (file_type tfile = BINARY_TYPE)). }
  simpl. split_and!.
  - eapply files_evolve_trans; [done|]. eapply files_evolve_trans; [done|].
    by eapply files_evolve_trans.
  - split.
    + destruct (proj2 He3 _ Hf2) as (f3 & Hf3 & Hev3).
      destruct (proj2 He4 _ Hf3) as (f4 & Hf4 & Hev4).
      destruct (evolves_trans s _ _ _ Hev3 Hev4) as (Hid & Hpath & Hstat & _).
      exists f4. split_and!; [done|by rewrite Hpath|by apply Hstat|].
      rewrite Hid. simpl. set_solver.
    + exists g. split_and!; [done..|]. rewrite Hgid. set_solver.
  - set_solver.
  - set_solver.
Qed.

(** [addCompileCommand] records every pair of [extractInputOutputs]. *)
Lemma addCompileCommand_spec cwd command_ buildAction_ error_ d src tgt :
  NoDup (file_id <$> files d) →
  extractInputOutputs cwd command_ !! src = Some tgt →
  let d' := addCompileCommand cwd command_ buildAction_ error_ d in
  (∃ f, f ∈ files d' ∧ file_path f = src
        ∧ file_parseStatus f = status_of error_
        ∧ {| source_file := file_id f;
             source_action := action_id buildAction_ |} ∈ buildSources d')
  ∧ (∃ g, g ∈ files d' ∧ file_path g = tgt ∧ file_type g = BINARY_TYPE
          ∧ {| target_file := file_id g;
               target_action := action_id buildAction_ |} ∈ buildTargets d').
Proof.
  intros Hnd Hpair%elem_of_map_to_list. unfold addCompileCommand.
  unfold pairs_in_key_order.
  rewrite <-(merge_sort_Permutation key_le) in Hpair.
  set (l0 := {| ledger_db := d; ledger_sources := [];
                ledger_targets := [] |}).
  pose proof (foldl_inv (recordPair buildAction_ error_)
    (λ pre l, NoDup (file_id <$> files (ledger_db l))
       ∧ ∀ st, st ∈ pre →
           recorded (status_of error_) (action_id buildAction_) l st.1 st.2)
    (merge_sort key_le (map_to_list (extractInputOutputs cwd command_)))
    l0) as Hinv.
  destruct Hinv as [_ Hall].
  - split; [done|]. by intros st ?%elem_of_nil.
  - intros pre [src' tgt'] l [Hnd' Hpre] _.
    pose proof (recordPair_spec buildAction_ error_ l src' tgt' Hnd')
      as (Hev & Hrec & Hsrc & Htgt).
    split; [apply Hev|].
    intros st [Hin| ->%list_elem_of_singleton]%elem_of_app; [|done].
    eapply recorded_evolve; [done..|]. by apply Hpre.
  - destruct (Hall (src, tgt) Hpair)
      as [(f & Hf & ? & ? & Hrow) (g & Hg & ? & ? & Hrow')].
    simpl in *. split.
    + exists f. split_and!; [done..|]. set_solver.
    + exists g. split_and!; [done..|]. set_solver.
Qed.

(** *** A failing parse of a compile command without [-o] *)

(** C7, evaluated: the job for [gcc -c b.cpp] in the directory [/], whose
    external parse reports failure, returns the result code and leaves the
    input [/b.cpp] as [PSPartiallyParsed]; the file it marks as binary, and
    names in the [BuildTarget] row, is [/.o]; no row is made for [/b.o],
    the output of the command. *)
Theorem worker_marks_derived_path :
  ∃ d', worker "/" (λ _, true) demo_failing_parse demo_command empty_db
        = Ok (1%Z, d')
    ∧ (λ f, (file_id f, file_path f, file_type f, file_parseStatus f))
        <$> files d'
      = [ (1%N, "/b.cpp", OTHER_TYPE, PSPartiallyParsed);
          (2%N, "/.o", BINARY_TYPE, PSNone) ]
    ∧ buildActions d'
      = [ {| action_id := 1%N; command := "gcc -c b.cpp";
             action_type := Compile |} ]
    ∧ buildSources d' = [ {| source_file := 1%N; source_action := 1%N |} ]
    ∧ buildTargets d' = [ {| target_file := 2%N; target_action := 1%N |} ]
    ∧ "/b.o" ∉ file_path <$> files d'.
Proof.
  eexists. split; [vm_compute; reflexivity|].
  split_and!; [reflexivity..|].
  simpl. rewrite !elem_of_cons, elem_of_nil. intros [?|[?|[]]]; discriminate.
Qed.

(** On the small project, where [/b.o] has a row already, the job adds
    the row of [/.o] beside it. *)
Example demo_worker_files :
  ∃ d', worker "/" (λ _, true) demo_failing_parse demo_command demo_project
        = Ok (1%Z, d')
    ∧ (λ f, (file_path f, file_type f, file_parseStatus f)) <$> files d'
      = [ ("/a.h", OTHER_TYPE, PSFullyParsed);
          ("/b.cpp", OTHER_TYPE, PSPartiallyParsed);
          ("/b.o", BINARY_TYPE, PSNone);
          ("/.o", BINARY_TYPE, PSNone) ].
Proof. eexists. split; [vm_compute; reflexivity|]. reflexivity. Qed.

(** * Further properties *)

(** ** Command-line analysis, continued *)

Section ScanFacts.

Variable cwd : string.

Implicit Types (s : Scan) (arg dir src out : string) (args : list string).

(** What one iteration adds to the sources. *)
Lemma scan_arg_sources_iff dir s arg src :
  src ∈ sources (scan_arg cwd dir s arg)
  ↔ src ∈ sources s
    ∨ (state s = StNone ∧ isSourceFile arg = true
       ∧ isNonSourceFlag arg = false ∧ src = Fs.absolute cwd arg dir).
Proof.
  unfold scan_arg. destruct (state s) eqn:Hs; simpl.
  - destruct (isSourceFile arg), (isNonSourceFlag arg); simpl;
      repeat case_match; simpl; set_solver.
  - naive_solver.
Qed.

(** The sources after the loop: the arguments that are read while no
    output is awaited, have a source extension and are no linker flag. *)
Lemma scan_args_sources_iff dir args src :
  src ∈ sources (scan_args cwd dir args)
  ↔ ∃ pre arg post,
      args = (pre ++ arg :: post)%list
      ∧ state (scan_args cwd dir pre) = StNone
      ∧ isSourceFile arg = true ∧ isNonSourceFlag arg = false
      ∧ src = Fs.absolute cwd arg dir.
Proof.
  induction args as [|a l IH] using rev_ind.
  - split.
    + unfold scan_args. simpl. set_solver.
    + intros (pre & arg & post & Heq & _). by destruct pre.
  - unfold scan_args in *. rewrite foldl_snoc, scan_arg_sources_iff, IH.
    split.
    + intros [(pre & arg & post & -> & ?)|(Hs & ? & ? & ->)].
      * exists pre, arg, (post ++ [a])%list.
        by rewrite <-app_assoc, <-app_comm_cons.
      * by exists l, a, [].
    + intros (pre & arg & post & Heq & Hs & ? & ? & ->).
      destruct post as [|b post _] using rev_ind.
      * apply app_inj_tail in Heq as [-> ->]. by right.
      * left. rewrite app_comm_cons, app_assoc in Heq.
        apply app_inj_tail in Heq as [-> ->]. by exists pre, arg, post.
Qed.

(** An argument other than [-o] read while no output is awaited leaves the
    output as it is, and the loop awaits no output after it. *)
Lemma scan_arg_keeps_output dir s arg :
  state s = StNone → arg ≠ "-o" →
  state (scan_arg cwd dir s arg) = StNone
  ∧ output (scan_arg cwd dir s arg) = output s.
Proof.
  intros Hs Harg. unfold scan_arg. rewrite Hs.
  repeat case_match; simpl; try done.
  exfalso. apply Harg. by apply String.eqb_eq.
Qed.

Lemma foldl_scan_keeps_output dir args s :
  state s = StNone → "-o" ∉ args →
  state (foldl (scan_arg cwd dir) s args) = StNone
  ∧ output (foldl (scan_arg cwd dir) s args) = output s.
Proof.
  revert s. induction args as [|a args IH]; intros s Hs Hno; simpl; [done|].
  apply not_elem_of_cons in Hno as [Ha Hno].
  destruct (scan_arg_keeps_output dir s a Hs) as [Hs' Hout]; [done|].
  destruct (IH _ Hs' Hno) as [? ?]. split; congruence.
Qed.

Lemma scan_arg_keeps_hasCParam dir s arg :
  arg ≠ "-c" → hasCParam (scan_arg cwd dir s arg) = hasCParam s.
Proof.
  intros Harg. unfold scan_arg.
  repeat case_match; simpl; try done.
  exfalso. apply Harg. by apply String.eqb_eq.
Qed.

Lemma foldl_scan_keeps_hasCParam dir args s :
  "-c" ∉ args → hasCParam (foldl (scan_arg cwd dir) s args) = hasCParam s.
Proof.
  revert s. induction args as [|a args IH]; intros s Hno; simpl; [done|].
  apply not_elem_of_cons in Hno as [Ha Hno].
  by rewrite IH, scan_arg_keeps_hasCParam.
Qed.

(** The scan of [pre ++ "-o" :: out :: post], when [-o] is read as the
    flag and no [-o] follows [out]. *)
Lemma scan_args_explicit_output dir pre out post :
  last pre ≠ Some "-o" → "-o" ∉ post →
  output (scan_args cwd dir (pre ++ "-o" :: out :: post))
  = Fs.absolute cwd out dir.
Proof.
  intros Hpre Hpost. unfold scan_args. rewrite foldl_app. cbn [foldl].
  pose proof (foldl_scan_state cwd dir pre scan0 eq_refl Hpre) as Hs.
  set (s := foldl (scan_arg cwd dir) scan0 pre) in *.
  assert (state (scan_arg cwd dir s "-o") = OParam) as Ho.
  { unfold scan_arg. by rewrite Hs. }
  set (s1 := scan_arg cwd dir s "-o") in *.
  assert (state (scan_arg cwd dir s1 out) = StNone
          ∧ output (scan_arg cwd dir s1 out) = Fs.absolute cwd out dir)
    as [Hs2 Hout].
  { unfold scan_arg. by rewrite Ho. }
  destruct (foldl_scan_keeps_output dir post _ Hs2 Hpost) as [_ ->]. done.
Qed.

End ScanFacts.

(** *** Absolute paths *)

Lemma starts_with_app (p a b : string) :
  Str.starts_with p a = true → Str.starts_with p (a ++ b) = true.
Proof.
  unfold Str.starts_with. revert a.
  induction p as [|c p IH]; intros a; [intros _; by destruct (a ++ b)|].
  destruct a as [|d a]; simpl; [done|].
  destruct (ascii_dec c d); [apply IH|done].
Qed.

Lemma back_cons (c : ascii) (s : string) : is_Some (Str.back (String c s)).
Proof.
  revert c. induction s as [|d s IH]; intros c; [by eexists|].
  change (Str.back (String c (String d s))) with (Str.back (String d s)).
  apply IH.
Qed.

Lemma append_absolute (base p : string) :
  Fs.is_absolute base = true → Fs.is_absolute (Fs.append base p) = true.
Proof.
  intros Hbase. unfold Fs.append, Fs.is_absolute in *.
  destruct (String.eqb p ""); [done|].
  destruct (Str.starts_with "/" p); [by apply starts_with_app|].
  destruct base as [|c base]; [done|].
  destruct (back_cons c base) as [d ->].
  destruct (Ascii.eqb d Fs.slash); by apply starts_with_app.
Qed.

(** [absolute] yields an absolute path as soon as the current directory
    is one. *)
Lemma absolute_is_absolute (cwd p base : string) :
  Fs.is_absolute cwd = true → Fs.is_absolute (Fs.absolute cwd p base) = true.
Proof.
  intros Hcwd. unfold Fs.absolute. cbv zeta.
  destruct (Fs.is_absolute p) eqn:Hp; [done|].
  apply append_absolute.
  destruct (Fs.is_absolute base) eqn:Hb; [done|by apply append_absolute].
Qed.

Lemma string_app_nonempty (a b : string) : b ≠ "" → a ++ b ≠ "".
Proof. intros Hb. destruct a; [done|]. by rewrite append_cons. Qed.

Lemma absolute_nonempty (cwd p base : string) :
  p ≠ "" → Fs.absolute cwd p base ≠ "".
Proof.
  intros Hp. unfold Fs.absolute. cbv zeta.
  destruct (Fs.is_absolute p); [done|].
  unfold Fs.append at 1.
  destruct (String.eqb_spec p ""); [done|].
  destruct (Str.starts_with "/" p); [by apply string_app_nonempty|].
  destruct (Str.back _) as [c|]; [|done].
  destruct (Ascii.eqb c Fs.slash); [by apply string_app_nonempty|].
  by apply string_app_nonempty, string_app_nonempty.
Qed.

(** X1: an absolute path is an input, a key of the result, exactly when it
    is the absolute form of an argument that is read while the loop awaits
    no operand of [-o], has a source extension and does not begin with
    [-Wl,]. *)
Theorem inputs_are_source_arguments (cwd : string) (command_ : CompileCommand)
    (src : string) :
  src ∈ dom (extractInputOutputs cwd command_)
  ↔ ∃ pre arg post,
      CommandLine command_ = (pre ++ arg :: post)%list
      ∧ state (scan_args cwd (Directory command_) pre) = StNone
      ∧ isSourceFile arg = true ∧ isNonSourceFlag arg = false
      ∧ src = Fs.absolute cwd arg (Directory command_).
Proof. rewrite dom_extractInputOutputs. apply scan_args_sources_iff. Qed.

(** X2: when the command line holds [-o out] with a non-empty [out], this
    [-o] is not itself the operand of a [-o] before it and no [-o] follows,
    every input is mapped to the absolute path of [out], with or without
    [-c]. *)
Theorem explicit_output_for_every_input (cwd : string)
    (command_ : CompileCommand) (pre : list string) (out : string)
    (post : list string) (src : string) :
  CommandLine command_ = (pre ++ "-o" :: out :: post)%list →
  last pre ≠ Some "-o" → "-o" ∉ post → out ≠ "" →
  src ∈ dom (extractInputOutputs cwd command_) →
  extractInputOutputs cwd command_ !! src
  = Some (Fs.absolute cwd out (Directory command_)).
Proof.
  intros Hcmd Hpre Hpost Hout [tgt Htgt]%elem_of_dom. rewrite Htgt.
  revert Htgt. unfold extractInputOutputs. cbv zeta.
  rewrite Hcmd, scan_args_explicit_output by done.
  destruct (String.eqb_spec (Fs.absolute cwd out (Directory command_)) "")
    as [Hempty|_]; [by apply absolute_nonempty in Hempty|].
  simpl. by intros [_ ->]%lookup_keyed_map.
Qed.

Lemma explicit_output_for_every_input_witness :
  extractInputOutputs "/"
    {| Directory := "/d"; Filename := "a.cpp";
       CommandLine := ["gcc"; "-c"; "a.cpp"; "-o"; "out/a.o"; "b.cpp"] |}
    !! "/d/a.cpp"
  = Some (Fs.absolute "/" "out/a.o" "/d").
Proof.
  apply (explicit_output_for_every_input "/"
           {| Directory := "/d"; Filename := "a.cpp";
              CommandLine := ["gcc"; "-c"; "a.cpp"; "-o"; "out/a.o";
                              "b.cpp"] |}
           ["gcc"; "-c"; "a.cpp"] "out/a.o" ["b.cpp"] "/d/a.cpp").
  - reflexivity.
  - simpl. discriminate.
  - rewrite list_elem_of_singleton. discriminate.
  - discriminate.
  - apply elem_of_dom. eexists. vm_compute. reflexivity.
Defined.

(** X3: when the command line holds neither [-c] nor [-o], every input is
    mapped to [a.out] in the command's directory, taken as it is given. *)
Theorem default_output_is_a_out (cwd : string) (command_ : CompileCommand)
    (src : string) :
  "-c" ∉ CommandLine command_ → "-o" ∉ CommandLine command_ →
  src ∈ dom (extractInputOutputs cwd command_) →
  extractInputOutputs cwd command_ !! src
  = Some (Directory command_ ++ "/a.out").
Proof.
  intros Hc Ho [tgt Htgt]%elem_of_dom. rewrite Htgt. revert Htgt.
  unfold extractInputOutputs, scan_args. cbv zeta.
  destruct (foldl_scan_keeps_output cwd (Directory command_)
              (CommandLine command_) scan0 eq_refl Ho) as [_ ->].
  rewrite foldl_scan_keeps_hasCParam by done. simpl.
  by intros [_ ->]%lookup_keyed_map.
Qed.

Lemma default_output_is_a_out_witness :
  extractInputOutputs "/"
    {| Directory := "/d"; Filename := "a.cpp";
       CommandLine := ["gcc"; "a.cpp"; "lib/b.o"] |}
    !! "/d/lib/b.o"
  = Some ("/d" ++ "/a.out").
Proof.
  apply (default_output_is_a_out "/"
           {| Directory := "/d"; Filename := "a.cpp";
              CommandLine := ["gcc"; "a.cpp"; "lib/b.o"] |} "/d/lib/b.o").
  - simpl. rewrite !elem_of_cons, elem_of_nil. intros [?|[?|[?|[]]]]; discriminate.
  - simpl. rewrite !elem_of_cons, elem_of_nil. intros [?|[?|[?|[]]]]; discriminate.
  - apply elem_of_dom. eexists. vm_compute. reflexivity.
Defined.

(** X4: when the current directory is absolute, every input is an
    absolute path. *)
Theorem inputs_are_absolute (cwd : string) (command_ : CompileCommand)
    (src : string) :
  Fs.is_absolute cwd = true →
  src ∈ dom (extractInputOutputs cwd command_) →
  Fs.is_absolute src = true.
Proof.
  intros Hcwd. rewrite dom_extractInputOutputs.
  intros (pre & arg & post & _ & _ & _ & _ & ->)%scan_args_sources_iff.
  by apply absolute_is_absolute.
Qed.

Lemma inputs_are_absolute_witness : Fs.is_absolute "/d/src/a.cpp" = true.
Proof.
  apply (inputs_are_absolute "/"
           {| Directory := "/d"; Filename := "a.cpp";
              CommandLine := ["gcc"; "-c"; "src/a.cpp"] |} "/d/src/a.cpp").
  - reflexivity.
  - apply elem_of_dom. eexists. vm_compute. reflexivity.
Defined.

(** ** One compilation database, continued *)

Section InputSpec.

Variable cwd : string.
Variable loadFromCommandLine : list string → bool.
Variable tool_run : CompileCommand → Db → Z * Db.
Variable fnvHash : string → N.
Variable loadFromFile : string → option (list CompileCommand).

(** X5: when the compilation database loads and each of its commands has
    a compiler name, [parseByJson] returns true, adds the hashes of all its
    commands to [_parsedCommandHashes], and enqueues jobs whose
    command-line hashes are pairwise distinct and are exactly the hashes of
    its commands that the set did not hold: each new hash is dispatched
    once. *)
Theorem parseByJson_dispatches_each_new_hash_once (input : string)
    (p : Parser) (cs : list CompileCommand) :
  loadFromFile input = Some cs →
  (∀ c, c ∈ cs → CommandLine c ≠ []) →
  ∃ p' new,
    parseByJson cwd loadFromCommandLine tool_run fnvHash loadFromFile
      input p = Ok (true, p')
    ∧ enqueued p' = (enqueued p ++ new)%list
    ∧ _parsedCommandHashes p'
      = _parsedCommandHashes p ∪ list_to_set (line_hash fnvHash <$> cs)
    ∧ NoDup (line_hash fnvHash <$> (job_command <$> new))
    ∧ ∀ h, h ∈ line_hash fnvHash <$> (job_command <$> new)
           ↔ h ∈ line_hash fnvHash <$> cs ∧ h ∉ _parsedCommandHashes p.
Proof.
  intros Hload Hcmd.
  pose proof (parseByJson_Some cwd loadFromCommandLine tool_run fnvHash
                loadFromFile input p cs Hload) as Hspec.
  destruct (parseByJson _ _ _ _ _ _ _) as [[success p']| |];
    cbn [outcome fst snd] in Hspec.
  - destruct Hspec as (-> & _ & _ & new & Henq & Hh & Hnd & Hiff & _).
    by exists p', new.
  - destruct Hspec as (c & Hc & _ & Hempty). by destruct (Hcmd c Hc).
  - done.
Qed.

(** X6: when the compilation database loads and each of its commands has
    a compiler name, the jobs of the database are enqueued by increasing
    index; the index of a job is the position, counted from 1, of its
    command among all commands of the database, the skipped ones included;
    and no command before that position has the same command-line hash, so
    of several commands with one hash the first is dispatched. *)
Theorem parseByJson_job_indices (input : string) (p : Parser)
    (cs : list CompileCommand) :
  loadFromFile input = Some cs →
  (∀ c, c ∈ cs → CommandLine c ≠ []) →
  ∃ p' new,
    parseByJson cwd loadFromCommandLine tool_run fnvHash loadFromFile
      input p = Ok (true, p')
    ∧ enqueued p' = (enqueued p ++ new)%list
    ∧ StronglySorted lt (job_index <$> new)
    ∧ ∀ job, job ∈ new →
        ∃ k, job_index job = S k ∧ cs !! k = Some (job_command job)
             ∧ ∀ j c', (j < k)%nat → cs !! j = Some c' →
                 line_hash fnvHash c' ≠ line_hash fnvHash (job_command job).
Proof.
  intros Hload Hcmd.
  pose proof (parseByJson_Some cwd loadFromCommandLine tool_run fnvHash
                loadFromFile input p cs Hload) as Hspec.
  destruct (parseByJson _ _ _ _ _ _ _) as [[success p']| |];
    cbn [outcome fst snd] in Hspec.
  - destruct Hspec
      as (-> & _ & _ & new & Henq & _ & _ & _ & Hpos & Hsort & _).
    exists p', new. split_and!; [done..|].
    intros job (k & ? & ? & ?)%Hpos. by exists k.
  - destruct Hspec as (c & Hc & _ & Hempty). by destruct (Hcmd c Hc).
  - done.
Qed.

End InputSpec.

(** ** The ledger, continued *)

Lemma set_files_set_files (fs fs' : list File) (d : Db) :
  set_files fs (set_files fs' d) = set_files fs d.
Proof. reflexivity. Qed.

Lemma set_files_files (d : Db) : set_files (files d) d = d.
Proof. by destruct d. Qed.

(** [getFile] and [updateFile] write to the file table only. *)
Lemma getFile_frame (path : string) (d : Db) :
  (getFile path d).2 = set_files (files (getFile path d).2) d.
Proof.
  unfold getFile. destruct (list_find _ _) as [[i f]|]; simpl; [|done].
  by rewrite set_files_files.
Qed.

Lemma updateFile_frame (f : File) (d : Db) :
  updateFile f d = set_files (files (updateFile f d)) d.
Proof. reflexivity. Qed.

(** One pass of the loop of [addCompileCommand] writes to the file table
    and adds one row for the action to each of the two lists. *)
Lemma recordPair_frame (d : Db) (buildAction_ : BuildAction) (error_ : bool)
    (l : Ledger) (srcTarget : string * string) :
  ledger_db l = set_files (files (ledger_db l)) d →
  let l' := recordPair buildAction_ error_ l srcTarget in
  ledger_db l' = set_files (files (ledger_db l')) d
  ∧ (∃ s, ledger_sources l' = (ledger_sources l ++ [s])%list
          ∧ source_action s = action_id buildAction_)
  ∧ (∃ t, ledger_targets l' = (ledger_targets l ++ [t])%list
          ∧ target_action t = action_id buildAction_).
Proof.
  intros Hl. unfold recordPair.
  pose proof (getFile_frame srcTarget.1 (ledger_db l)) as H1.
  destruct (getFile srcTarget.1 (ledger_db l)) as [file d1]. cbn [fst snd] in *.
  set (d2 := updateFile (set_parseStatus (status_of error_) file) d1).
  pose proof (getFile_frame srcTarget.2 d2) as H3.
  destruct (getFile srcTarget.2 d2) as [tfile d3]. cbn [fst snd] in *.
  cbv zeta. cbn [ledger_db ledger_sources ledger_targets].
  split; [|split; eexists; (split; reflexivity)].
  assert (d3 = set_files (files d3) d) as Hd3.
  { rewrite H3. unfold d2. rewrite updateFile_frame, H1, Hl.
    by rewrite !set_files_set_files. }
  case_bool_decide; [|done].
  by rewrite updateFile_frame, Hd3, !set_files_set_files.
Qed.

Lemma pairs_in_key_order_length (m : gmap string string) :
  length (pairs_in_key_order m) = size m.
Proof.
  unfold pairs_in_key_order.
  by rewrite (Permutation_length (merge_sort_Permutation key_le _)),
    length_map_to_list.
Qed.

(** What [addCompileCommand] writes besides the file table. *)
Lemma addCompileCommand_frame (cwd : string) (command_ : CompileCommand)
    (buildAction_ : BuildAction) (error_ : bool) (d : Db) :
  let d' := addCompileCommand cwd command_ buildAction_ error_ d in
  ∃ ss ts,
    d' = set_build (buildActions d) (buildSources d ++ ss)
           (buildTargets d ++ ts) (set_files (files d') d)
    ∧ length ss = size (extractInputOutputs cwd command_)
    ∧ length ts = size (extractInputOutputs cwd command_)
    ∧ Forall (λ s, source_action s = action_id buildAction_) ss
    ∧ Forall (λ t, target_action t = action_id buildAction_) ts.
Proof.
  cbv zeta. unfold addCompileCommand.
  rewrite <-(pairs_in_key_order_length (extractInputOutputs cwd command_)).
  set (l0 := {| ledger_db := d; ledger_sources := [];
                ledger_targets := [] |}).
  pose proof (foldl_inv (recordPair buildAction_ error_)
    (λ pre l,
       ledger_db l = set_files (files (ledger_db l)) d
       ∧ length (ledger_sources l) = length pre
       ∧ length (ledger_targets l) = length pre
       ∧ Forall (λ s, source_action s = action_id buildAction_)
           (ledger_sources l)
       ∧ Forall (λ t, target_action t = action_id buildAction_)
           (ledger_targets l))
    (pairs_in_key_order (extractInputOutputs cwd command_)) l0) as Hinv.
  destruct Hinv as (Hdb & Hls & Hlt & Hs & Ht).
  - simpl. by rewrite set_files_files.
  - intros pre [src tgt] l (Hdb & Hls & Hlt & Hs & Ht) _.
    destruct (recordPair_frame d buildAction_ error_ l (src, tgt) Hdb)
      as (Hdb' & (s & -> & Hsa) & (t & -> & Hta)).
    rewrite !length_app, Hls, Hlt. simpl.
    split_and!; [done..| |].
    + apply Forall_app. by split; [|apply Forall_singleton].
    + apply Forall_app. by split; [|apply Forall_singleton].
  - set (l := foldl _ l0 _) in *.
    exists (ledger_sources l), (ledger_targets l).
    split_and!; [|done..]. rewrite Hdb at 1 2 3 4. reflexivity.
Qed.

Lemma addCompileCommand_buildActions (cwd : string)
    (command_ : CompileCommand) (buildAction_ : BuildAction) (error_ : bool)
    (d : Db) :
  buildActions (addCompileCommand cwd command_ buildAction_ error_ d)
  = buildActions d.
Proof.
  destruct (addCompileCommand_frame cwd command_ buildAction_ error_ d)
    as (ss & ts & -> & _). done.
Qed.

(** Every row of the file table has a descendant after the command is
    recorded. *)
Lemma addCompileCommand_files_evolve (cwd : string)
    (command_ : CompileCommand) (buildAction_ : BuildAction) (error_ : bool)
    (d : Db) :
  NoDup (file_id <$> files d) →
  files_evolve (status_of error_) d
    (addCompileCommand cwd command_ buildAction_ error_ d).
Proof.
  intros Hnd. unfold addCompileCommand.
  set (l0 := {| ledger_db := d; ledger_sources := [];
                ledger_targets := [] |}).
  pose proof (foldl_inv (recordPair buildAction_ error_)
    (λ pre l, files_evolve (status_of error_) d (ledger_db l))
    (pairs_in_key_order (extractInputOutputs cwd command_)) l0) as Hinv.
  apply Hinv.
  - by apply files_evolve_refl.
  - intros pre [src tgt] l Hev _.
    pose proof (recordPair_spec buildAction_ error_ l src tgt (proj1 Hev))
      as (Hev' & _).
    by eapply files_evolve_trans.
Qed.

(** X7: recording a command with [addCompileCommand] adds one
    [BuildSource] row and one [BuildTarget] row per input/output pair, all
    for the given action, after the rows already there; it leaves every
    other table but the file table as it is; and when the file id is a key,
    every row of the file table keeps its id and its path, and stays
    binary when it was. *)
Theorem addCompileCommand_only_adds (cwd : string) (command_ : CompileCommand)
    (buildAction_ : BuildAction) (error_ : bool) (d : Db) :
  NoDup (file_id <$> files d) →
  let d' := addCompileCommand cwd command_ buildAction_ error_ d in
  (∃ ss ts,
     d' = set_build (buildActions d) (buildSources d ++ ss)
            (buildTargets d ++ ts) (set_files (files d') d)
     ∧ length ss = size (extractInputOutputs cwd command_)
     ∧ length ts = size (extractInputOutputs cwd command_)
     ∧ Forall (λ s, source_action s = action_id buildAction_) ss
     ∧ Forall (λ t, target_action t = action_id buildAction_) ts)
  ∧ files_evolve (status_of error_) d d'.
Proof.
  intros Hnd. split.
  - apply addCompileCommand_frame.
  - by apply addCompileCommand_files_evolve.
Qed.

Lemma addCompileCommand_only_adds_witness :
  let d := (addBuildAction demo_command demo_project).2 in
  let d' := addCompileCommand "/" demo_command
              (addBuildAction demo_command demo_project).1 true d in
  (∃ ss ts,
     d' = set_build (buildActions d) (buildSources d ++ ss)
            (buildTargets d ++ ts) (set_files (files d') d)
     ∧ length ss = size (extractInputOutputs "/" demo_command)
     ∧ length ts = size (extractInputOutputs "/" demo_command)
     ∧ Forall (λ s, source_action s
                    = action_id (addBuildAction demo_command demo_project).1)
         ss
     ∧ Forall (λ t, target_action t
                    = action_id (addBuildAction demo_command demo_project).1)
         ts)
  ∧ files_evolve (status_of true) d d'.
Proof.
  apply (addCompileCommand_only_adds "/" demo_command
           (addBuildAction demo_command demo_project).1 true
           (addBuildAction demo_command demo_project).2).
  apply (bool_decide_eq_true_1 _). vm_compute. reflexivity.
Defined.

(** X25: a job whose command line has a compiler name and yields a
    compilation database runs the external parse and returns its result
    code. Every argument that [extractInputOutputs] takes as an input (an
    argument read while no operand of [-o] is awaited, with a source
    extension and not beginning with [-Wl,]) then has a row of the file
    table under its absolute path, with the parse status
    [PSPartiallyParsed] if the code is not zero and [PSFullyParsed] if it
    is, and a [BuildSource] row for the build action of the job; and the
    path that [extractInputOutputs] gives as its output has a row of type
    [BINARY_TYPE] and a [BuildTarget] row for that action. The store that
    the parse leaves is taken to have the file id as a key. *)
Theorem worker_records_outcome (cwd : string)
    (loadFromCommandLine : list string → bool)
    (tool_run : CompileCommand → Db → Z * Db)
    (command_ : CompileCommand) (d : Db) (compiler : string)
    (arguments pre : list string) (arg : string) (post : list string) :
  CommandLine command_ = compiler :: arguments →
  loadFromCommandLine ("--" :: arguments) = true →
  let buildAction := (addBuildAction command_ d).1 in
  let parsed := tool_run command_ (addBuildAction command_ d).2 in
  NoDup (file_id <$> files parsed.2) →
  CommandLine command_ = (pre ++ arg :: post)%list →
  state (scan_args cwd (Directory command_) pre) = StNone →
  isSourceFile arg = true → isNonSourceFlag arg = false →
  ∃ d' tgt,
    worker cwd loadFromCommandLine tool_run command_ d = Ok (parsed.1, d')
    ∧ extractInputOutputs cwd command_
        !! Fs.absolute cwd arg (Directory command_) = Some tgt
    ∧ (∃ f, f ∈ files d'
            ∧ file_path f = Fs.absolute cwd arg (Directory command_)
            ∧ file_parseStatus f
              = (if bool_decide (parsed.1 ≠ 0%Z) then PSPartiallyParsed
                 else PSFullyParsed)
            ∧ {| source_file := file_id f;
                 source_action := action_id buildAction |}
                ∈ buildSources d')
    ∧ (∃ g, g ∈ files d' ∧ file_path g = tgt
            ∧ file_type g = BINARY_TYPE
            ∧ {| target_file := file_id g;
                 target_action := action_id buildAction |}
                ∈ buildTargets d').
Proof.
  intros Hline Hload buildAction parsed Hnd Hsplit Hstate Hsrc Hflag.
  subst buildAction parsed.
  assert (Fs.absolute cwd arg (Directory command_)
          ∈ dom (extractInputOutputs cwd command_)) as [tgt Htgt]%elem_of_dom.
  { rewrite dom_extractInputOutputs. apply scan_args_sources_iff.
    by exists pre, arg, post. }
  unfold worker. rewrite Hline, Hload. cbn [negb].
  destruct (addBuildAction command_ d) as [ba d1] eqn:Hadd.
  cbn [fst snd] in *.
  destruct (tool_run command_ d1) as [error d2]. cbn [fst snd] in *.
  eexists _, tgt. split; [done|]. split; [done|].
  apply (addCompileCommand_spec cwd command_ ba _ d2 _ tgt Hnd Htgt).
Qed.

Lemma worker_records_outcome_witness :
  ∃ d' tgt,
    worker "/" (λ _, true) demo_failing_parse demo_link demo_project
    = Ok (1%Z, d')
    ∧ extractInputOutputs "/" demo_link !! "/b.o" = Some tgt
    ∧ (∃ f, f ∈ files d' ∧ file_path f = "/b.o"
            ∧ file_parseStatus f = PSPartiallyParsed
            ∧ {| source_file := file_id f; source_action := 2%N |}
                ∈ buildSources d')
    ∧ (∃ g, g ∈ files d' ∧ file_path g = tgt
            ∧ file_type g = BINARY_TYPE
            ∧ {| target_file := file_id g; target_action := 2%N |}
                ∈ buildTargets d').
Proof.
  apply (worker_records_outcome "/" (λ _, true) demo_failing_parse
           demo_link demo_project "gcc" ["b.o"; "-o"; "prog"] ["gcc"]
           "b.o" ["-o"; "prog"]).
  - reflexivity.
  - reflexivity.
  - apply (bool_decide_eq_true_1 _). vm_compute. reflexivity.
  - reflexivity.
  - reflexivity.
  - reflexivity.
  - reflexivity.
Defined.

Example demo_link_recorded :
  extractInputOutputs "/" demo_link = {[ "/b.o" := "/prog" ]}.
Proof. vm_compute. reflexivity. Qed.

(** ** Runs of [parse] *)

Section ParseSpec.

Variable cwd : string.
Variable fs_exists : string → bool.
Variable fs_read : string → option string.
Variable sha1Hash : string → string.
Variable edge_cascade : bool.
Variable store_error : string → bool.
Variable loadFromCommandLine : list string → bool.
Variable tool_run : CompileCommand → Db → Z * Db.
Variable fnvHash : string → N.
Variable is_regular_file : string → bool.
Variable loadFromFile : string → option (list CompileCommand).

Local Abbreviation worker' := (worker cwd loadFromCommandLine tool_run).
Local Abbreviation run_jobs' := (run_jobs cwd loadFromCommandLine tool_run).
Local Abbreviation parseByJson' :=
  (parseByJson cwd loadFromCommandLine tool_run fnvHash loadFromFile).
Local Abbreviation parseInput' :=
  (parseInput cwd loadFromCommandLine tool_run fnvHash is_regular_file
     loadFromFile).
Local Abbreviation invalidate' :=
  (invalidate fs_exists fs_read sha1Hash edge_cascade store_error).
Local Abbreviation parse' :=
  (parse cwd fs_exists fs_read sha1Hash edge_cascade store_error
     loadFromCommandLine tool_run fnvHash is_regular_file loadFromFile).
Local Abbreviation inputs_spec' :=
  (inputs_spec fnvHash is_regular_file loadFromFile).

Lemma foldM_parseInput_regular acc inputs :
  foldM parseInput' inputs acc
  = foldM parseInput' (filter (λ i, is_regular_file i = true) inputs) acc.
Proof.
  revert acc. induction inputs as [|i inputs IH]; intros acc; [done|].
  destruct (is_regular_file i) eqn:Hreg.
  - rewrite filter_cons_True by done. cbn [foldM].
    destruct (parseInput' acc i) as [acc'| |]; simpl; [apply IH|done..].
  - rewrite filter_cons_False by (rewrite Hreg; done). cbn [foldM].
    rewrite <-IH. destruct acc as [success q].
    unfold parseInput. by rewrite Hreg.
Qed.

(** X8: an input path that is not a regular file has no effect at all:
    [parse] ends as it does on the list of the inputs that are regular
    files. *)
Theorem parse_skips_non_regular_inputs (incremental : bool)
    (inputs : list string) (p : Parser) :
  parse cwd fs_exists fs_read sha1Hash edge_cascade store_error
    loadFromCommandLine tool_run fnvHash is_regular_file loadFromFile
    incremental inputs p
  = parse cwd fs_exists fs_read sha1Hash edge_cascade store_error
      loadFromCommandLine tool_run fnvHash is_regular_file loadFromFile
      incremental (filter (λ i, is_regular_file i = true) inputs) p.
Proof.
  unfold parse. destruct (invalidate' incremental p) as [p1| |]; [|done..].
  simpl. by rewrite foldM_parseInput_regular.
Qed.

(** X9: once the invalidation pass, if any, has completed, and when every
    command of the databases of the inputs has a compiler name, [parse]
    returns; it returns true exactly when the compilation database of every
    input that is a regular file loads, whatever the workers report; in
    that case it has loaded each of these inputs once, in the order given;
    and it leaves [_parsedCommandHashes] empty. *)
Theorem parse_succeeds_iff_inputs_load (incremental : bool)
    (inputs : list string) (p p1 : Parser) :
  invalidate fs_exists fs_read sha1Hash edge_cascade store_error
    incremental p = Ok p1 →
  (∀ i cs c, i ∈ inputs → is_regular_file i = true →
             loadFromFile i = Some cs → c ∈ cs → CommandLine c ≠ []) →
  ∃ success p',
    parse cwd fs_exists fs_read sha1Hash edge_cascade store_error
      loadFromCommandLine tool_run fnvHash is_regular_file loadFromFile
      incremental inputs p = Ok (success, p')
    ∧ (success = true
       ↔ ∀ i, i ∈ inputs → is_regular_file i = true →
              is_Some (loadFromFile i))
    ∧ (success = true →
       loaded p'
       = (loaded p ++ filter (λ i, is_regular_file i = true) inputs)%list)
    ∧ _parsedCommandHashes p' = ∅.
Proof.
  intros Hinv Hcmd.
  destruct (invalidate_keeps _ _ _ _ _ _ _ _ Hinv) as (_ & Hl & _).
  destruct (parse_returns cwd fs_exists fs_read sha1Hash edge_cascade
              store_error loadFromCommandLine tool_run fnvHash
              is_regular_file loadFromFile incremental inputs p p1 Hinv Hcmd)
    as ([success q] & -> & Hok & Hloaded & _).
  cbn [fst snd] in *.
  exists success, (clear_hashes q). split_and!; [done..| |done].
  intros Hs. simpl. by rewrite Hloaded, <-Hl.
Qed.

(** X10: in one run of [parse] on databases whose commands have a
    compiler name, the jobs enqueued have pairwise distinct command-line
    hashes, none of which is in the set the loop starts from, that is
    [_parsedCommandHashes] with the hashes of the stored build actions
    added; and when [parse] returns true, every command of every loaded
    database has its hash in that set or has a job with its hash. *)
Theorem parse_dispatches_each_new_hash_once (incremental : bool)
    (inputs : list string) (p p1 : Parser) :
  invalidate fs_exists fs_read sha1Hash edge_cascade store_error
    incremental p = Ok p1 →
  (∀ i cs c, i ∈ inputs → is_regular_file i = true →
             loadFromFile i = Some cs → c ∈ cs → CommandLine c ≠ []) →
  let seeded :=
    _parsedCommandHashes p
    ∪ list_to_set (fnvHash <$> (command <$> buildActions (db p1))) in
  ∃ success p' new,
    parse cwd fs_exists fs_read sha1Hash edge_cascade store_error
      loadFromCommandLine tool_run fnvHash is_regular_file loadFromFile
      incremental inputs p = Ok (success, p')
    ∧ enqueued p' = (enqueued p ++ new)%list
    ∧ NoDup (line_hash fnvHash <$> (job_command <$> new))
    ∧ (∀ job, job ∈ new → line_hash fnvHash (job_command job) ∉ seeded)
    ∧ (success = true →
       ∀ i cs c, i ∈ inputs → is_regular_file i = true →
         loadFromFile i = Some cs → c ∈ cs →
         line_hash fnvHash c ∈ seeded
         ∨ line_hash fnvHash c
           ∈ line_hash fnvHash <$> (job_command <$> new)).
Proof.
  intros Hinv Hcmd. cbv zeta.
  destruct (invalidate_keeps _ _ _ _ _ _ _ _ Hinv) as (He & _ & Hh).
  destruct (parse_returns cwd fs_exists fs_read sha1Hash edge_cascade
              store_error loadFromCommandLine tool_run fnvHash
              is_regular_file loadFromFile incremental inputs p p1 Hinv Hcmd)
    as ([success q] & ->
        & _ & _ & _ & new & Henq & Hnd & Hiff & Hfresh & Hall & _).
  rewrite initBuildActions_exact, Hh in Hfresh, Hiff.
  cbn [fst snd] in *.
  exists success, (clear_hashes q), new. split_and!; [done| |done..|].
  - simpl. by rewrite Henq, <-He.
  - intros Hs i cs c Hi Hreg Hload Hc. apply Hiff. by eapply Hall.
Qed.

(** What a worker that returns leaves in the table of build actions,
    when the external parse deletes none: the actions that were there, and,
    if a compilation database could be built, one for the command. *)
Lemma worker_buildActions command_ d r :
  (∀ d ba, ba ∈ buildActions d → ba ∈ buildActions (tool_run command_ d).2) →
  worker' command_ d = Ok r →
  buildActions d ⊆ buildActions r.2
  ∧ (loadFromCommandLine ("--" :: tail (CommandLine command_)) = true →
     ∃ ba, ba ∈ buildActions r.2
           ∧ command ba = Str.join " " (CommandLine command_)).
Proof.
  intros Hkeep. unfold worker.
  destruct (CommandLine command_) as [|compiler arguments] eqn:Hline;
    [done|].
  cbn [tail]. rewrite <-Hline.
  destruct (loadFromCommandLine _) eqn:Hload; cbn [negb];
    [|intros [= <-]; by split].
  destruct (addBuildAction command_ d) as [ba d1] eqn:Hadd.
  specialize (Hkeep d1).
  destruct (tool_run command_ d1) as [error d2]. cbn [fst snd] in Hkeep.
  intros [= <-]. cbn [fst snd].
  rewrite addCompileCommand_buildActions.
  unfold addBuildAction in Hadd. injection Hadd as <- <-.
  cbn [buildActions set_build] in Hkeep. split.
  - intros ba Hba. apply Hkeep, elem_of_app. by left.
  - intros _. eexists. split.
    + apply Hkeep, elem_of_app. right. by apply list_elem_of_singleton.
    + reflexivity.
Qed.

Lemma run_jobs_buildActions jobs d d' :
  (∀ c d ba, ba ∈ buildActions d → ba ∈ buildActions (tool_run c d).2) →
  run_jobs' jobs d = Ok d' →
  buildActions d ⊆ buildActions d'
  ∧ ∀ job, job ∈ jobs →
      loadFromCommandLine ("--" :: tail (CommandLine (job_command job)))
      = true →
      ∃ ba, ba ∈ buildActions d'
            ∧ command ba = Str.join " " (CommandLine (job_command job)).
Proof.
  intros Hkeep. unfold run_jobs.
  apply (foldM_Ok_inv _
    (λ pre b,
       buildActions d ⊆ buildActions b
       ∧ ∀ job, job ∈ pre →
           loadFromCommandLine ("--" :: tail (CommandLine (job_command job)))
           = true →
           ∃ ba, ba ∈ buildActions b
                 ∧ command ba = Str.join " " (CommandLine (job_command job)))).
  - split; [done|]. by intros job ?%elem_of_nil.
  - intros pre job b b1 [Hsub Hrec] _ (r & Hr & [= <-])%bind_Ok_inv.
    destruct (worker_buildActions (job_command job) b r (Hkeep _) Hr)
      as [Hsub' Hrec'].
    split; [by etrans|].
    intros job' [Hin| ->%list_elem_of_singleton]%elem_of_app Hload; [|auto].
    destruct (Hrec job' Hin Hload) as (ba & Hba & Hcmd).
    exists ba. split; [by apply Hsub'|done].
Qed.

(** Through a loop over the inputs that returns, the table of build
    actions keeps its rows, and every job enqueued on the way has left
    one. *)
Lemma foldM_parseInput_records p0 inputs acc :
  (∀ c, loadFromCommandLine ("--" :: tail (CommandLine c)) = true) →
  (∀ c d ba, ba ∈ buildActions d → ba ∈ buildActions (tool_run c d).2) →
  foldM parseInput' inputs (true, p0) = Ok acc →
  buildActions (db p0) ⊆ buildActions (db acc.2)
  ∧ ∀ job, job ∈ enqueued acc.2 →
      job ∈ enqueued p0
      ∨ ∃ ba, ba ∈ buildActions (db acc.2)
              ∧ command ba = Str.join " " (CommandLine (job_command job)).
Proof.
  intros Hload Hkeep.
  apply (foldM_Ok_inv parseInput'
    (λ _ acc,
       buildActions (db p0) ⊆ buildActions (db acc.2)
       ∧ ∀ job, job ∈ enqueued acc.2 →
           job ∈ enqueued p0
           ∨ ∃ ba, ba ∈ buildActions (db acc.2)
                   ∧ command ba
                     = Str.join " " (CommandLine (job_command job)))).
  - split; [done|]. intros job Hjob. by left.
  - intros pre input [success q] acc1 [Hsub Hrec] _.
    cbn [fst snd] in Hsub, Hrec.
    unfold parseInput.
    destruct (is_regular_file input); [|by intros [= <-]].
    destruct success; [|by intros [= <-]].
    destruct (loadFromFile input) as [cs|] eqn:Hcs.
    + pose proof (parseByJson_Some cwd loadFromCommandLine tool_run fnvHash
                    loadFromFile input q cs Hcs) as Hstep.
      intros Hrun. rewrite Hrun in Hstep. cbn [outcome] in Hstep.
      destruct Hstep as (_ & _ & _ & new & Henq & _ & _ & _ & _ & _ & Hdb).
      rewrite Henq.
      destruct (run_jobs_buildActions new (db q) _ Hkeep Hdb)
        as [Hsub' Hrec'].
      split; [by etrans|].
      intros job [Hin|Hin]%elem_of_app.
      * destruct (Hrec job Hin) as [?|(ba & Hba & Hcmd)]; [by left|].
        right. exists ba. split; [by apply Hsub'|done].
      * right. by apply Hrec'.
    + rewrite (parseByJson_None _ _ _ _ _ _ _ Hcs). by intros [= <-].
Qed.

(** X11: a command with a compiler name for which a compilation database
    could be built is run by [worker], whatever the result code of the
    external parse, and has a build action in the store that [worker]
    leaves; if the external parse deletes no build action, a later run of
    [parse] on that store, on databases whose commands have a compiler
    name, enqueues no job whose command line has the hash of that
    command. *)
Theorem recorded_command_is_not_dispatched_again (command_ : CompileCommand)
    (compiler : string) (arguments : list string) (d : Db)
    (inputs : list string) :
  CommandLine command_ = compiler :: arguments →
  loadFromCommandLine ("--" :: arguments) = true →
  (∀ ba, ba ∈ buildActions (addBuildAction command_ d).2 →
         ba ∈ buildActions (tool_run command_ (addBuildAction command_ d).2).2) →
  (∀ i cs c, i ∈ inputs → is_regular_file i = true →
             loadFromFile i = Some cs → c ∈ cs → CommandLine c ≠ []) →
  ∃ error d' success p',
    worker cwd loadFromCommandLine tool_run command_ d = Ok (error, d')
    ∧ parse cwd fs_exists fs_read sha1Hash edge_cascade store_error
        loadFromCommandLine tool_run fnvHash is_regular_file loadFromFile
        false inputs (new_parser d')
      = Ok (success, p')
    ∧ ∀ job, job ∈ enqueued p' →
        line_hash fnvHash (job_command job) ≠ line_hash fnvHash command_.
Proof.
  intros Hline Hload Hkeep Hcmd.
  assert (∃ error d',
            worker' command_ d = Ok (error, d')
            ∧ ∃ ba, ba ∈ buildActions d'
                    ∧ command ba = Str.join " " (CommandLine command_))
    as (error & d' & Hrun & ba & Hba & Hcommand).
  { unfold worker. rewrite Hline, Hload. cbn [negb]. rewrite <-Hline.
    destruct (addBuildAction command_ d) as [ba d1] eqn:Hadd.
    cbn [fst snd] in Hkeep.
    destruct (tool_run command_ d1) as [error d2]. cbn [fst snd] in Hkeep.
    eexists _, _. split; [done|].
    rewrite addCompileCommand_buildActions.
    unfold addBuildAction in Hadd. injection Hadd as <- <-.
    eexists. split.
    - apply Hkeep. cbn [buildActions set_build]. apply elem_of_app. right.
      by apply list_elem_of_singleton.
    - reflexivity. }
  set (p0 := new_parser d').
  destruct (parse_returns cwd fs_exists fs_read sha1Hash edge_cascade
              store_error loadFromCommandLine tool_run fnvHash
              is_regular_file loadFromFile false inputs p0 p0 eq_refl Hcmd)
    as ([success q] & Hparse
        & _ & _ & _ & new & Henq & _ & _ & Hfresh & _).
  cbn [fst snd] in *.
  exists error, d', success, (clear_hashes q). split_and!; [done..|].
  intros job Hjob Heq.
  change (enqueued (clear_hashes q)) with (enqueued q) in Hjob.
  rewrite Henq in Hjob.
  apply (Hfresh job Hjob). rewrite Heq. unfold line_hash.
  rewrite <-Hcommand. by apply initBuildActions_hashes.
Qed.

(** X12: idempotence of a run without the invalidation pass: when every
    command yields a compilation database and the external parse deletes no
    build action, a run of [parse] that returned true is followed, on the
    store it left and with the same inputs, by a run that returns true,
    enqueues no job and leaves the store as it is. *)
Theorem second_run_dispatches_nothing (inputs : list string) (d : Db)
    (p1 : Parser) :
  (∀ c, loadFromCommandLine ("--" :: tail (CommandLine c)) = true) →
  (∀ c d ba, ba ∈ buildActions d → ba ∈ buildActions (tool_run c d).2) →
  parse cwd fs_exists fs_read sha1Hash edge_cascade store_error
    loadFromCommandLine tool_run fnvHash is_regular_file loadFromFile
    false inputs (new_parser d) = Ok (true, p1) →
  ∃ p2,
    parse cwd fs_exists fs_read sha1Hash edge_cascade store_error
      loadFromCommandLine tool_run fnvHash is_regular_file loadFromFile
      false inputs (new_parser (db p1)) = Ok (true, p2)
    ∧ enqueued p2 = [] ∧ db p2 = db p1.
Proof.
  intros Hload Hkeep.
  rewrite (parse_unfold _ _ _ _ _ _ _ _ _ _ _ false inputs (new_parser d)
             (new_parser d) eq_refl).
  intros ([success1 q1] & Hrun1 & [= -> <-])%bind_Ok_inv.
  pose proof (foldM_parseInput_spec cwd loadFromCommandLine tool_run fnvHash
                is_regular_file loadFromFile
                (initBuildActions fnvHash (new_parser d)) inputs) as Hspec1.
  rewrite Hrun1 in Hspec1. cbn [outcome] in Hspec1.
  destruct Hspec1 as (Hok1 & _ & _ & new1 & Henq1 & _ & Hiff1 & _ & Hall1 & _).
  destruct (foldM_parseInput_records
              (initBuildActions fnvHash (new_parser d)) inputs _ Hload Hkeep
              Hrun1) as [Hsub1 Hrec1].
  cbn [fst snd] in *.
  change (db (clear_hashes q1)) with (db q1).
  set (p0 := new_parser (db q1)).
  assert (∀ i cs c, i ∈ inputs → is_regular_file i = true →
            loadFromFile i = Some cs → c ∈ cs →
            line_hash fnvHash c
            ∈ _parsedCommandHashes (initBuildActions fnvHash p0)) as Hseeded.
  { intros i cs c Hi Hreg Hcs Hc.
    rewrite initBuildActions_exact.
    apply elem_of_union_r, elem_of_list_to_set.
    assert (∃ ba, ba ∈ buildActions (db q1)
                  ∧ fnvHash (command ba) = line_hash fnvHash c)
      as (ba & Hba & <-);
      [|by do 2 apply list_elem_of_fmap_2].
    pose proof (Hall1 eq_refl i cs _ Hi Hreg Hcs Hc) as Hin.
    apply Hiff1 in Hin as [Hin|Hin].
    - rewrite initBuildActions_exact in Hin.
      apply elem_of_union in Hin as [Hin|Hin]; [set_solver|].
      apply elem_of_list_to_set in Hin
        as (cmd & Hcmd & (ba & -> & Hba)%list_elem_of_fmap)%list_elem_of_fmap.
      exists ba. split; [by apply Hsub1|done].
    - apply list_elem_of_fmap in Hin
        as (c1 & Hc1 & (job1 & -> & Hjob1)%list_elem_of_fmap).
      destruct (Hrec1 job1) as [Hnil|(ba & Hba & Hcmd)].
      + rewrite Henq1. apply elem_of_app. by right.
      + by apply elem_of_nil in Hnil.
      + exists ba. split; [done|]. rewrite Hcmd. done. }
  pose proof (parse_spec cwd fs_exists fs_read sha1Hash edge_cascade
                store_error loadFromCommandLine tool_run fnvHash
                is_regular_file loadFromFile false inputs p0 p0 eq_refl)
    as Hspec2.
  destruct (parse _ _ _ _ _ _ _ _ _ _ _ _ _ _) as [[success2 p2]| |];
    cbn [outcome] in Hspec2.
  - destruct Hspec2
      as ([success2' q2] & [= -> ->]
          & Hok2 & _ & _ & new2 & Henq2 & _ & _ & Hfresh2 & _ & Hdb2 & Hfrom2).
    cbn [fst snd] in *.
    assert (success2' = true) as -> by by apply Hok2, Hok1.
    assert (new2 = []) as ->.
    { destruct new2 as [|job rest]; [done|]. exfalso.
      destruct (Hfrom2 job ltac:(by left)) as (i & cs & Hi & Hreg & Hcs & Hc).
      apply (Hfresh2 job ltac:(by left)). by eapply Hseeded. }
    exists (clear_hashes q2). split_and!; [done| |].
    + change (enqueued (clear_hashes q2)) with (enqueued q2). by rewrite Henq2.
    + change (db (clear_hashes q2)) with (db q2). by rewrite Hdb2.
  - destruct Hspec2 as (i & cs & c & Hi & Hreg & Hcs & Hc & Hfresh & _).
    exfalso. apply Hfresh. by eapply Hseeded.
  - done.
Qed.

End ParseSpec.

(** *** Runs on small compilation databases *)

Lemma demo_commands_have_compiler (i : string) (cs : list CompileCommand)
    (c : CompileCommand) :
  demo_loadAll i = Some cs → c ∈ cs → CommandLine c ≠ [].
Proof.
  unfold demo_loadAll, demo_loadFromFile.
  repeat case_match; intros [= <-]; rewrite !elem_of_cons, elem_of_nil;
    intros Hc; by repeat destruct Hc as [->|Hc].
Qed.

Lemma parseByJson_dispatches_each_new_hash_once_witness :
  ∃ p' new,
    parseByJson "/" (λ _, true) demo_failing_parse demo_hash demo_loadAll
      "all.json" (new_parser empty_db) = Ok (true, p')
    ∧ enqueued p' = ([] ++ new)%list
    ∧ _parsedCommandHashes p'
      = ∅ ∪ list_to_set (line_hash demo_hash
                           <$> [demo_command; demo_link; demo_command])
    ∧ NoDup (line_hash demo_hash <$> (job_command <$> new))
    ∧ ∀ h, h ∈ line_hash demo_hash <$> (job_command <$> new)
           ↔ h ∈ line_hash demo_hash
                 <$> [demo_command; demo_link; demo_command]
             ∧ h ∉ (∅ : gset N).
Proof.
  apply (parseByJson_dispatches_each_new_hash_once "/" (λ _, true)
           demo_failing_parse demo_hash demo_loadAll "all.json"
           (new_parser empty_db) [demo_command; demo_link; demo_command]).
  - reflexivity.
  - intros c Hc. by apply (demo_commands_have_compiler "all.json" _ c eq_refl).
Defined.

Lemma parseByJson_job_indices_witness :
  ∃ p' new,
    parseByJson "/" (λ _, true) demo_failing_parse demo_hash demo_loadAll
      "all.json" (new_parser empty_db) = Ok (true, p')
    ∧ enqueued p' = ([] ++ new)%list
    ∧ StronglySorted lt (job_index <$> new)
    ∧ ∀ job, job ∈ new →
        ∃ k, job_index job = S k
             ∧ [demo_command; demo_link; demo_command] !! k
               = Some (job_command job)
             ∧ ∀ j c', (j < k)%nat →
                 [demo_command; demo_link; demo_command] !! j = Some c' →
                 line_hash demo_hash c'
                 ≠ line_hash demo_hash (job_command job).
Proof.
  apply (parseByJson_job_indices "/" (λ _, true) demo_failing_parse demo_hash
           demo_loadAll "all.json" (new_parser empty_db)
           [demo_command; demo_link; demo_command]).
  - reflexivity.
  - intros c Hc. by apply (demo_commands_have_compiler "all.json" _ c eq_refl).
Defined.

Example demo_all_json_jobs :
  ∃ p', parseByJson "/" (λ _, true) demo_failing_parse demo_hash
          demo_loadAll "all.json" (new_parser empty_db) = Ok (true, p')
        ∧ enqueued p'
          = [ {| job_command := demo_command; job_index := 1 |};
              {| job_command := demo_link; job_index := 2 |} ].
Proof. eexists. split; [vm_compute; reflexivity|]. reflexivity. Qed.

Lemma parse_succeeds_iff_inputs_load_witness :
  ∃ success p',
    parse "/" (λ _, true) (λ _, Some "") id true (λ _, false) (λ _, true)
      demo_failing_parse demo_hash (λ i, negb (String.eqb i "dir"))
      demo_loadAll false ["all.json"; "dir"; "good.json"]
      (new_parser empty_db)
    = Ok (success, p')
    ∧ (success = true
       ↔ ∀ i, i ∈ ["all.json"; "dir"; "good.json"] →
              negb (String.eqb i "dir") = true → is_Some (demo_loadAll i))
    ∧ (success = true →
       loaded p'
       = ([] ++ filter (λ i, negb (String.eqb i "dir") = true)
                  ["all.json"; "dir"; "good.json"])%list)
    ∧ _parsedCommandHashes p' = ∅.
Proof.
  apply (parse_succeeds_iff_inputs_load "/" (λ _, true) (λ _, Some "") id
           true (λ _, false) (λ _, true) demo_failing_parse demo_hash
           (λ i, negb (String.eqb i "dir")) demo_loadAll false
           ["all.json"; "dir"; "good.json"] (new_parser empty_db)
           (new_parser empty_db)).
  - reflexivity.
  - intros i cs c _ _. apply demo_commands_have_compiler.
Defined.

Lemma parse_dispatches_each_new_hash_once_witness :
  ∃ success p' new,
    parse "/" (λ _, true) (λ _, Some "") id true (λ _, false) (λ _, true)
      demo_failing_parse demo_hash (λ _, true) demo_loadAll false
      ["all.json"; "good.json"] (new_parser demo_project)
    = Ok (success, p')
    ∧ enqueued p' = ([] ++ new)%list
    ∧ NoDup (line_hash demo_hash <$> (job_command <$> new))
    ∧ (∀ job, job ∈ new →
         line_hash demo_hash (job_command job)
         ∉ (∅ : gset N)
           ∪ list_to_set (demo_hash
                            <$> (command <$> buildActions demo_project)))
    ∧ (success = true →
       ∀ i cs c, i ∈ ["all.json"; "good.json"] → true = true →
         demo_loadAll i = Some cs → c ∈ cs →
         line_hash demo_hash c
         ∈ (∅ : gset N)
           ∪ list_to_set (demo_hash
                            <$> (command <$> buildActions demo_project))
         ∨ line_hash demo_hash c
           ∈ line_hash demo_hash <$> (job_command <$> new)).
Proof.
  apply (parse_dispatches_each_new_hash_once "/" (λ _, true) (λ _, Some "")
           id true (λ _, false) (λ _, true) demo_failing_parse demo_hash
           (λ _, true) demo_loadAll false ["all.json"; "good.json"]
           (new_parser demo_project) (new_parser demo_project)).
  - reflexivity.
  - intros i cs c _ _. apply demo_commands_have_compiler.
Defined.

Lemma recorded_command_is_not_dispatched_again_witness :
  ∃ error d' success p',
    worker "/" (λ _, true) demo_failing_parse demo_command empty_db
    = Ok (error, d')
    ∧ parse "/" (λ _, true) (λ _, Some "") id true (λ _, false) (λ _, true)
        demo_failing_parse demo_hash (λ _, true) demo_loadAll false
        ["all.json"] (new_parser d')
      = Ok (success, p')
    ∧ ∀ job, job ∈ enqueued p' →
        line_hash demo_hash (job_command job)
        ≠ line_hash demo_hash demo_command.
Proof.
  apply (recorded_command_is_not_dispatched_again "/" (λ _, true)
           (λ _, Some "") id true (λ _, false) (λ _, true)
           demo_failing_parse demo_hash (λ _, true) demo_loadAll
           demo_command "gcc" ["-c"; "b.cpp"] empty_db ["all.json"]).
  - reflexivity.
  - reflexivity.
  - intros ba Hba. exact Hba.
  - intros i cs c _ _. apply demo_commands_have_compiler.
Defined.

Lemma second_run_dispatches_nothing_witness :
  ∃ p2, demo_run (db demo_first_run) = Ok (true, p2)
        ∧ enqueued p2 = [] ∧ db p2 = db demo_first_run.
Proof.
  apply (second_run_dispatches_nothing "/" (λ _, true) (λ _, Some "") id true
           (λ _, false) (λ _, true) demo_failing_parse demo_hash (λ _, true)
           demo_loadAll ["all.json"; "good.json"] empty_db demo_first_run).
  - reflexivity.
  - intros c d ba Hba. exact Hba.
  - vm_compute. reflexivity.
Defined.

Example demo_first_run_actions :
  command <$> buildActions (db demo_first_run)
  = ["gcc -c b.cpp"; "gcc b.o -o prog"]
  ∧ job_index <$> enqueued demo_first_run = [1; 2].
Proof. vm_compute. by split. Qed.

(** ** The classification, continued *)

Lemma rtc_includer_row_elem (d : Db) (f g : File) :
  f ∈ files d → rtc (includer_row d) f g → g ∈ files d.
Proof.
  intros Hf [->|(h & _ & Hg & _)]%rtc_inv_r; done.
Qed.

(** What the cascade from [f] newly classifies is [MODIFIED] and is the
    path of [f] or of a row that includes [f] through a chain of rows; what
    was classified stays as it was. *)
Lemma markAsModified_fuel_sound (d : Db) (fuel : nat) (f : File)
    (st : gmap string IncrementalStatus) :
  outcome True True
    (λ st', st ⊆ st'
       ∧ ∀ p, p ∈ dom st' → p ∉ dom st →
           st' !! p = Some MODIFIED
           ∧ ∃ g, file_path g = p ∧ rtc (includer_row d) f g)
    (markAsModified_fuel fuel d f st).
Proof.
  revert f st. induction fuel as [|k IH]; intros f st; simpl.
  - destruct (st !! file_path f) eqn:Hst; simpl; [|done].
    split; [done|]. by intros p Hp Hnp.
  - destruct (st !! file_path f) eqn:Hst; simpl.
    { split; [done|]. by intros p Hp Hnp. }
    set (st1 := <[file_path f := MODIFIED]> st).
    assert (st ⊆ st1) as Hst1 by by apply insert_subseteq.
    eapply outcome_impl; last apply (foldM_outcome _ _ _
      (λ _ st', st1 ⊆ st'
         ∧ ∀ p, p ∈ dom st' → p ∉ dom st1 →
             st' !! p = Some MODIFIED
             ∧ ∃ g, file_path g = p ∧ rtc (includer_row d) f g)).
    + simpl. intros st' (Hsub & Hnew). split; [by etrans|].
      intros p Hp Hnp. destruct (decide (p = file_path f)) as [->|Hne].
      * split; [|by exists f].
        eapply lookup_weaken; [|done]. apply lookup_insert_eq.
      * apply Hnew; [done|]. unfold st1. rewrite dom_insert_L. set_solver.
    + split; [done|]. by intros p Hp Hnp.
    + intros pre inc st' (Hsub & Hnew) [Hincd Hinc]%list_elem_of_filter.
      destruct (load_File d (includer inc)) as [g| |] eqn:Hload; simpl;
        [|done..].
      apply load_File_elem in Hload as [Hg Hgid].
      eapply outcome_impl; last apply IH. simpl.
      intros st'' (Hsub' & Hnew'). split; [by etrans|].
      intros p Hp Hnp. destruct (decide (p ∈ dom st')) as [Hp'|Hp'].
      * destruct (Hnew p Hp' Hnp) as [Hmod Hchain].
        split; [by eapply lookup_weaken|done].
      * destruct (Hnew' p Hp Hp') as [Hmod (h & Hh & Hchain)].
        split; [done|]. exists h. split; [done|].
        eapply rtc_l; [|done]. split; [done|]. by exists inc.
Qed.

(** When the cascade from [f] returns, the path of [f] is classified. *)
Lemma markAsModified_fuel_start (d : Db) (fuel : nat) (f : File)
    (st : gmap string IncrementalStatus) :
  outcome True True (λ st', file_path f ∈ dom st')
    (markAsModified_fuel fuel d f st).
Proof.
  destruct fuel as [|k]; simpl.
  - destruct (st !! file_path f) eqn:Hst; simpl; [|done].
    by apply elem_of_dom.
  - destruct (st !! file_path f) eqn:Hst; simpl; [by apply elem_of_dom|].
    eapply outcome_impl; last apply (foldM_outcome _ True True
      (λ _ st', <[file_path f := MODIFIED]> st ⊆ st')); [|done|].
    + simpl. intros st' Hsub. apply (subseteq_dom _ _ Hsub).
      rewrite dom_insert_L. set_solver.
    + intros pre inc st' Hsub _.
      destruct (load_File d (includer inc)) as [g| |]; simpl; [|done..].
      eapply outcome_impl; last apply (markAsModified_fuel_sound d k g st').
      simpl. intros st'' [Hsub' _]. by etrans.
Qed.

Lemma status_insert_lookup (p q : string) (s : IncrementalStatus)
    (st : gmap string IncrementalStatus) :
  status_insert p s st !! q
  = match st !! q with
    | Some s' => Some s'
    | None => if decide (p = q) then Some s else None
    end.
Proof.
  unfold status_insert. destruct (st !! p) as [s0|] eqn:Hp.
  - destruct (st !! q) eqn:Hq; [done|]. case_decide; [congruence|done].
  - rewrite lookup_insert. case_decide as Hpq.
    + subst q. by rewrite Hp.
    + by destruct (st !! q).
Qed.

Section ClassifySpec.

Variable fs_exists : string → bool.
Variable fs_read : string → option string.
Variable sha1Hash : string → string.
Variable d : Db.

Implicit Types (f g : File) (st : gmap string IncrementalStatus).

(** What the first loop newly classifies, and what holds of the scanned
    files that it leaves unclassified: they are on disk and read with their
    stored hashes. *)
Lemma classify_spec st0 :
  outcome True True
    (λ st, st0 ⊆ st
       ∧ (∀ p s, st !! p = Some s → st0 !! p = None →
            (s = DELETED
             ∧ ∃ f, f ∈ scanned_files d ∧ file_path f = p
                    ∧ fs_exists p = false)
            ∨ (s = MODIFIED
               ∧ ∃ f g, f ∈ scanned_files d
                        ∧ fs_exists (file_path f) = true
                        ∧ changed fs_read sha1Hash f
                        ∧ g ∈ files d ∧ file_path g = p
                        ∧ rtc (includer_row d) f g))
       ∧ ∀ f, f ∈ scanned_files d → st !! file_path f = None →
              fs_exists (file_path f) = true
              ∧ unchanged fs_read sha1Hash f)
    (classify fs_exists fs_read sha1Hash d st0).
Proof.
  unfold classify.
  eapply outcome_impl; last apply (foldM_outcome _ True True
    (λ pre st, st0 ⊆ st
       ∧ (∀ p s, st !! p = Some s → st0 !! p = None →
            (s = DELETED
             ∧ ∃ f, f ∈ scanned_files d ∧ file_path f = p
                    ∧ fs_exists p = false)
            ∨ (s = MODIFIED
               ∧ ∃ f g, f ∈ scanned_files d
                        ∧ fs_exists (file_path f) = true
                        ∧ changed fs_read sha1Hash f
                        ∧ g ∈ files d ∧ file_path g = p
                        ∧ rtc (includer_row d) f g))
       ∧ ∀ f, f ∈ pre → st !! file_path f = None →
              fs_exists (file_path f) = true
              ∧ unchanged fs_read sha1Hash f)).
  - simpl. intros st (Hsub & Hnew & Habs). split_and!; [done..|].
    intros f Hf. by apply Habs.
  - split_and!; [done| |by intros f ?%elem_of_nil].
    intros p s Hp Hnp. congruence.
  - intros pre f st (Hsub & Hnew & Habs) Hf.
    assert (∀ st', st ⊆ st' →
              (st' !! file_path f = None →
               fs_exists (file_path f) = true
               ∧ unchanged fs_read sha1Hash f) →
              ∀ f', f' ∈ (pre ++ [f])%list → st' !! file_path f' = None →
                fs_exists (file_path f') = true
                ∧ unchanged fs_read sha1Hash f') as Habs'.
    { intros st' Hsub' Hself f'
        [Hin| ->%list_elem_of_singleton]%elem_of_app Hnone;
        [|by apply Hself].
      apply (Habs f' Hin).
      destruct (st !! file_path f') as [s|] eqn:Hs; [|done].
      by rewrite (lookup_weaken _ _ _ _ Hs Hsub') in Hnone. }
    unfold classifyFile. destruct (fs_exists (file_path f)) eqn:Hex.
    + assert (outcome True True
                (λ st', st ⊆ st'
                   ∧ (∀ p, p ∈ dom st' → p ∉ dom st →
                        st' !! p = Some MODIFIED
                        ∧ ∃ g, file_path g = p ∧ rtc (includer_row d) f g
                               ∧ changed fs_read sha1Hash f)
                   ∧ (st' !! file_path f = None →
                      unchanged fs_read sha1Hash f))
                match st !! file_path f with
                | Some _ => Ok st
                | None =>
                    match file_content f with
                    | Some hash =>
                        match fs_read (file_path f) with
                        | Some fileContent =>
                            if bool_decide (hash ≠ sha1Hash fileContent)
                            then markAsModified d f st else Ok st
                        | None => Throw
                        end
                    | None => Ok st
                    end
                end) as Hstep.
      { destruct (st !! file_path f) eqn:Hst.
        { split_and!; [done|done|]. intros Hnone. congruence. }
        destruct (file_content f) as [hash|] eqn:Hcontent.
        2: { split_and!; [done|done|]. intros _ h Hh. congruence. }
        destruct (fs_read (file_path f)) as [fileContent|] eqn:Hread;
          [|done].
        case_bool_decide as Hhash.
        2: { split_and!; [done|done|]. intros _ h Hh.
             exists fileContent. split; [done|].
             destruct (decide (h = sha1Hash fileContent)); [done|].
             congruence. }
        pose proof (markAsModified_fuel_sound d (S (length (files d))) f st)
          as Hsound.
        pose proof (markAsModified_fuel_start d (S (length (files d))) f st)
          as Hstart.
        fold (markAsModified d f st) in Hsound, Hstart.
        destruct (markAsModified d f st) as [st'| |]; simpl in *; [|done..].
        destruct Hsound as [Hsub' Hnew']. split_and!; [done| |].
        - intros p Hp Hnp.
          destruct (Hnew' p Hp Hnp) as [Hmod (g & Hg & Hch)].
          split; [done|]. exists g. split_and!; [done..|].
          by exists hash, fileContent.
        - intros Hnone. by apply not_elem_of_dom in Hnone. }
      eapply outcome_impl; [|exact Hstep]. simpl.
      intros st' (Hsub' & Hnew' & Hself). split_and!; [by etrans| |].
      * intros p s Hp Hnp. destruct (st !! p) as [s'|] eqn:Hst.
        -- rewrite (lookup_weaken _ _ _ _ Hst Hsub') in Hp.
           injection Hp as <-. by apply Hnew.
        -- destruct (Hnew' p) as [Hmod (g & Hg & Hch & Hchanged)];
             [by apply elem_of_dom|by apply not_elem_of_dom|].
           right. split; [congruence|]. exists f, g.
           split_and!; [done..| |done|done].
           eapply rtc_includer_row_elem; [|done].
           by eapply scanned_files_elem.
      * apply (Habs' st' Hsub'). intros Hnone. split; [done|by apply Hself].
    + simpl. split_and!.
      * etrans; [done|apply status_insert_subseteq].
      * intros p s. rewrite status_insert_lookup.
        destruct (st !! p) as [s'|] eqn:Hst; [intros [= <-]; by apply Hnew|].
        case_decide as Hp; [|done]. intros [= <-] _. left.
        split; [done|]. exists f. subst p. by split_and!.
      * apply (Habs' _ (status_insert_subseteq _ _ _)).
        rewrite status_insert_lookup.
        destruct (st !! file_path f); [done|]. by rewrite decide_True.
Qed.

End ClassifySpec.

(** X13: the first loop of the pass changes no entry that [_fileStatus]
    holds; a path it newly classifies is [DELETED] only if it is the path of
    a scanned file that is absent from disk, and [MODIFIED] only if it is
    the path of a row that is, or includes through a chain of rows, a
    scanned file that is on disk with a stored hash other than the hash of
    its bytes; it is never [ADDED]. *)
Theorem classification_is_sound (fs_exists : string → bool)
    (fs_read : string → option string) (sha1Hash : string → string) (d : Db)
    (st0 st : gmap string IncrementalStatus) :
  classify fs_exists fs_read sha1Hash d st0 = Ok st →
  st0 ⊆ st
  ∧ ∀ p s, st !! p = Some s → st0 !! p = None →
      (s = DELETED
       ∧ ∃ f, f ∈ scanned_files d ∧ file_path f = p ∧ fs_exists p = false)
      ∨ (s = MODIFIED
         ∧ ∃ f g, f ∈ scanned_files d ∧ fs_exists (file_path f) = true
                  ∧ changed fs_read sha1Hash f
                  ∧ g ∈ files d ∧ file_path g = p
                  ∧ rtc (includer_row d) f g).
Proof.
  intros Hrun. pose proof (classify_spec fs_exists fs_read sha1Hash d st0) as H.
  rewrite Hrun in H. simpl in H. tauto.
Qed.

(** X14: every scanned file that is absent from disk is classified by the
    first loop; if it was not classified before the loop, it is [DELETED],
    or [MODIFIED] when a cascade reached it first. *)
Theorem absent_files_are_classified (fs_exists : string → bool)
    (fs_read : string → option string) (sha1Hash : string → string) (d : Db)
    (st0 st : gmap string IncrementalStatus) (f : File) :
  classify fs_exists fs_read sha1Hash d st0 = Ok st →
  f ∈ scanned_files d → fs_exists (file_path f) = false →
  ∃ s, st !! file_path f = Some s
       ∧ (st0 !! file_path f = None → s = DELETED ∨ s = MODIFIED).
Proof.
  intros Hrun Hf Hex.
  pose proof (classify_spec fs_exists fs_read sha1Hash d st0) as H.
  rewrite Hrun in H. simpl in H. destruct H as (_ & Hnew & Habs).
  destruct (st !! file_path f) as [s|] eqn:Hs.
  - exists s. split; [done|].
    intros Hnone. destruct (Hnew _ _ Hs Hnone) as [[-> _]|[-> _]]; auto.
  - destruct (Habs f Hf Hs) as [Hon _]. congruence.
Qed.

(** X15: on a store where file id and path are keys and includers
    resolve, the cascade from a row [f], started with nothing classified,
    returns; it classifies as [MODIFIED] exactly the paths of [f] and of the
    rows that include [f] through a chain of rows. *)
Theorem markAsModified_classifies_transitive_includers (d : Db) (f : File) :
  store_wf d → f ∈ files d →
  ∃ st, markAsModified d f ∅ = Ok st
        ∧ ∀ p s, st !! p = Some s
                 ↔ s = MODIFIED
                   ∧ ∃ g, file_path g = p ∧ rtc (includer_row d) f g.
Proof.
  intros Hwf Hf.
  destruct (markAsModified_Ok d Hwf f ∅ Hf) as (st & Hrun & _ & Hdom & Hcl).
  pose proof (markAsModified_fuel_sound d (S (length (files d))) f ∅) as Hs.
  fold (markAsModified d f ∅) in Hs. rewrite Hrun in Hs. simpl in Hs.
  destruct Hs as [_ Hs].
  exists st. split; [done|]. intros p s.
  assert (∀ q, q ∈ dom st → st !! q = Some MODIFIED) as Hmod.
  { intros q Hq. apply Hs; [done|]. rewrite dom_empty_L. set_solver. }
  split.
  - intros Hp. assert (p ∈ dom st) as Hpd by by apply elem_of_dom.
    destruct (Hs p Hpd) as [Hm Hg]; [rewrite dom_empty_L; set_solver|].
    split; [congruence|done].
  - intros (-> & g & <- & Hchain). apply Hmod.
    assert (g ∈ files d ∧ file_path g ∈ dom st) as [_ ?]; [|done].
    revert g Hchain. apply rtc_ind_r; [done|].
    intros g h _ [Hh Hinc] [Hg Hgd]. split; [done|].
    destruct (Hcl (file_path g) Hgd) as [_ Hclosed];
      [rewrite dom_empty_L; set_solver|].
    by apply (Hclosed g h).
Qed.

(** *** The classification of the small stores *)

Lemma classification_is_sound_witness :
  (∅ : gmap string IncrementalStatus)
  ⊆ {[ "/g.cpp" := DELETED; "/f.h" := MODIFIED ]}
  ∧ ∀ p s,
      ({[ "/g.cpp" := DELETED; "/f.h" := MODIFIED ]}
         : gmap string IncrementalStatus) !! p = Some s →
      (∅ : gmap string IncrementalStatus) !! p = None →
      (s = DELETED
       ∧ ∃ f, f ∈ scanned_files demo_includer_first ∧ file_path f = p
              ∧ demo_exists "/g.cpp" p = false)
      ∨ (s = MODIFIED
         ∧ ∃ f g, f ∈ scanned_files demo_includer_first
                  ∧ demo_exists "/g.cpp" (file_path f) = true
                  ∧ changed (demo_read "/f.h") id f
                  ∧ g ∈ files demo_includer_first ∧ file_path g = p
                  ∧ rtc (includer_row demo_includer_first) f g).
Proof.
  apply (classification_is_sound (demo_exists "/g.cpp") (demo_read "/f.h") id
           demo_includer_first ∅
           {[ "/g.cpp" := DELETED; "/f.h" := MODIFIED ]}).
  vm_compute. reflexivity.
Defined.

Lemma absent_files_are_classified_witness :
  ∃ s, ({[ "/g.cpp" := DELETED; "/f.h" := MODIFIED ]}
          : gmap string IncrementalStatus) !! "/g.cpp" = Some s
       ∧ ((∅ : gmap string IncrementalStatus) !! "/g.cpp" = None →
          s = DELETED ∨ s = MODIFIED).
Proof.
  apply (absent_files_are_classified (demo_exists "/g.cpp")
           (demo_read "/f.h") id demo_includer_first ∅
           {[ "/g.cpp" := DELETED; "/f.h" := MODIFIED ]}
           (demo_file 2 "/g.cpp" (Some "g0"))).
  - vm_compute. reflexivity.
  - apply list_elem_of_filter. split; [done|]. by left.
  - reflexivity.
Defined.

Lemma markAsModified_classifies_transitive_includers_witness :
  ∃ st, markAsModified demo_cycle (demo_file 1 "/a.h" (Some "a0")) ∅ = Ok st
        ∧ ∀ p s, st !! p = Some s
                 ↔ s = MODIFIED
                   ∧ ∃ g, file_path g = p
                          ∧ rtc (includer_row demo_cycle)
                              (demo_file 1 "/a.h" (Some "a0")) g.
Proof.
  apply (markAsModified_classifies_transitive_includers demo_cycle
           (demo_file 1 "/a.h" (Some "a0"))).
  - by apply store_wf_decide.
  - by left.
Defined.

(** ** The cleanup *)

Lemma filter_rows_subseteq {T} (P : T → Prop) `{!∀ x, Decision (P x)}
    (l : list T) :
  filter P l ⊆ l.
Proof. by intros x [_ ?]%list_elem_of_filter. Qed.

Lemma filter_ext_in {T} (P Q : T → Prop) `{!∀ x, Decision (P x)}
    `{!∀ x, Decision (Q x)} (l : list T) :
  (∀ x, x ∈ l → P x ↔ Q x) → filter P l = filter Q l.
Proof.
  induction l as [|a l IH]; intros Hiff; [done|].
  rewrite !filter_cons.
  rewrite IH by (intros x Hx; apply Hiff; by right).
  apply decide_ext. apply Hiff. by left.
Qed.

Lemma erase_inv {T} (key : T → N) (id : N) (rows rows' : list T) :
  erase key id rows = Ok rows' → rows' = filter (λ r, key r ≠ id) rows.
Proof. unfold erase. case_bool_decide; [by intros [= <-]|done]. Qed.

Lemma erases_refl (d : Db) : erases d d.
Proof. split; try done. intros s Hs. by left. Qed.

Lemma erases_trans (d1 d2 d3 : Db) :
  erases d1 d2 → erases d2 d3 → erases d1 d3.
Proof.
  intros H12 H23. split.
  - rewrite (er_astNodes _ _ H23). apply H12.
  - rewrite (er_inclusions _ _ H23). apply H12.
  - etrans; [apply H23|apply H12].
  - etrans; [apply H23|apply H12].
  - etrans; [apply H23|apply H12].
  - etrans; [apply H23|apply H12].
  - etrans; [apply H23|apply H12].
  - etrans; [apply H23|apply H12].
  - etrans; [apply H23|apply H12].
  - etrans; [apply H23|apply H12].
  - etrans; [apply H23|apply H12].
  - intros s Hs. destruct (er_sources _ _ H12 s Hs) as [Hs2|Hgone].
    + apply (er_sources _ _ H23 s Hs2).
    + right. intros ba Hba. apply Hgone. by apply (er_buildActions _ _ H23).
Qed.

Lemma definition_gone_erases (a : CppAstNode) (d d' : Db) :
  erases d d' → definition_gone a d → definition_gone a d'.
Proof.
  intros He [H1 H2 H3 H4]. split.
  - intros e Hin. by apply H1, (er_entities _ _ He).
  - intros i Hin. by apply H2, (er_inheritances _ _ He).
  - intros fr Hin. by apply H3, (er_friendships _ _ He).
  - intros n Hin. by apply H4, (er_nodes _ _ He).
Qed.

(** A loop of erasures that returns has left the file table alone, has
    only erased, and what one step has made absent is absent at the end. *)
Lemma foldM_erases {A} (f : Db → A → result Db) (gone : A → Db → Prop)
    (l : list A) (d d' : Db) :
  (∀ b x b1, x ∈ l → f b x = Ok b1 →
     files b1 = files b ∧ erases b b1 ∧ gone x b1) →
  (∀ x b b1, erases b b1 → gone x b → gone x b1) →
  foldM f l d = Ok d' →
  files d' = files d ∧ erases d d' ∧ ∀ x, x ∈ l → gone x d'.
Proof.
  intros Hstep Hmono Hrun.
  apply (foldM_Ok_inv f
           (λ pre b, files b = files d ∧ erases d b
                     ∧ ∀ x, x ∈ pre → gone x b) l d d'); [| |done].
  - split_and!; [done|apply erases_refl|]. by intros x ?%elem_of_nil.
  - intros pre x b b1 (Hf & He & Hg) Hx Hfx.
    destruct (Hstep b x b1 Hx Hfx) as (Hf1 & He1 & Hg1).
    split_and!; [congruence|by eapply erases_trans|].
    intros y [Hy| ->%list_elem_of_singleton]%elem_of_app; [|done].
    eapply Hmono; [done|]. by apply Hg.
Qed.

Section CleanupSpec.

Variable edge_cascade : bool.

Implicit Types (d : Db) (id : N).

Lemma erase_entity_step d id d1 :
  (es ← erase entity_id id (entities d); Ok (set_entities es d)) = Ok d1 →
  files d1 = files d ∧ erases d d1
  ∧ ∀ r, r ∈ entities d1 → entity_id r ≠ id.
Proof.
  intros (es & ->%erase_inv & [= <-])%bind_Ok_inv. split_and!; [done| |].
  - split; simpl; try done; try apply filter_rows_subseteq. intros s Hs. by left.
  - by intros r [? _]%list_elem_of_filter.
Qed.

Lemma erase_inheritance_step d id d1 :
  (hs ← erase inheritance_id id (inheritances d);
   Ok (set_inheritances hs d)) = Ok d1 →
  files d1 = files d ∧ erases d d1
  ∧ ∀ r, r ∈ inheritances d1 → inheritance_id r ≠ id.
Proof.
  intros (es & ->%erase_inv & [= <-])%bind_Ok_inv. split_and!; [done| |].
  - split; simpl; try done; try apply filter_rows_subseteq. intros s Hs. by left.
  - by intros r [? _]%list_elem_of_filter.
Qed.

Lemma erase_friendship_step d id d1 :
  (fs ← erase friendship_id id (friendships d);
   Ok (set_friendships fs d)) = Ok d1 →
  files d1 = files d ∧ erases d d1
  ∧ ∀ r, r ∈ friendships d1 → friendship_id r ≠ id.
Proof.
  intros (es & ->%erase_inv & [= <-])%bind_Ok_inv. split_and!; [done| |].
  - split; simpl; try done; try apply filter_rows_subseteq. intros s Hs. by left.
  - by intros r [? _]%list_elem_of_filter.
Qed.

Lemma erase_CppNode_step d id d1 :
  erase_CppNode edge_cascade id d = Ok d1 →
  files d1 = files d ∧ erases d d1 ∧ ∀ r, r ∈ nodes d1 → node_id r ≠ id.
Proof.
  unfold erase_CppNode.
  intros (ns & ->%erase_inv & [= <-])%bind_Ok_inv. split_and!; [done| |].
  - split; simpl; try done; try apply filter_rows_subseteq.
    + destruct edge_cascade; [apply filter_rows_subseteq|done].
    + intros s Hs. by left.
  - by intros r [? _]%list_elem_of_filter.
Qed.

Lemma erase_BuildAction_step d id d1 :
  erase_BuildAction id d = Ok d1 →
  files d1 = files d ∧ erases d d1
  ∧ ∀ ba, ba ∈ buildActions d1 → action_id ba ≠ id.
Proof.
  unfold erase_BuildAction.
  intros (bas & ->%erase_inv & [= <-])%bind_Ok_inv. split_and!; [done| |].
  - split; simpl; try done; try apply filter_rows_subseteq.
    intros s Hs. destruct (decide (source_action s = id)) as [<-|Hne].
    + right. by intros ba [? _]%list_elem_of_filter.
    + left. by apply list_elem_of_filter.
  - by intros ba [? _]%list_elem_of_filter.
Qed.

Lemma removeFile_step d f d1 :
  removeFile f d = Ok d1 →
  files d1 = filter (λ r, file_id r ≠ file_id f) (files d) ∧ erases d d1.
Proof.
  unfold removeFile.
  intros (fs & ->%erase_inv & [= <-])%bind_Ok_inv. split; [done|].
  split; simpl; try done.
  - destruct (file_content f); [|done].
    case_bool_decide; [done|apply filter_rows_subseteq].
  - intros s Hs. by left.
Qed.

Lemma deleteComponent_step d node_ d1 :
  deleteComponent edge_cascade d node_ = Ok d1 →
  files d1 = files d ∧ erases d d1
  ∧ ∀ r, r ∈ nodes d1 → node_id r ≠ node_.
Proof.
  unfold deleteComponent. intros (C & HC & Hfold)%bind_Ok_inv.
  destruct (collectNodeSet_Ok d node_) as (C' & HC' & Hconn).
  rewrite HC in HC'. injection HC' as <-.
  apply (foldM_erases _ (λ id b, ∀ r, r ∈ nodes b → node_id r ≠ id))
    in Hfold as (Hf & He & Hgone).
  - split_and!; [done..|]. apply Hgone, elem_of_elements, Hconn.
    apply rtc_refl.
  - intros b id b1 _ Hstep. by apply erase_CppNode_step.
  - intros id b b1 Her Hg r Hr. by apply Hg, (er_nodes _ _ Her).
Qed.

Lemma cleanupAstNode_step d astNode d1 :
  cleanupAstNode edge_cascade d astNode = Ok d1 →
  files d1 = files d ∧ erases d d1 ∧ definition_gone astNode d1.
Proof.
  unfold cleanupAstNode. cbv zeta.
  intros (da & Ha & (db & Hb & (dc & Hc & Hd)%bind_Ok_inv)%bind_Ok_inv)%bind_Ok_inv.
  apply (foldM_erases _ (λ e b, ∀ r, r ∈ entities b →
                                  entity_id r ≠ entity_id e))
    in Ha as (Hfa & Hea & Hga).
  2: { intros b e b1 _. apply erase_entity_step. }
  2: { intros e b b1 Her Hg r Hr. by apply Hg, (er_entities _ _ Her). }
  apply (foldM_erases _ (λ i b, ∀ r, r ∈ inheritances b →
                                  inheritance_id r ≠ inheritance_id i))
    in Hb as (Hfb & Heb & Hgb).
  2: { intros b e b1 _. apply erase_inheritance_step. }
  2: { intros e b b1 Her Hg r Hr. by apply Hg, (er_inheritances _ _ Her). }
  apply (foldM_erases _ (λ f b, ∀ r, r ∈ friendships b →
                                  friendship_id r ≠ friendship_id f))
    in Hc as (Hfc & Hec & Hgc).
  2: { intros b e b1 _. apply erase_friendship_step. }
  2: { intros e b b1 Her Hg r Hr. by apply Hg, (er_friendships _ _ Her). }
  apply (foldM_erases _ (λ n b, ∀ r, r ∈ nodes b → node_id r ≠ node_id n))
    in Hd as (Hfd & Hed & Hgd).
  2: { intros b e b1 _. apply deleteComponent_step. }
  2: { intros e b b1 Her Hg r Hr. by apply Hg, (er_nodes _ _ Her). }
  split_and!;
    [congruence
    |exact (erases_trans _ _ _ Hea
              (erases_trans _ _ _ Heb (erases_trans _ _ _ Hec Hed)))|].
  split.
  - intros e He Hhash.
    assert (e ∈ entities da) as Hda
      by by apply (er_entities _ _ (erases_trans _ _ _ Heb
                                      (erases_trans _ _ _ Hec Hed))).
    refine (Hga e _ e Hda eq_refl).
    apply list_elem_of_filter. split; [done|]. by apply (er_entities _ _ Hea).
  - intros i Hi Hhash.
    assert (i ∈ inheritances db) as Hdb
      by by apply (er_inheritances _ _ (erases_trans _ _ _ Hec Hed)).
    refine (Hgb i _ i Hdb eq_refl).
    apply list_elem_of_filter. split; [done|].
    by apply (er_inheritances _ _ Heb).
  - intros fr Hfr Hhash.
    assert (fr ∈ friendships dc) as Hdc by by apply (er_friendships _ _ Hed).
    refine (Hgc fr _ fr Hdc eq_refl).
    apply list_elem_of_filter. split; [done|].
    by apply (er_friendships _ _ Hec).
  - intros n Hn Hkey. refine (Hgd n _ n Hn eq_refl).
    apply list_elem_of_filter. split; [done|]. by apply (er_nodes _ _ Hed).
Qed.


Lemma cleanupFile_step path d d1 :
  cleanupFile edge_cascade path d = Ok d1 →
  ∃ f, f ∈ files d ∧ file_path f = path
    ∧ files d1 = filter (λ r, file_id r ≠ file_id f) (files d)
    ∧ erases d d1 ∧ invalidated d f d1.
Proof.
  unfold cleanupFile. cbv zeta.
  intros (f & Hone & (da & Ha & (db & Hb & (dc & Hc & Hrm)%bind_Ok_inv)
                                  %bind_Ok_inv)%bind_Ok_inv)%bind_Ok_inv.
  assert (f ∈ files d ∧ file_path f = path) as [Hf Hpath].
  { unfold one in Hone. destruct (filter _ _) as [|r rs] eqn:Hfil; [done|].
    injection Hone as ->.
    assert (f ∈ filter (λ f, file_path f = path) (files d))
      as [? ?]%list_elem_of_filter by (rewrite Hfil; by left).
    done. }
  apply (foldM_erases _ definition_gone) in Ha as (Hfa & Hea & Hga).
  2: { intros b a b1 _. apply cleanupAstNode_step. }
  2: { intros a b b1 Her Hg. by eapply definition_gone_erases. }
  apply (foldM_erases _ (λ s b, ∀ ba, ba ∈ buildActions b →
                                  action_id ba ≠ source_action s))
    in Hb as (Hfb & Heb & Hgb).
  2: { intros b s b1 _. apply erase_BuildAction_step. }
  2: { intros s b b1 Her Hg ba Hba. by apply Hg, (er_buildActions _ _ Her). }
  apply (foldM_erases _ (λ n b, ∀ r, r ∈ nodes b → node_id r ≠ node_id n))
    in Hc as (Hfc & Hec & Hgc).
  2: { intros b e b1 _. apply deleteComponent_step. }
  2: { intros e b b1 Her Hg r Hr. by apply Hg, (er_nodes _ _ Her). }
  apply removeFile_step in Hrm as [Hfd Hed].
  pose proof (erases_trans _ _ _ Hec Hed) as Hbd.
  pose proof (erases_trans _ _ _ Heb Hbd) as Had.
  exists f. split_and!; [done|done|congruence|by eapply erases_trans|].
  split.
  - intros r Hr. rewrite Hfd in Hr. by apply list_elem_of_filter in Hr as [? _].
  - intros a Hin Hloc Hdef. eapply definition_gone_erases; [exact Had|].
    apply Hga. by apply list_elem_of_filter.
  - intros s ba Hs Hsf Hba.
    destruct (er_sources _ _ Hea s Hs) as [Hs'|Hgone].
    + refine (Hgb s _ ba _).
      * by apply list_elem_of_filter.
      * by apply (er_buildActions _ _ Hbd).
    + by apply Hgone, (er_buildActions _ _ Had).
  - intros n Hn Hkey. refine (Hgc n _ n _ eq_refl).
    + apply list_elem_of_filter. split; [done|].
      by apply (er_nodes _ _ Hbd).
    + by apply (er_nodes _ _ Hed).
Qed.

Lemma invalidated_erases d f b b1 :
  erases b b1 → files b1 ⊆ files b →
  invalidated d f b → invalidated d f b1.
Proof.
  intros He Hf [H1 H2 H3 H4]. split.
  - intros r Hr. by apply H1, Hf.
  - intros a Ha Hloc Hdef. eapply definition_gone_erases; [done|]. by apply H2.
  - intros s ba Hs Hsf Hba. by apply (H3 s ba), (er_buildActions _ _ He).
  - intros n Hn. by apply H4, (er_nodes _ _ He).
Qed.

Lemma invalidated_rebase d f b b1 :
  erases d b → erases b b1 → invalidated b f b1 → invalidated d f b1.
Proof.
  intros Hd He [H1 H2 H3 H4]. split; [done| |  |done].
  - intros a Ha. apply H2. by rewrite (er_astNodes _ _ Hd).
  - intros s ba Hs Hsf Hba.
    destruct (er_sources _ _ Hd s Hs) as [Hs'|Hgone].
    + by apply (H3 s ba).
    + by apply Hgone, (er_buildActions _ _ He).
Qed.

Variable store_error : string → bool.

(** One step of the second loop that returns. *)
Lemma cleanupItem_step d item d1 :
  cleanupItem edge_cascade store_error d item = Ok d1 →
  (item.2 = ADDED ∧ d1 = d)
  ∨ (item.2 ≠ ADDED
     ∧ ∃ f, f ∈ files d ∧ file_path f = item.1
       ∧ files d1 = filter (λ r, file_id r ≠ file_id f) (files d)
       ∧ erases d d1 ∧ invalidated d f d1).
Proof.
  unfold cleanupItem. destruct item as [p s]. simpl.
  destruct s; [intros [= <-]; by left|..];
    (destruct (store_error p); [done|]);
    intros Hrun%cleanupFile_step; right; by split.
Qed.

(** The second loop, when it returns, on a store where file id and path
    are keys. *)
Lemma cleanup_spec st d d' :
  NoDup (file_id <$> files d) → NoDup (file_path <$> files d) →
  cleanup edge_cascade store_error st d = Ok d' →
  files d'
  = filter (λ f, st !! file_path f = None ∨ st !! file_path f = Some ADDED)
      (files d)
  ∧ erases d d'
  ∧ ∀ f s, f ∈ files d → st !! file_path f = Some s → s ≠ ADDED →
           invalidated d f d'.
Proof.
  intros Hid Hpath Hrun. unfold cleanup in Hrun.
  apply (foldM_Ok_inv _
    (λ pre b,
       files b
       = filter (λ r, Forall (λ item : string * IncrementalStatus,
                                item.2 = ADDED ∨ item.1 ≠ file_path r) pre)
           (files d)
       ∧ erases d b
       ∧ ∀ item f, item ∈ pre → item.2 ≠ ADDED → f ∈ files d →
           file_path f = item.1 → invalidated d f b)) in Hrun.
  - destruct Hrun as (Hfiles & Her & Hinv). split_and!; [|done|].
    + rewrite Hfiles. apply list_filter_iff. intros r. rewrite Forall_forall.
      split.
      * intros Hall. destruct (st !! file_path r) as [s|] eqn:Hs; [|by left].
        right. apply elem_of_map_to_list in Hs.
        destruct (Hall _ Hs) as [?|?]; [by f_equal|done].
      * intros Hr [p s] Hin%elem_of_map_to_list. simpl.
        destruct (decide (p = file_path r)) as [->|?]; [|by right].
        left. destruct Hr as [Hr|Hr]; congruence.
    + intros f s Hf Hs Hne.
      apply (Hinv (file_path f, s)); [|done..].
      by apply elem_of_map_to_list.
  - split_and!; [|apply erases_refl|by intros item f ?%elem_of_nil].
    symmetry. apply filter_all. intros r. constructor.
  - intros pre item b b1 (Hfiles & Her & Hinv) _ Hstep.
    assert (files b ⊆ files d) as Hsub
      by (rewrite Hfiles; apply filter_rows_subseteq).
    apply cleanupItem_step in Hstep
      as [[Hadd ->]|(Hne & f0 & Hf0 & Hp0 & Hfiles1 & Her1 & Hinv1)].
    + split_and!; [|done|].
      * rewrite Hfiles. apply list_filter_iff. intros r.
        rewrite Forall_app, Forall_singleton. tauto.
      * intros it f [Hin| ->%list_elem_of_singleton]%elem_of_app; [|done].
        by apply Hinv.
    + assert (files b1 ⊆ files b) as Hsub1
        by (rewrite Hfiles1; apply filter_rows_subseteq).
      split_and!; [|by eapply erases_trans|].
      * rewrite Hfiles1, Hfiles, list_filter_filter.
        apply filter_ext_in. intros r Hr.
        rewrite Forall_app, Forall_singleton.
        assert (file_id r ≠ file_id f0 ↔ item.1 ≠ file_path r) as ->;
          [|tauto].
        split.
        -- intros Hne' Heq. apply Hne'. f_equal.
           eapply (NoDup_key file_path); [done|done|by apply Hsub|congruence].
        -- intros Hne' Heq. apply Hne'. rewrite <-Hp0. f_equal.
           symmetry. eapply (NoDup_key file_id); [done|done|by apply Hsub|done].
      * intros it f [Hin| ->%list_elem_of_singleton]%elem_of_app Hit Hf Hp.
        -- eapply invalidated_erases; [done..|]. by eapply Hinv.
        -- assert (f = f0) as ->.
           { eapply (NoDup_key file_path); [done|done|by apply Hsub|].
             congruence. }
           by eapply invalidated_rebase.
Qed.

End CleanupSpec.

Lemma incrementalParse_Ok_inv (fs_exists : string → bool)
    (fs_read : string → option string) (sha1Hash : string → string)
    (edge_cascade : bool)
    (store_error : string → bool) (d d' : Db)
    (st0 st : gmap string IncrementalStatus) :
  incrementalParse fs_exists fs_read sha1Hash edge_cascade store_error d st0
  = (Ok st, d') →
  classify fs_exists fs_read sha1Hash d st0 = Ok st
  ∧ cleanup edge_cascade store_error st d = Ok d'.
Proof.
  unfold incrementalParse, OdbTransaction.
  destruct (classify _ _ _ _ _) as [st1| |]; simpl; [|done..].
  destruct (cleanup _ _ st1 _) as [d1| |] eqn:Hclean; simpl; [|done..].
  by intros [= <- <-].
Qed.

(** X16: on a store where file id and path are keys, a pass that returns
    has removed from the file table exactly the rows of the files it holds
    as [MODIFIED] or [DELETED]; the other rows are left as they were, in
    their order. *)
Theorem pass_removes_rows_of_classified_files (fs_exists : string → bool)
    (fs_read : string → option string) (sha1Hash : string → string)
    (edge_cascade : bool)
    (store_error : string → bool) (d d' : Db)
    (st0 st : gmap string IncrementalStatus) :
  NoDup (file_id <$> files d) → NoDup (file_path <$> files d) →
  incrementalParse fs_exists fs_read sha1Hash edge_cascade store_error d st0
  = (Ok st, d') →
  files d'
  = filter (λ f, st !! file_path f = None ∨ st !! file_path f = Some ADDED)
      (files d).
Proof.
  intros Hid Hpath [_ Hclean]%incrementalParse_Ok_inv.
  by apply cleanup_spec in Hclean as (? & _).
Qed.

(** X17: on a store where file id and path are keys, after a pass that
    returns, for every file that the pass holds as [MODIFIED] or [DELETED]
    the store has no row of the file, no entity, inheritance (by derived
    class) or friendship (by target) with the mangled-name hash of a
    definition located in the file, no graph node keyed by such a
    definition or by the file, and no build action that had a build source
    on the file. *)
Theorem pass_invalidates_classified_files (fs_exists : string → bool)
    (fs_read : string → option string) (sha1Hash : string → string)
    (edge_cascade : bool)
    (store_error : string → bool) (d d' : Db)
    (st0 st : gmap string IncrementalStatus) (f : File)
    (s : IncrementalStatus) :
  NoDup (file_id <$> files d) → NoDup (file_path <$> files d) →
  incrementalParse fs_exists fs_read sha1Hash edge_cascade store_error d st0
  = (Ok st, d') →
  f ∈ files d → st !! file_path f = Some s → s ≠ ADDED →
  invalidated d f d'.
Proof.
  intros Hid Hpath [_ Hclean]%incrementalParse_Ok_inv Hf Hs Hne.
  apply cleanup_spec in Hclean as (_ & _ & Hinv); [|done..].
  by eapply Hinv.
Qed.

(** A loop throws when it reaches an element at which its body throws in
    every state that satisfies [J], an invariant of the steps that return. *)
Lemma foldM_Throw_at {A B} (f : B → A → result B) (J : B → Prop)
    (l : list A) (b : B) (x : A) :
  x ∈ l → J b →
  (∀ b y b1, J b → f b y = Ok b1 → J b1) →
  (∀ b, J b → f b x = Throw) →
  (∀ b y, f b y ≠ Starved) →
  foldM f l b = Throw.
Proof.
  intros Hx Hb Hkeep Hthrow Hf. revert b Hb.
  induction l as [|y l IH]; intros b Hb; [by apply elem_of_nil in Hx|].
  simpl. apply elem_of_cons in Hx as [<-|Hx].
  - by rewrite Hthrow.
  - destruct (f b y) eqn:Hy; simpl; [|done|by apply Hf in Hy].
    apply IH; [done|]. by eapply Hkeep.
Qed.

(** X18: if [_fileStatus] holds a path as [MODIFIED] or [DELETED] that is
    the path of no row of the file table, the pass does not complete: the
    lookup of the file finds nothing, the pass ends with an exception and
    the store is left as it was before the pass. *)
Theorem classified_path_without_row_aborts_pass (fs_exists : string → bool)
    (fs_read : string → option string) (sha1Hash : string → string)
    (edge_cascade : bool)
    (store_error : string → bool) (d : Db)
    (st0 st : gmap string IncrementalStatus) (p : string)
    (s : IncrementalStatus) :
  classify fs_exists fs_read sha1Hash d st0 = Ok st →
  st !! p = Some s → s ≠ ADDED →
  p ∉ file_path <$> files d →
  incrementalParse fs_exists fs_read sha1Hash edge_cascade store_error d st0
  = (Throw, d).
Proof.
  intros Hclassify Hp Hs Hrow. unfold incrementalParse, OdbTransaction.
  rewrite Hclassify. simpl. unfold cleanup.
  rewrite (foldM_Throw_at _ (λ b, files b ⊆ files d) _ _ (p, s));
    [done| | | | |].
  - by apply elem_of_map_to_list.
  - done.
  - intros b item b1 Hb
      [[_ ->]|(_ & f & _ & _ & -> & _)]%cleanupItem_step; [done|].
    etrans; [apply filter_rows_subseteq|done].
  - intros b Hb. unfold cleanupItem. simpl.
    assert (cleanupFile edge_cascade p b = Throw) as Hthrow.
    { unfold cleanupFile.
      assert (filter (λ f, file_path f = p) (files b) = []) as ->; [|done].
      destruct (filter _ _) as [|r rs] eqn:Hfil; [done|]. exfalso.
      assert (r ∈ filter (λ f, file_path f = p) (files b))
        as [<- Hr]%list_elem_of_filter by (rewrite Hfil; by left).
      apply Hrow, list_elem_of_fmap_2, Hb, Hr. }
    destruct s; [done|..]; by destruct (store_error p).
  - intros b [q s']. unfold cleanupItem. simpl.
    destruct s'; [done|..]; (destruct (store_error q); [done|]);
      apply cleanupFile_not_Starved.
Qed.

Section Redispatch.

Variable cwd : string.
Variable fs_exists : string → bool.
Variable fs_read : string → option string.
Variable sha1Hash : string → string.
Variable edge_cascade : bool.
Variable store_error : string → bool.
Variable loadFromCommandLine : list string → bool.
Variable tool_run : CompileCommand → Db → Z * Db.
Variable fnvHash : string → N.
Variable is_regular_file : string → bool.
Variable loadFromFile : string → option (list CompileCommand).

(** X19: in an incremental run of a parser that starts with an empty
    hash set, on a store where file id and path are keys and on databases
    whose commands have a compiler name, a command of a loaded database is
    dispatched, by a job with its command-line hash, when every stored
    build action with that hash has a build source on a file that the pass
    holds as [MODIFIED] or [DELETED] (and every input that is a regular
    file loads). *)
Theorem invalidated_command_is_dispatched_again (inputs : list string)
    (p p1 : Parser) (i : string) (cs : list CompileCommand)
    (c : CompileCommand) :
  _parsedCommandHashes p = ∅ →
  NoDup (file_id <$> files (db p)) → NoDup (file_path <$> files (db p)) →
  invalidate fs_exists fs_read sha1Hash edge_cascade store_error true p
  = Ok p1 →
  (∀ ba, ba ∈ buildActions (db p) →
     fnvHash (command ba) = line_hash fnvHash c →
     ∃ sr f s, sr ∈ buildSources (db p) ∧ source_action sr = action_id ba
               ∧ f ∈ files (db p) ∧ source_file sr = file_id f
               ∧ _fileStatus p1 !! file_path f = Some s ∧ s ≠ ADDED) →
  (∀ j, j ∈ inputs → is_regular_file j = true → is_Some (loadFromFile j)) →
  (∀ j cs' c', j ∈ inputs → is_regular_file j = true →
               loadFromFile j = Some cs' → c' ∈ cs' → CommandLine c' ≠ []) →
  i ∈ inputs → is_regular_file i = true → loadFromFile i = Some cs →
  c ∈ cs →
  ∃ p' new job,
    parse cwd fs_exists fs_read sha1Hash edge_cascade store_error
      loadFromCommandLine tool_run fnvHash is_regular_file loadFromFile
      true inputs p = Ok (true, p')
    ∧ enqueued p' = (enqueued p ++ new)%list
    ∧ job ∈ new
    ∧ line_hash fnvHash (job_command job) = line_hash fnvHash c.
Proof.
  intros Hempty Hid Hpath Hinv Hactions Hloads Hcmd Hi Hreg Hload Hc.
  destruct (invalidate_keeps _ _ _ _ _ _ _ _ Hinv) as (He & _ & Hh).
  destruct (parse_returns cwd fs_exists fs_read sha1Hash edge_cascade
              store_error loadFromCommandLine tool_run fnvHash
              is_regular_file loadFromFile true inputs p p1 Hinv Hcmd)
    as ([success q] & ->
        & Hok & _ & _ & new & Henq & _ & Hiff & _ & Hall & _).
  rewrite initBuildActions_exact, Hh, Hempty in Hiff.
  cbn [fst snd] in *.
  assert (success = true) as -> by by apply Hok.
  assert (line_hash fnvHash c ∈ line_hash fnvHash <$> (job_command <$> new))
    as (c' & Hc' & (job & -> & Hjob)%list_elem_of_fmap)%list_elem_of_fmap.
  { pose proof (Hall eq_refl i cs c Hi Hreg Hload Hc) as Hin.
    apply Hiff in Hin as [Hin|Hin]; [|done]. exfalso.
    apply elem_of_union in Hin as [Hin|Hin]; [set_solver|].
    apply elem_of_list_to_set in Hin
      as (cmd & Hcmd' & (ba & -> & Hba)%list_elem_of_fmap)%list_elem_of_fmap.
    unfold invalidate in Hinv.
    destruct (incrementalParse _ _ _ _ _ _ _) as [[st| |] d'] eqn:Hpass;
      [|done..].
    injection Hinv as <-. simpl in *.
    apply incrementalParse_Ok_inv in Hpass as [_ Hclean].
    apply cleanup_spec in Hclean as (_ & Her & Hgone); [|done..].
    destruct (Hactions ba) as (sr & f & s & Hsr & Hsa & Hf & Hsf & Hs & Hne);
      [by apply (er_buildActions _ _ Her)|done|].
    by apply (gone_actions _ _ _ (Hgone f s Hf Hs Hne) sr ba). }
  exists (clear_hashes q), new, job. split_and!; [done| |done|done].
  simpl. rewrite Henq. simpl. by rewrite He.
Qed.

End Redispatch.

(** X20: a pass that returns has only erased rows: every table of the
    store holds only rows that it held before the pass. *)
Theorem pass_only_erases (fs_exists : string → bool)
    (fs_read : string → option string) (sha1Hash : string → string)
    (edge_cascade : bool)
    (store_error : string → bool) (d d' : Db)
    (st0 st : gmap string IncrementalStatus) :
  incrementalParse fs_exists fs_read sha1Hash edge_cascade store_error d st0
  = (Ok st, d') →
  only_erased d d'.
Proof.
  intros [_ Hclean]%incrementalParse_Ok_inv. unfold cleanup in Hclean.
  apply (foldM_Ok_inv _ (λ _ b, files b ⊆ files d ∧ erases d b)) in Hclean
    as [Hf He].
  - split; try apply He; try done.
    + by rewrite (er_inclusions _ _ He).
    + by rewrite (er_astNodes _ _ He).
  - split; [done|apply erases_refl].
  - intros pre item b b1 [Hf He] _
      [[_ ->]|(_ & f & _ & _ & Hf1 & He1 & _)]%cleanupItem_step; [done|].
    split; [|by eapply erases_trans].
    rewrite Hf1. etrans; [apply filter_rows_subseteq|done].
Qed.

(** X21: the pass is idempotent: on a store where file id and path are
    keys, after a pass that started with nothing classified and returned, a
    second pass on the store it left, on the same disk and again with
    nothing classified, classifies nothing and leaves the store as it is. *)
Theorem pass_is_idempotent (fs_exists : string → bool)
    (fs_read : string → option string) (sha1Hash : string → string)
    (edge_cascade : bool)
    (store_error : string → bool) (d d' : Db)
    (st : gmap string IncrementalStatus) :
  NoDup (file_id <$> files d) → NoDup (file_path <$> files d) →
  incrementalParse fs_exists fs_read sha1Hash edge_cascade store_error d ∅
  = (Ok st, d') →
  incrementalParse fs_exists fs_read sha1Hash edge_cascade store_error d' ∅
  = (Ok ∅, d').
Proof.
  intros Hid Hpath [Hclassify Hclean]%incrementalParse_Ok_inv.
  apply cleanup_spec in Hclean as (Hfiles & _ & _); [|done..].
  pose proof (classify_spec fs_exists fs_read sha1Hash d ∅) as Hspec.
  rewrite Hclassify in Hspec. simpl in Hspec.
  destruct Hspec as (_ & Hnew & Hcl).
  apply incrementalParse_unchanged.
  intros f [Htype Hf]%list_elem_of_filter. rewrite Hfiles in Hf.
  apply list_elem_of_filter in Hf as [Hst Hf].
  assert (st !! file_path f = None) as Hnone.
  { destruct Hst as [?|Hadded]; [done|].
    destruct (Hnew _ _ Hadded (lookup_empty _)) as [[? _]|[? _]]; done. }
  assert (f ∈ scanned_files d) as Hscan by by apply list_elem_of_filter.
  by apply Hcl.
Qed.

(** *** The pass on the small project *)

Lemma demo_pass_returns : demo_pass = (Ok demo_pass_status, demo_pass.2).
Proof. vm_compute. reflexivity. Qed.

Lemma demo_project_keys :
  NoDup (file_id <$> files demo_project)
  ∧ NoDup (file_path <$> files demo_project).
Proof. split; apply (bool_decide_eq_true_1 _); vm_compute; reflexivity. Qed.

Lemma pass_removes_rows_of_classified_files_witness :
  files demo_pass.2
  = filter (λ f, demo_pass_status !! file_path f = None
                 ∨ demo_pass_status !! file_path f = Some ADDED)
      (files demo_project).
Proof.
  apply (pass_removes_rows_of_classified_files (demo_exists "")
           (demo_read "/a.h") id true (λ _, false) demo_project demo_pass.2
           ∅ demo_pass_status).
  - apply demo_project_keys.
  - apply demo_project_keys.
  - apply demo_pass_returns.
Defined.

Lemma pass_invalidates_classified_files_witness :
  invalidated demo_project (demo_file 2 "/b.cpp" (Some "b0")) demo_pass.2.
Proof.
  apply (pass_invalidates_classified_files (demo_exists "")
           (demo_read "/a.h") id true (λ _, false) demo_project demo_pass.2
           ∅ demo_pass_status (demo_file 2 "/b.cpp" (Some "b0")) MODIFIED).
  - apply demo_project_keys.
  - apply demo_project_keys.
  - apply demo_pass_returns.
  - simpl. rewrite !elem_of_cons. auto.
  - reflexivity.
  - discriminate.
Defined.

Lemma pass_only_erases_witness : only_erased demo_project demo_pass.2.
Proof.
  apply (pass_only_erases (demo_exists "") (demo_read "/a.h") id true
           (λ _, false) demo_project demo_pass.2 ∅ demo_pass_status).
  apply demo_pass_returns.
Defined.

Example demo_pass_store :
  file_path <$> files demo_pass.2 = ["/b.o"]
  ∧ entities demo_pass.2 = [] ∧ nodes demo_pass.2 = []
  ∧ buildActions demo_pass.2 = [].
Proof. vm_compute. by split_and!. Qed.

Lemma classified_path_without_row_aborts_pass_witness :
  incrementalParse (demo_exists "") (demo_read "") id true (λ _, false)
    demo_project {[ "/gone.h" := MODIFIED ]}
  = (Throw, demo_project).
Proof.
  apply (classified_path_without_row_aborts_pass (demo_exists "")
           (demo_read "") id true (λ _, false) demo_project
           {[ "/gone.h" := MODIFIED ]} {[ "/gone.h" := MODIFIED ]}
           "/gone.h" MODIFIED).
  - vm_compute. reflexivity.
  - reflexivity.
  - discriminate.
  - simpl. rewrite !elem_of_cons, elem_of_nil.
    intros [?|[?|[?|[]]]]; discriminate.
Defined.

Lemma invalidated_command_is_dispatched_again_witness :
  ∃ p' new job,
    parse "/" (demo_exists "") (demo_read "/a.h") id true (λ _, false)
      (λ _, true) demo_failing_parse demo_hash (λ _, true) demo_loadFromFile
      true ["good.json"] (new_parser demo_project)
    = Ok (true, p')
    ∧ enqueued p' = ([] ++ new)%list
    ∧ job ∈ new
    ∧ line_hash demo_hash (job_command job) = line_hash demo_hash demo_command.
Proof.
  apply (invalidated_command_is_dispatched_again "/" (demo_exists "")
           (demo_read "/a.h") id true (λ _, false) (λ _, true)
           demo_failing_parse demo_hash (λ _, true) demo_loadFromFile
           ["good.json"] (new_parser demo_project)
           (set_store demo_pass.2 demo_pass_status (new_parser demo_project))
           "good.json" [demo_command] demo_command).
  - reflexivity.
  - apply demo_project_keys.
  - apply demo_project_keys.
  - unfold invalidate. fold demo_pass. by rewrite demo_pass_returns.
  - intros ba ->%list_elem_of_singleton _.
    exists {| source_file := 2%N; source_action := 1%N |},
      (demo_file 2 "/b.cpp" (Some "b0")), MODIFIED.
    split_and!; [by left|done| |done|done|done].
    simpl. rewrite !elem_of_cons. auto.
  - intros j ->%list_elem_of_singleton _. by eexists.
  - intros j cs' c' ->%list_elem_of_singleton _ [= <-]
      ->%list_elem_of_singleton.
    discriminate.
  - by left.
  - reflexivity.
  - reflexivity.
  - by left.
Defined.

Lemma pass_is_idempotent_witness :
  incrementalParse (demo_exists "") (demo_read "/a.h") id true (λ _, false)
    demo_pass.2 ∅
  = (Ok ∅, demo_pass.2).
Proof.
  apply (pass_is_idempotent (demo_exists "") (demo_read "/a.h") id true
           (λ _, false) demo_project demo_pass.2 demo_pass_status).
  - apply demo_project_keys.
  - apply demo_project_keys.
  - apply demo_pass_returns.
Defined.

(** ** Components, continued *)

Lemma adjacent_sym (es : list CppEdge) (x y : CppNodeId) :
  adjacent es x y → adjacent es y x.
Proof. intros (e & He & Hxy). exists e. split; [done|]. tauto. Qed.

Lemma connected_sym (es : list CppEdge) (x y : CppNodeId) :
  connected es x y → connected es y x.
Proof.
  induction 1 as [|x y z Hxy _ IH]; [done|].
  eapply rtc_r; [exact IH|]. by apply adjacent_sym.
Qed.

(** X22: the set that [collectNodeSet] returns does not depend on the
    node of the set it is started from. *)
Theorem collectNodeSet_same_from_every_member (d : Db) (node_ x : CppNodeId)
    (C : gset CppNodeId) :
  collectNodeSet d node_ = Ok C → x ∈ C → collectNodeSet d x = Ok C.
Proof.
  intros Hrun Hx.
  destruct (collectNodeSet_Ok d node_) as (C0 & HC0 & Hconn).
  rewrite Hrun in HC0. injection HC0 as <-.
  destruct (collectNodeSet_Ok d x) as (C' & -> & Hconn').
  f_equal. apply set_eq. intros y. rewrite Hconn', Hconn.
  apply Hconn in Hx. split; intros Hy.
  - by etrans.
  - etrans; [by apply connected_sym|done].
Qed.

Lemma collectNodeSet_same_from_every_member_witness :
  collectNodeSet demo_project 3%N = Ok {[ 3%N; 4%N ]}.
Proof.
  apply (collectNodeSet_same_from_every_member demo_project 4%N 3%N
           {[ 3%N; 4%N ]}).
  - vm_compute. reflexivity.
  - set_solver.
Defined.

Section DeleteSpec.

Variable edge_cascade : bool.

Implicit Types (d : Db) (id : CppNodeId) (l : list CppNodeId).

(** Erasing the nodes of [l] throws when one of them has no row. *)
Lemma erase_nodes_Throw l d x :
  x ∈ l → x ∉ node_id <$> nodes d →
  foldM (λ d id, erase_CppNode edge_cascade id d) l d = Throw.
Proof.
  intros Hx. revert d.
  induction l as [|y l IH]; intros d Hrow; [by apply elem_of_nil in Hx|].
  simpl. apply elem_of_cons in Hx as [<-|Hx].
  - unfold erase_CppNode. by rewrite erase_Throw.
  - destruct (erase_CppNode edge_cascade y d) as [d1| |] eqn:Hy; simpl;
      [|done|].
    + apply IH; [done|].
      apply erase_CppNode_step in Hy as (_ & Her & _).
      intros (r & -> & Hr)%list_elem_of_fmap. apply Hrow.
      by apply list_elem_of_fmap_2, (er_nodes _ _ Her).
    + unfold erase_CppNode in Hy.
      destruct (erase node_id y (nodes d)) eqn:He; simpl in Hy; [done..|].
      by apply erase_not_Starved in He.
Qed.

(** The edges that a completed run of erasures leaves. *)
Lemma erase_nodes_edges l d d' :
  foldM (λ d id, erase_CppNode edge_cascade id d) l d = Ok d' →
  edges d' = edges_after edge_cascade l (edges d).
Proof.
  revert d. induction l as [|y l IH]; intros d; simpl.
  - intros [= <-]. unfold edges_after. destruct edge_cascade; [|done].
    symmetry. apply filter_all. intros e. split; by intros ?%elem_of_nil.
  - intros (d1 & Hy & Hrest)%bind_Ok_inv. rewrite (IH _ Hrest).
    unfold erase_CppNode in Hy.
    apply bind_Ok_inv in Hy as (ns & _ & [= <-]). simpl.
    unfold edges_after. destruct edge_cascade; [|done].
    rewrite list_filter_filter. apply list_filter_iff.
    intros e. rewrite !not_elem_of_cons. tauto.
Qed.

(** X23: deleting the component of a node returns or throws; it throws
    exactly when some node connected to the start node, the start node
    included, has no row in the node table, and it returns exactly when all
    of them have one. *)
Theorem deleteComponent_throws_iff_row_missing (d : Db) (node_ : CppNodeId) :
  (deleteComponent edge_cascade d node_ = Throw
   ↔ ∃ x, connected (edges d) node_ x ∧ x ∉ node_id <$> nodes d)
  ∧ ((∃ d', deleteComponent edge_cascade d node_ = Ok d')
     ↔ ∀ x, connected (edges d) node_ x → x ∈ node_id <$> nodes d).
Proof.
  destruct (collectNodeSet_Ok d node_) as (C & HC & Hconn).
  assert (∀ x, connected (edges d) node_ x → x ∉ node_id <$> nodes d →
               deleteComponent edge_cascade d node_ = Throw) as Hthrow.
  { intros x Hx Hrow. unfold deleteComponent. rewrite HC. simpl.
    apply (erase_nodes_Throw _ _ x); [|done].
    by apply elem_of_elements, Hconn. }
  assert ((∀ x, connected (edges d) node_ x → x ∈ node_id <$> nodes d) →
          ∃ d', deleteComponent edge_cascade d node_ = Ok d') as Hok.
  { intros Hall. unfold deleteComponent. rewrite HC. simpl.
    rewrite erase_nodes_Ok; [by eexists|apply NoDup_elements|].
    intros id Hid%elem_of_elements. by apply Hall, Hconn. }
  split; split.
  - intros Hrun.
    destruct (decide (Forall (λ x, x ∈ node_id <$> nodes d) (elements C)))
      as [Hall|Hnot].
    + destruct Hok as [d' Hd'].
      * intros x Hx%Hconn%elem_of_elements.
        by eapply Forall_forall in Hall.
      * congruence.
    + apply not_Forall_Exists in Hnot; [|apply _].
      apply Exists_exists in Hnot as (x & Hx%elem_of_elements%Hconn & Hrow).
      by exists x.
  - intros (x & Hx & Hrow). by eapply Hthrow.
  - intros [d' Hd'] x Hx.
    destruct (decide (x ∈ node_id <$> nodes d)) as [|Hrow]; [done|].
    rewrite (Hthrow x Hx Hrow) in Hd'. done.
  - done.
Qed.

(** X24: deleting the component of [node_], when it returns, does not
    change what [collectNodeSet] returns for a node that is not connected to
    [node_], whether or not the store removes edges with their end nodes. *)
Theorem deleteComponent_keeps_other_components (d d' : Db)
    (node_ m : CppNodeId) :
  deleteComponent edge_cascade d node_ = Ok d' →
  ¬ connected (edges d) node_ m →
  collectNodeSet d' m = collectNodeSet d m.
Proof.
  unfold deleteComponent. intros (C & HC & Hfold)%bind_Ok_inv Hm.
  apply erase_nodes_edges in Hfold.
  destruct (collectNodeSet_Ok d node_) as (C0 & HC0 & Hconn).
  rewrite HC in HC0. injection HC0 as <-.
  destruct (collectNodeSet_Ok d m) as (C1 & -> & Hconn1).
  destruct (collectNodeSet_Ok d' m) as (C2 & -> & Hconn2).
  f_equal. apply set_eq. intros x. rewrite Hconn1, Hconn2, Hfold.
  unfold edges_after. destruct edge_cascade; [|done].
  split.
  - apply rtc_subrel. intros a b (e & [_ He]%list_elem_of_filter & Hab).
    by exists e.
  - intros Hx.
    assert (connected (edges d) m x
            ∧ connected (filter (λ e, from e ∉ elements C ∧ to e ∉ elements C)
                           (edges d)) m x) as [_ ?]; [|done].
    revert x Hx. apply rtc_ind_r; [done|].
    intros y z _ Hyz [Hy Hy']. split; [by eapply rtc_r|].
    eapply rtc_r; [done|]. destruct Hyz as (e & He & Hyz).
    exists e. split; [|done]. apply list_elem_of_filter. split; [|done].
    assert (∀ v, connected (edges d) m v → v ∉ elements C) as Hout.
    { intros v Hv Hin%elem_of_elements%Hconn. apply Hm.
      etrans; [done|]. by apply connected_sym. }
    assert (connected (edges d) m z) as Hz
      by (eapply rtc_r; [done|]; by exists e).
    destruct Hyz as [[<- <-]|[<- <-]]; split; by apply Hout.
Qed.

End DeleteSpec.

Lemma deleteComponent_keeps_other_components_witness :
  collectNodeSet
    (set_graph [ {| node_id := 1%N; domain := CPPASTNODE;
                    domainId := "20" |} ] [] demo_project) 1%N
  = collectNodeSet demo_project 1%N.
Proof.
  apply (deleteComponent_keeps_other_components true demo_project
           (set_graph [ {| node_id := 1%N; domain := CPPASTNODE;
                           domainId := "20" |} ] [] demo_project)
           3%N 1%N).
  - vm_compute. reflexivity.
  - intros Hconn.
    destruct (collectNodeSet_Ok demo_project 3%N) as (C & HC & Hiff).
    apply Hiff in Hconn.
    assert (collectNodeSet demo_project 3%N = Ok {[ 3%N; 4%N ]}) as Heq
      by (vm_compute; reflexivity).
    rewrite Heq in HC. injection HC as <-.
    rewrite elem_of_union, !elem_of_singleton in Hconn.
    by destruct Hconn.
Defined.
